(** * primesieve: a shallow embedding of the API layer, the CPU probe and
    the sequential sieve driver

    The development follows four source units:
    - [src/api.cpp]: the process-wide sieve size and thread count and the
      heuristic that derives a sieve size from the CPU caches;
    - [CpuInfo.cpp] (the version storing [cacheSizes_] and
      [cacheSharing_] as arrays): the constructor, the validity predicates
      and the Linux probe; besides them the [init()] of macOS and of
      Windows, and the [trimString] of the earlier revisions;
    - [soe/PrimeSieve.cpp]: range and sieve-size setters, the pre-list of
      small primes, the trial division that seeds the sieving-prime
      generator, and [sieve()];
    - the helpers of [pmath] and the classes the driver delegates to,
      which are not part of the sources and are modelled from the
      specification or taken as parameters.

    Unsigned machine integers are values of [Z] with the wrap-around
    written out where an operation can leave the type's range. *)

From Stdlib Require Import ZArith Bool Lia String Ascii List Znumtheory.
From Stdlib Require Import DecimalString Sorted.
Import ListNotations.
Open Scope Z_scope.

(** ** Outcomes of a call *)

(** The two standard exceptions thrown in the modelled code; both derive
    from [std::exception], whose [what()] returns the message. *)
Inductive exception : Type :=
| invalid_argument (what_arg : string)
| out_of_range (what_arg : string).

Definition what (e : exception) : string :=
  match e with
  | invalid_argument s => s
  | out_of_range s => s
  end.

(** A call returns, throws, has undefined behaviour (an access past the end
    of a vector or array, a call through a null pointer), or has not
    finished within the fuel of a loop. *)
Inductive outcome (A : Type) : Type :=
| Ok (a : A)
| Throw (e : exception)
| Undefined (why : string)
| OutOfFuel.

Arguments Ok {A} a.
Arguments Throw {A} e.
Arguments Undefined {A} why.
Arguments OutOfFuel {A}.

Definition bind {A B : Type} (m : outcome A) (k : A -> outcome B) : outcome B :=
  match m with
  | Ok a => k a
  | Throw e => Throw e
  | Undefined w => Undefined w
  | OutOfFuel => OutOfFuel
  end.

Declare Scope outcome_scope.
Delimit Scope outcome_scope with outcome.
Notation "x <- m ;; k" := (bind m (fun x => k))
  (at level 61, m at next level, right associativity) : outcome_scope.

Definition throws {A : Type} (m : outcome A) : Prop := exists e, m = Throw e.

(** ** Unsigned arithmetic *)

Definition UINT32_MAX : Z := 2 ^ 32 - 1.
Definition UINT64_MAX : Z := 2 ^ 64 - 1.
Definition wrap32 (x : Z) : Z := x mod 2 ^ 32.
Definition wrap64 (x : Z) : Z := x mod 2 ^ 64.

(** ** Primes, for the statements about counts *)

(** [zrange lo n] is [lo; lo+1; ...], [n] numbers. *)
Fixpoint zrange (lo : Z) (n : nat) : list Z :=
  match n with
  | O => []
  | S n' => lo :: zrange (lo + 1) n'
  end.

(** Primality by trial division by every [d] with [2 <= d < n]. *)
Definition isPrime (n : Z) : bool :=
  (1 <? n) && forallb (fun d => negb (n mod d =? 0)) (zrange 2 (Z.to_nat (n - 2))).

Definition primesBetween (lo hi : Z) : list Z :=
  filter isPrime (zrange lo (Z.to_nat (hi - lo + 1))).

Definition countPrimes (lo hi : Z) : Z := Z.of_nat (length (primesBetween lo hi)).

(** [a[i] = v]; [None] when [i] is past the end. *)
Fixpoint store (a : list Z) (i : nat) (v : Z) : option (list Z) :=
  match a, i with
  | [], _ => None
  | _ :: a', O => Some (v :: a')
  | x :: a', S i' =>
      match store a' i' v with
      | Some r => Some (x :: r)
      | None => None
      end
  end.


(** The decimal digits of an integer, as [operator<<] and [to_string]
    produce them. *)
Definition decimal (x : Z) : string := NilZero.string_of_int (Z.to_int x).

(** ** pmath *)

Module pmath.

(** Modelled from the spec: [inBetween(min, x, max)] of pmath.hpp, which is
    not part of the sources. The specification calls its result "clamped
    to [min, max]": below [min] it is [min], above [max] it is [max]. *)
Definition inBetween (min x max : Z) : Z :=
  if x <? min then min else if max <? x then max else x.

(** Modelled from the spec: [floorPow2] of pmath.hpp, which is not part of
    the sources: "rounded down to power of two". Zero, which has no power
    of two below it, is left as it is. *)
Definition floorPow2 (x : Z) : Z :=
  if x <=? 0 then 0 else 2 ^ Z.log2 x.

(** Modelled from the spec: [isPowerOf2] of pmath.h, which is not part of
    the sources: the argument "must be a power of 2". *)
Definition isPowerOf2 (x : Z) : bool :=
  (0 <? x) && (x =? 2 ^ Z.log2 x).

(** Modelled from the spec: the macro [U32SQRT] of pmath.h, which is not
    part of the sources: the 32-bit integer square root that bounds the
    sieving primes ("primes up to sqrt(stop)"). *)
Definition U32SQRT (x : Z) : Z := wrap32 (Z.sqrt x).

End pmath.

(** ** What the probe of the CPU reads

    The operating system and the C++ library, as far as [CpuInfo::init]
    uses them: [readFile] gives the content of a file, or [None] when it
    cannot be opened; [stoul str base] is [std::stoul], which returns a
    number or throws; [at_what i n] is the message of the exception that
    [vector::at(i)] throws on a vector of [n] elements. *)
Class System : Type := {
  readFile : string -> option string;
  stoul : string -> Z -> exception + Z;
  at_what : nat -> nat -> string
}.

(** ** CpuInfo: the object and its accessors *)

Module CpuInfo.

(** One [CpuInfo] object. The two arrays have four entries, indexed by
    cache level; entry 0 is unused. *)
Record t : Type := mk {
  cpuName_ : string;
  cpuCores_ : Z;
  cpuThreads_ : Z;
  threadsPerCore_ : Z;
  cacheSizes_ : list Z;
  cacheSharing_ : list Z;
  error_ : string
}.

(** The member initialisers of the constructor: strings are empty, counts
    and arrays are zero. *)
Definition zero : t :=
  {| cpuName_ := ""; cpuCores_ := 0; cpuThreads_ := 0; threadsPerCore_ := 0;
     cacheSizes_ := [0; 0; 0; 0]; cacheSharing_ := [0; 0; 0; 0];
     error_ := "" |}.

Definition cpuName (c : t) : string := cpuName_ c.
Definition cpuCores (c : t) : Z := cpuCores_ c.
Definition cpuThreads (c : t) : Z := cpuThreads_ c.
Definition l1CacheSize (c : t) : Z := nth 1 (cacheSizes_ c) 0.
Definition l2CacheSize (c : t) : Z := nth 2 (cacheSizes_ c) 0.
Definition l3CacheSize (c : t) : Z := nth 3 (cacheSizes_ c) 0.
Definition l1Sharing (c : t) : Z := nth 1 (cacheSharing_ c) 0.
Definition l2Sharing (c : t) : Z := nth 2 (cacheSharing_ c) 0.
Definition l3Sharing (c : t) : Z := nth 3 (cacheSharing_ c) 0.
Definition threadsPerCore (c : t) : Z := threadsPerCore_ c.
Definition getError (c : t) : string := error_ c.

Definition hasCpuName (c : t) : bool :=
  match cpuName_ c with EmptyString => false | _ => true end.

Definition hasCpuCores (c : t) : bool :=
  (1 <=? cpuCores_ c) && (cpuCores_ c <=? Z.shiftl 1 20).

Definition hasCpuThreads (c : t) : bool :=
  (1 <=? cpuThreads_ c) && (cpuThreads_ c <=? Z.shiftl 1 20).

Definition hasL1Cache (c : t) : bool :=
  (Z.shiftl 1 12 <=? nth 1 (cacheSizes_ c) 0) &&
  (nth 1 (cacheSizes_ c) 0 <=? Z.shiftl 1 30).

Definition hasL2Cache (c : t) : bool :=
  let cacheSize := nth 2 (cacheSizes_ c) 0 in
  (Z.shiftl 1 12 <=? cacheSize) && (cacheSize <=? Z.shiftl 1 40).

Definition hasL3Cache (c : t) : bool :=
  let cacheSize := nth 3 (cacheSizes_ c) 0 in
  (Z.shiftl 1 12 <=? cacheSize) && (cacheSize <=? Z.shiftl 1 40).

Definition hasL1Sharing (c : t) : bool :=
  (1 <=? nth 1 (cacheSharing_ c) 0) && (nth 1 (cacheSharing_ c) 0 <=? Z.shiftl 1 20).

Definition hasL2Sharing (c : t) : bool :=
  (1 <=? nth 2 (cacheSharing_ c) 0) && (nth 2 (cacheSharing_ c) 0 <=? Z.shiftl 1 20).

Definition hasL3Sharing (c : t) : bool :=
  (1 <=? nth 3 (cacheSharing_ c) 0) && (nth 3 (cacheSharing_ c) 0 <=? Z.shiftl 1 20).

Definition hasThreadsPerCore (c : t) : bool :=
  (1 <=? threadsPerCore_ c) && (threadsPerCore_ c <=? Z.shiftl 1 10).

Definition hasPrivateL2Cache (c : t) : bool :=
  hasL2Cache c && hasL2Sharing c && hasThreadsPerCore c &&
  (l2Sharing c <=? threadsPerCore_ c).

Definition hasHyperThreading (c : t) : bool :=
  hasThreadsPerCore c && (1 <? threadsPerCore_ c).

(** The numeric members the probes assign; the cache arrays by level. *)
Inductive member : Type :=
| CpuCores
| CpuThreads
| ThreadsPerCore
| CacheSize (level : nat)
| CacheSharing (level : nat).

Definition member_eqb (a b : member) : bool :=
  match a, b with
  | CpuCores, CpuCores => true
  | CpuThreads, CpuThreads => true
  | ThreadsPerCore, ThreadsPerCore => true
  | CacheSize i, CacheSize j => Nat.eqb i j
  | CacheSharing i, CacheSharing j => Nat.eqb i j
  | _, _ => false
  end.

Definition read (c : t) (m : member) : Z :=
  match m with
  | CpuCores => cpuCores_ c
  | CpuThreads => cpuThreads_ c
  | ThreadsPerCore => threadsPerCore_ c
  | CacheSize level => nth level (cacheSizes_ c) 0
  | CacheSharing level => nth level (cacheSharing_ c) 0
  end.

(** The object after [m = v]; [None] when an array index is past the end. *)
Definition write (c : t) (m : member) (v : Z) : option t :=
  match m with
  | CpuCores =>
      Some (mk (cpuName_ c) v (cpuThreads_ c) (threadsPerCore_ c) (cacheSizes_ c)
               (cacheSharing_ c) (error_ c))
  | CpuThreads =>
      Some (mk (cpuName_ c) (cpuCores_ c) v (threadsPerCore_ c) (cacheSizes_ c)
               (cacheSharing_ c) (error_ c))
  | ThreadsPerCore =>
      Some (mk (cpuName_ c) (cpuCores_ c) (cpuThreads_ c) v (cacheSizes_ c)
               (cacheSharing_ c) (error_ c))
  | CacheSize level =>
      match store (cacheSizes_ c) level v with
      | Some a => Some (mk (cpuName_ c) (cpuCores_ c) (cpuThreads_ c)
                           (threadsPerCore_ c) a (cacheSharing_ c) (error_ c))
      | None => None
      end
  | CacheSharing level =>
      match store (cacheSharing_ c) level v with
      | Some a => Some (mk (cpuName_ c) (cpuCores_ c) (cpuThreads_ c)
                           (threadsPerCore_ c) (cacheSizes_ c) a (error_ c))
      | None => None
      end
  end.

(** *** The probe of Linux (and of every unknown system) *)

Section Probe.
Context {Sys : System}.

Definition isspace (c : ascii) : bool :=
  let n := nat_of_ascii c in
  ((n =? 32) || ((9 <=? n) && (n <=? 13)))%nat.

Fixpoint removeAllSpaces (str : string) : string :=
  match str with
  | EmptyString => EmptyString
  | String c rest =>
      if isspace c then removeAllSpaces rest else String c (removeAllSpaces rest)
  end.

(** [split] reads tokens with [getline]: a delimiter ends a token, and the
    end of the input ends a token only when characters were read for it. *)
Fixpoint split_from (str token : string) (delimiter : ascii) : list string :=
  match str with
  | EmptyString =>
      match token with EmptyString => [] | _ => [token] end
  | String c rest =>
      if Ascii.eqb c delimiter
      then token :: split_from rest EmptyString delimiter
      else split_from rest (token ++ String c EmptyString)%string delimiter
  end.

Definition split (str : string) (delimiter : ascii) : list string :=
  split_from str EmptyString delimiter.

Fixpoint contains (c : ascii) (str : string) : bool :=
  match str with
  | EmptyString => false
  | String a rest => Ascii.eqb a c || contains c rest
  end.

Fixpoint back (str : string) : option ascii :=
  match str with
  | EmptyString => None
  | String c EmptyString => Some c
  | String _ rest => back rest
  end.

Definition getString (filename : string) : string :=
  match readFile filename with
  | Some content => removeAllSpaces content
  | None => EmptyString
  end.

Definition back_is (str : string) (c : ascii) : bool :=
  match back str with Some a => Ascii.eqb a c | None => false end.

Definition getValue (filename : string) : exception + Z :=
  let val := 0 in
  let str := getString filename in
  match str with
  | EmptyString => inr val
  | _ =>
      match stoul str 10 with
      | inl e => inl e
      | inr val =>
          let val := if back_is str "K" then wrap64 (val * Z.shiftl 1 10) else val in
          let val := if back_is str "M" then wrap64 (val * Z.shiftl 1 20) else val in
          let val := if back_is str "G" then wrap64 (val * Z.shiftl 1 30) else val in
          inr val
      end
  end.

(** [values.at(i)]. *)
Definition at_ (values : list string) (i : nat) : exception + string :=
  match nth_error values i with
  | Some v => inr v
  | None => inl (out_of_range (at_what i (length values)))
  end.

Fixpoint parseThreadList_tokens (tokens : list string) (threads : Z) : exception + Z :=
  match tokens with
  | [] => inr threads
  | str :: rest =>
      if negb (contains "-" str)
      then parseThreadList_tokens rest (wrap64 (threads + 1))
      else
        let values := split str "-" in
        match at_ values 0 with
        | inl e => inl e
        | inr v0 =>
            match stoul v0 10 with
            | inl e => inl e
            | inr t0 =>
                match at_ values 1 with
                | inl e => inl e
                | inr v1 =>
                    match stoul v1 10 with
                    | inl e => inl e
                    | inr t1 =>
                        parseThreadList_tokens rest (wrap64 (threads + (t1 - t0 + 1)))
                    end
                end
            end
        end
  end.

Definition parseThreadList (filename : string) : exception + Z :=
  let threads := 0 in
  let threadList := getString filename in
  let tokens := split threadList "," in
  parseThreadList_tokens tokens threads.

(** [for (; bitmap > 0; threads++) bitmap &= bitmap - 1;] *)
Fixpoint clear_bits (fuel : nat) (bitmap threads : Z) : option Z :=
  if 0 <? bitmap then
    match fuel with
    | O => None
    | S fuel' =>
        clear_bits fuel' (Z.land bitmap (bitmap - 1)) (wrap64 (threads + 1))
    end
  else Some threads.

Fixpoint parseThreadMap_chars (str : string) (threads : Z) : outcome Z :=
  match str with
  | EmptyString => Ok threads
  | String c rest =>
      let hexChar := String c EmptyString in
      match stoul hexChar 16 with
      | inl e => Throw e
      | inr bitmap =>
          match clear_bits (Z.to_nat bitmap) bitmap threads with
          | Some threads' => parseThreadMap_chars rest threads'
          | None => OutOfFuel
          end
      end
  end.

Fixpoint parseThreadMap_tokens (tokens : list string) (threads : Z) : outcome Z :=
  match tokens with
  | [] => Ok threads
  | str :: rest =>
      match parseThreadMap_chars str threads with
      | Ok threads' => parseThreadMap_tokens rest threads'
      | r => r
      end
  end.

Definition parseThreadMap (filename : string) : outcome Z :=
  let threads := 0 in
  let threadMap := getString filename in
  let tokens := split threadMap "," in
  parseThreadMap_tokens tokens threads.

Definition lift {A : Type} (r : exception + A) : outcome A :=
  match r with inl e => Throw e | inr a => Ok a end.

Definition getThreads (threadList threadMap : string) : outcome Z :=
  match lift (parseThreadList threadList) with
  | Ok threads => if negb (threads =? 0) then Ok threads else parseThreadMap threadMap
  | r => r
  end.

(** The CPU name. *)

Fixpoint ltrim (str : string) : string :=
  match str with
  | EmptyString => EmptyString
  | String c rest => if isspace c then ltrim rest else str
  end.

Fixpoint reverse (str : string) : string :=
  match str with
  | EmptyString => EmptyString
  | String c rest => (reverse rest ++ String c EmptyString)%string
  end.

Definition trimString (str : string) : string :=
  reverse (ltrim (reverse (ltrim str))).

(** [line.find_first_of(':')]: the text before and the text after it. *)
Fixpoint cut_at (c : ascii) (line : string) : option (string * string) :=
  match line with
  | EmptyString => None
  | String a rest =>
      if Ascii.eqb a c then Some (EmptyString, rest)
      else match cut_at c rest with
           | Some (l, r) => Some (String a l, r)
           | None => None
           end
  end.

Definition cpuLabels : list string :=
  ["model name"%string; "Processor"%string; "cpu"%string].

Definition getCpuName_line (line : string) : string :=
  match cut_at ":" line with
  | Some (label, after) =>
      let label := trimString label in
      if existsb (String.eqb label) cpuLabels then after else EmptyString
  | None => EmptyString
  end.

Definition isdigit (c : ascii) : bool :=
  let n := nat_of_ascii c in ((48 <=? n) && (n <=? 57))%nat.

Fixpoint all_digits (str : string) : bool :=
  match str with
  | EmptyString => true
  | String c rest => isdigit c && all_digits rest
  end.

Definition isValid (cpuName : string) : bool :=
  match cpuName with
  | EmptyString => false
  | _ => negb (all_digits cpuName)
  end.

Fixpoint getCpuName_lines (lines : list string) (i : nat) : string :=
  match lines with
  | [] => EmptyString
  | line :: rest =>
      let cpuName := trimString (getCpuName_line line) in
      if isValid cpuName then cpuName
      else if (10 <? S i)%nat then EmptyString
      else getCpuName_lines rest (S i)
  end.

Definition getCpuName : string :=
  match readFile "/proc/cpuinfo" with
  | Some content => getCpuName_lines (split content "010") 0
  | None => EmptyString
  end.

(** The state of a running constructor: the object under construction and
    the journal of the assignments to numeric members that were carried
    out, oldest first. *)
Definition state : Type := t * list (member * Z).

(** A step of the probe changes the state and returns, throws, or fails
    otherwise; the members assigned before an exception keep their
    values. *)
Definition M (A : Type) : Type := state -> state * outcome A.

Definition ret {A : Type} (a : A) : M A := fun st => (st, Ok a).

Definition mbind {A B : Type} (m : M A) (k : A -> M B) : M B :=
  fun st =>
    match m st with
    | (st', Ok a) => k a st'
    | (st', Throw e) => (st', Throw e)
    | (st', Undefined w) => (st', Undefined w)
    | (st', OutOfFuel) => (st', OutOfFuel)
    end.

Definition eval {A : Type} (r : outcome A) : M A := fun st => (st, r).

Definition this : M t := fun st => (st, Ok (fst st)).

Definition set_cpuName (name : string) : M unit :=
  fun st =>
    let c := fst st in
    ((mk name (cpuCores_ c) (cpuThreads_ c) (threadsPerCore_ c) (cacheSizes_ c)
         (cacheSharing_ c) (error_ c), snd st), Ok tt).

(** [m = v] for a numeric member [m]. *)
Definition assign (m : member) (v : Z) : M unit :=
  fun st =>
    let c := fst st in
    match write c m v with
    | Some c' => ((c', (snd st ++ [(m, v)])%list), Ok tt)
    | None => (st, Undefined "array index past the end")
    end.

Fixpoint for_each {A : Type} (xs : list A) (body : A -> M unit) : M unit :=
  match xs with
  | [] => ret tt
  | x :: rest => mbind (body x) (fun _ => for_each rest body)
  end.

Definition cache_index (i : Z) : M unit :=
  let path := ("/sys/devices/system/cpu/cpu0/cache/index" ++ decimal i)%string in
  let cacheLevel := (path ++ "/level")%string in
  mbind (eval (lift (getValue cacheLevel))) (fun level =>
  if (1 <=? level) && (level <=? 3) then
    let type := (path ++ "/type")%string in
    let cacheType := getString type in
    if String.eqb cacheType "Data" || String.eqb cacheType "Unified" then
      let cacheSize := (path ++ "/size")%string in
      let sharedCpuList := (path ++ "/shared_cpu_list")%string in
      let sharedCpuMap := (path ++ "/shared_cpu_map")%string in
      mbind (eval (lift (getValue cacheSize))) (fun v =>
      mbind (assign (CacheSize (Z.to_nat level)) v) (fun _ =>
      mbind (eval (getThreads sharedCpuList sharedCpuMap)) (fun w =>
      assign (CacheSharing (Z.to_nat level)) w)))
    else ret tt
  else ret tt).

Definition init : M unit :=
  mbind (set_cpuName getCpuName) (fun _ =>
  let cpusOnline := "/sys/devices/system/cpu/online"%string in
  mbind (eval (lift (parseThreadList cpusOnline))) (fun v =>
  mbind (assign CpuThreads v) (fun _ =>
  let threadSiblingsList :=
    "/sys/devices/system/cpu/cpu0/topology/thread_siblings_list"%string in
  let threadSiblings :=
    "/sys/devices/system/cpu/cpu0/topology/thread_siblings"%string in
  mbind (eval (getThreads threadSiblingsList threadSiblings)) (fun v =>
  mbind (assign ThreadsPerCore v) (fun _ =>
  mbind this (fun c =>
  mbind (if hasCpuThreads c && hasThreadsPerCore c
         then assign CpuCores (cpuThreads_ c / threadsPerCore_ c)
         else ret tt) (fun _ =>
  for_each [0; 1; 2; 3] cache_index))))))).

(** The constructor: the member initialisers, then [init()] inside
    [try], then the handler [catch (exception& e)], which stores
    [e.what()]. *)
Definition construct : state * outcome unit :=
  match init (zero, []) with
  | (st, Throw e) =>
      let c := fst st in
      ((mk (cpuName_ c) (cpuCores_ c) (cpuThreads_ c) (threadsPerCore_ c)
           (cacheSizes_ c) (cacheSharing_ c) (what e), snd st), Ok tt)
  | r => r
  end.

(** The object a declaration [const CpuInfo cpuInfo;] yields. *)
Definition new : outcome t :=
  match construct with
  | (st, Ok _) => Ok (fst st)
  | (_, Throw e) => Throw e
  | (_, Undefined w) => Undefined w
  | (_, OutOfFuel) => OutOfFuel
  end.

End Probe.

(** The value the journal gives a member: the last one assigned to it, and
    the zero of the member initialisers when there is none. *)
Fixpoint journal_value (log : list (member * Z)) (m : member) (acc : Z) : Z :=
  match log with
  | [] => acc
  | (m', v) :: rest => journal_value rest m (if member_eqb m' m then v else acc)
  end.

Definition assigned (log : list (member * Z)) (m : member) : bool :=
  existsb (fun e => member_eqb (fst e) m) log.

End CpuInfo.

(** ** soe/PrimeSieve.cpp: the sequential driver *)

(** What PrimeSieve.cpp uses and the sources do not define.
    - The flag constants of PrimeSieve.h; the code only tests
      [flags_ & (COUNT_PRIMES << type)], [flags_ & (PRINT_PRIMES << type)],
      [flags_ & CALLBACK_PRIMES] and [flags_ & PRINT_STATUS].
    - [settings::DEFAULT_SIEVESIZE_PRIMENUMBERFINDER] and the limit
      [resetSieve.getEliminateUpTo()] of the pre-sieve.
    - [percent segments range]: the value of
      [static_cast<int>(double(segments) / double(range) * 100.0)], a
      floating-point computation.
    - What the [PrimeNumberFinder] of an interval leaves behind apart from
      its prime counter: its k-tuplet counters, what it wrote to
      [std::cout], the values it passed to the callback and the segments it
      reported. *)
Class Headers : Type := {
  COUNT_PRIMES : Z;
  PRINT_PRIMES : Z;
  CALLBACK_PRIMES : Z;
  PRINT_STATUS : Z;
  DEFAULT_SIEVESIZE_PRIMENUMBERFINDER : Z;
  eliminateUpTo : Z;
  percent : Z -> Z -> Z;
  finder_tuplets : Z -> Z -> Z -> nat -> Z;
  finder_cout : Z -> Z -> Z -> Z -> list string;
  finder_called : Z -> Z -> Z -> list Z;
  finder_segments : Z -> Z -> Z -> Z
}.

Module PrimeSieve.

Import pmath.

(** Modelled from the spec: [COUNTS_SIZE] of PrimeSieve.h, which is not part
    of the sources: "a fixed-size vector of seven 64-bit counters, indexed
    0..6 for primes and k-tuplets of sizes 2..7". *)
Definition COUNTS_SIZE : nat := 7.

(** One [PrimeSieve] object whose [parent_] is the object itself, with the
    two traces of its effects: [cout], the pieces written to [std::cout] in
    order, and [called], the values the callback was invoked with.
    [callback] tells whether a function is registered (it is [NULL] after
    construction). [status_] holds [static_cast<int>] of the C++ field, the
    only way the code reads it; [timeElapsed_] is left out. *)
Record t : Type := mk {
  startNumber_ : Z;
  stopNumber_ : Z;
  sieveSize_ : Z;
  flags_ : Z;
  counts_ : list Z;
  segments_ : Z;
  status_ : Z;
  callback : bool;
  cout : list string;
  called : list Z
}.

Definition with_counts (ps : t) (cs : list Z) : t :=
  mk (startNumber_ ps) (stopNumber_ ps) (sieveSize_ ps) (flags_ ps) cs
     (segments_ ps) (status_ ps) (callback ps) (cout ps) (called ps).

Definition with_cout (ps : t) (out : list string) : t :=
  mk (startNumber_ ps) (stopNumber_ ps) (sieveSize_ ps) (flags_ ps) (counts_ ps)
     (segments_ ps) (status_ ps) (callback ps) out (called ps).

Definition with_called (ps : t) (vs : list Z) : t :=
  mk (startNumber_ ps) (stopNumber_ ps) (sieveSize_ ps) (flags_ ps) (counts_ ps)
     (segments_ ps) (status_ ps) (callback ps) (cout ps) vs.

Definition with_status (ps : t) (segments status : Z) : t :=
  mk (startNumber_ ps) (stopNumber_ ps) (sieveSize_ ps) (flags_ ps) (counts_ ps)
     segments status (callback ps) (cout ps) (called ps).

(** [flags & mask], read as a condition. *)
Definition test (flags mask : Z) : bool := negb (Z.land flags mask =? 0).

Definition endl : string := String "010" EmptyString.

(** [prime[0] - '0'], converted to the [uint64_t] parameter of the callback;
    the element at the end of a [std::string] is the null character. *)
Definition first_char_minus_zero (prime : string) : Z :=
  let c := match prime with
           | EmptyString => 0
           | String a _ => Z.of_N (N_of_ascii a)
           end in
  wrap64 (c - 48).

Section Driver.
Context {H : Headers}.

Definition getStartNumber (ps : t) : Z := startNumber_ ps.
Definition getStopNumber (ps : t) : Z := stopNumber_ ps.
Definition getSieveSize (ps : t) : Z := sieveSize_ ps / 1024.
Definition getFlags (ps : t) : Z := flags_ ps.

(** [getPrimeCount()] without arguments. *)
Definition getPrimeCount_void (ps : t) : Z := nth 0 (counts_ ps) 0.
Definition getTwinCount (ps : t) : Z := nth 1 (counts_ ps) 0.

Definition getCounts (ps : t) (type : nat) : outcome Z :=
  if (COUNTS_SIZE <=? type)%nat
  then Throw (out_of_range "getCounts(uint32_t) type out of range")
  else Ok (nth type (counts_ ps) 0).

(** The common bound of both setters, [UINT64_MAX - UINT32_MAX * 10]. *)
Definition range_limit : Z := UINT64_MAX - UINT32_MAX * 10.

Definition setStartNumber (ps : t) (startNumber : Z) : outcome t :=
  if range_limit <=? startNumber
  then Throw (invalid_argument "START must be < (2^64-1) - (2^32-1) * 10")
  else Ok (mk startNumber (stopNumber_ ps) (sieveSize_ ps) (flags_ ps) (counts_ ps)
              (segments_ ps) (status_ ps) (callback ps) (cout ps) (called ps)).

Definition setStopNumber (ps : t) (stopNumber : Z) : outcome t :=
  if range_limit <=? stopNumber
  then Throw (invalid_argument "STOP must be < (2^64-1) - (2^32-1) * 10")
  else Ok (mk (startNumber_ ps) stopNumber (sieveSize_ ps) (flags_ ps) (counts_ ps)
              (segments_ ps) (status_ ps) (callback ps) (cout ps) (called ps)).

Definition setSieveSize (ps : t) (sieveSize : Z) : outcome t :=
  if (sieveSize <? 1) || (8192 <? sieveSize)
  then Throw (invalid_argument "sieve size must be >= 1 and <= 8192 KiloBytes")
  else if negb (isPowerOf2 sieveSize)
  then Throw (invalid_argument "sieve size must be a power of 2")
  else Ok (mk (startNumber_ ps) (stopNumber_ ps) (wrap32 (sieveSize * 1024)) (flags_ ps)
              (counts_ ps) (segments_ ps) (status_ ps) (callback ps) (cout ps) (called ps)).

Definition setFlags (ps : t) (flags : Z) : t :=
  mk (startNumber_ ps) (stopNumber_ ps) (sieveSize_ ps) flags (counts_ ps)
     (segments_ ps) (status_ ps) (callback ps) (cout ps) (called ps).

Definition doStatus (ps : t) (segment : Z) : t :=
  let segments := wrap64 (segments_ ps + segment) in
  let old := status_ ps in
  let status := percent segments (wrap64 (1 + stopNumber_ ps - startNumber_ ps)) in
  let status := if 99 <? status then 100 else status in
  let ps := with_status ps segments status in
  if test (flags_ ps) PRINT_STATUS && (old <? status)
  then with_cout ps (cout ps ++ [String "013" (decimal status ++ "%")])
  else ps.

Definition reset (ps : t) : t :=
  let ps := with_status ps 0 (status_ ps) in
  let ps := with_counts ps (repeat 0 COUNTS_SIZE) in
  let ps := with_status ps (segments_ ps) (-1) in
  doStatus ps 0.

Definition doSmallPrime (ps : t) (low high : Z) (type : nat) (prime : string)
  : outcome t :=
  if (startNumber_ ps <=? low) && (high <=? stopNumber_ ps) then
    (ps <- (if test (flags_ ps) (Z.shiftl COUNT_PRIMES (Z.of_nat type))
            then match store (counts_ ps) type (wrap64 (nth type (counts_ ps) 0 + 1)) with
                 | Some cs => Ok (with_counts ps cs)
                 | None => Undefined "counts_[type] past the end"
                 end
            else Ok ps) ;;
     let ps := if test (flags_ ps) (Z.shiftl PRINT_PRIMES (Z.of_nat type))
               then with_cout ps (cout ps ++ [(prime ++ endl)%string])
               else ps in
     if test (flags_ ps) CALLBACK_PRIMES
     then if callback ps
          then Ok (with_called ps (called ps ++ [first_char_minus_zero prime]))
          else Undefined "call through a null callback"
     else Ok ps)%outcome
  else Ok ps.

(** The pre-list of [sieve()]: "small primes have to be examined manually". *)
Definition smallPrimes (ps : t) : outcome t :=
  (ps <- doSmallPrime ps 2 2 0 "2" ;;
   ps <- doSmallPrime ps 3 3 0 "3" ;;
   ps <- doSmallPrime ps 5 5 0 "5" ;;
   ps <- doSmallPrime ps 3 5 1 "(3, 5)" ;;
   ps <- doSmallPrime ps 5 7 1 "(5, 7)" ;;
   ps <- doSmallPrime ps 5 11 2 "(5, 7, 11)" ;;
   ps <- doSmallPrime ps 5 13 3 "(5, 7, 11, 13)" ;;
   doSmallPrime ps 5 17 4 "(5, 7, 11, 13, 17)")%outcome.

(** The guarded block [if (startNumber_ <= 5) { ... }] around the
    pre-list. *)
Definition sieve_small (ps : t) : outcome t :=
  if startNumber_ ps <=? 5 then smallPrimes ps else Ok ps.

(** *** The trial division that seeds the generator *)

(** The inner [for]: starting at index [i], whose elements onwards are
    [rest], advance while [primes16Bit[i] <= s && n % primes16Bit[i] != 0].
    The result is the final index with the element there, or [None] when
    the index passes the last element. *)
Fixpoint scan_from (rest : list Z) (n s : Z) (i : nat) : option (nat * Z) :=
  match rest with
  | [] => None
  | p :: rest' =>
      if (p <=? s) && negb (n mod p =? 0)
      then scan_from rest' n s (S i)
      else Some (i, p)
  end.

(** One round of the outer loop for the candidate [n]: the vector afterwards
    and whether [n] was found prime. *)
Definition trial_step (keep n : Z) (primes16Bit : list Z) : outcome (list Z * bool) :=
  let s := U32SQRT n in
  match scan_from primes16Bit n s 0 with
  | None => Undefined "primes16Bit[i] past the end"
  | Some (_, p) =>
      if s <? p
      then Ok (if p <=? keep then primes16Bit ++ [n] else primes16Bit, true)
      else Ok (primes16Bit, false)
  end.

(** [for (uint32_t n = 5; n <= stop; n += 2)], from the current [n];
    [sieved] collects the arguments of [primeNumberGenerator.sieve(n)]. *)
Fixpoint trial_loop (fuel : nat) (stop keep n : Z) (primes16Bit sieved : list Z)
  : outcome (list Z * list Z) :=
  match fuel with
  | O => OutOfFuel
  | S fuel' =>
      if n <=? stop then
        match trial_step keep n primes16Bit with
        | Ok (primes16Bit', found) =>
            let sieved' := if found && (eliminateUpTo <? n)
                           then sieved ++ [n] else sieved in
            trial_loop fuel' stop keep (wrap32 (n + 2)) primes16Bit' sieved'
        | Throw e => Throw e
        | Undefined w => Undefined w
        | OutOfFuel => OutOfFuel
        end
      else Ok (primes16Bit, sieved)
  end.

(** The block from [primes16Bit.push_back(3)] to the end of the loop;
    [generatorStop] is [primeNumberGenerator.getStopNumber()]. *)
Definition trial_division (generatorStop : Z) : outcome (list Z * list Z) :=
  let stop := U32SQRT generatorStop in
  let keep := U32SQRT stop in
  trial_loop (S (Z.to_nat stop)) stop keep 5 [3] [].

(** *** The classes [sieve()] delegates to *)

(** Modelled from the spec: [PrimeNumberGenerator::getStopNumber], which is
    not part of the sources. The generator "produces, in ascending order,
    every prime p with p <= sqrt(stop)", so its stop number is the square
    root of the stop number of the finder it feeds. *)
Definition PrimeNumberGenerator_getStopNumber (finderStop : Z) : Z :=
  U32SQRT finderStop.

(** Modelled from the spec: [PrimeNumberFinder::getCounts] after
    [finish()], for a finder built on [[startNumber, stopNumber]]; the
    class is not part of the sources. Counter 0, when primes are to be
    counted, is the number of primes in the interval ("only integers >=
    max(low, start) and <= min(low+30*S-1, stop) remain set"; "exact counts
    ... of all primes in range"); the other counters are those of the
    k-tuplet scanner. *)
Definition PrimeNumberFinder_getCounts (startNumber stopNumber flags : Z) (i : nat) : Z :=
  match i with
  | O => if test flags COUNT_PRIMES then countPrimes startNumber stopNumber else 0
  | _ => finder_tuplets startNumber stopNumber flags i
  end.

(** [counts_[i] += primeNumberFinder.getCounts(i)] for the indices from [i]
    on, [cs] being the counters from there. *)
Fixpoint add_counts (getCounts : nat -> Z) (i : nat) (cs : list Z) : list Z :=
  match cs with
  | [] => []
  | c :: cs' => wrap64 (c + getCounts i) :: add_counts getCounts (S i) cs'
  end.

(** The effects of the finder on the driver, once it has finished. *)
Definition finder_finish (ps : t) (lo : Z) : t :=
  let hi := stopNumber_ ps in
  let ps := with_cout ps (cout ps ++ finder_cout lo hi (sieveSize_ ps) (flags_ ps)) in
  let ps := with_called ps (called ps ++ finder_called lo hi (flags_ ps)) in
  let ps := doStatus ps (finder_segments lo hi (sieveSize_ ps)) in
  with_counts ps (add_counts (PrimeNumberFinder_getCounts lo hi (flags_ ps)) 0 (counts_ ps)).

Definition sieve (ps : t) : outcome t :=
  if stopNumber_ ps <? startNumber_ ps
  then Throw (invalid_argument "STOP must be >= START")
  else
    (let ps := reset ps in
     ps <- sieve_small ps ;;
     ps <- (if 7 <=? stopNumber_ ps then
              let lo := if 7 <? startNumber_ ps then startNumber_ ps else 7 in
              _ <- (if eliminateUpTo <? U32SQRT (stopNumber_ ps)
                    then trial_division
                           (PrimeNumberGenerator_getStopNumber (stopNumber_ ps))
                    else Ok ([], [])) ;;
              Ok (finder_finish ps lo)
            else Ok ps) ;;
     Ok (doStatus ps 10))%outcome.

(** The constructor. *)
Definition new : t :=
  reset (mk 0 0 DEFAULT_SIEVESIZE_PRIMENUMBERFINDER COUNT_PRIMES [] 0 0 false [] []).

(** [generatePrimes]; [callback_given] is false for a [NULL] callback. *)
Definition generatePrimes (ps : t) (startNumber stopNumber : Z) (callback_given : bool)
  : outcome t :=
  if negb callback_given
  then Throw (invalid_argument "callback must not be NULL")
  else
    (ps <- setStartNumber ps startNumber ;;
     ps <- setStopNumber ps stopNumber ;;
     let ps := setFlags ps CALLBACK_PRIMES in
     let ps := mk (startNumber_ ps) (stopNumber_ ps) (sieveSize_ ps) (flags_ ps)
                  (counts_ ps) (segments_ ps) (status_ ps) callback_given
                  (cout ps) (called ps) in
     sieve ps)%outcome.

(** [getPrimeCount(startNumber, stopNumber)]: the count and the object
    after the call. *)
Definition getPrimeCount (ps : t) (startNumber stopNumber : Z) : outcome (Z * t) :=
  (ps <- setStartNumber ps startNumber ;;
   ps <- setStopNumber ps stopNumber ;;
   let ps := setFlags ps COUNT_PRIMES in
   ps <- sieve ps ;;
   Ok (getPrimeCount_void ps, ps))%outcome.

End Driver.

(** The rows of the pre-list: least element, greatest element, counter
    index, printed text. *)
Definition prelist : list (Z * Z * nat * string) :=
  [ (2, 2, 0%nat, "2"%string);
    (3, 3, 0%nat, "3"%string);
    (5, 5, 0%nat, "5"%string);
    (3, 5, 1%nat, "(3, 5)"%string);
    (5, 7, 1%nat, "(5, 7)"%string);
    (5, 11, 2%nat, "(5, 7, 11)"%string);
    (5, 13, 3%nat, "(5, 7, 11, 13)"%string);
    (5, 17, 4%nat, "(5, 7, 11, 13, 17)"%string) ].

Definition row_low (e : Z * Z * nat * string) : Z := fst (fst (fst e)).
Definition row_high (e : Z * Z * nat * string) : Z := snd (fst (fst e)).
Definition row_type (e : Z * Z * nat * string) : nat := snd (fst e).
Definition row_text (e : Z * Z * nat * string) : string := snd e.

(** The row lies in the interval of [ps]. *)
Definition in_range (ps : t) (e : Z * Z * nat * string) : bool :=
  (startNumber_ ps <=? row_low e) && (row_high e <=? stopNumber_ ps).

(** [doSmallPrime] on each row of a list in turn. *)
Fixpoint doSmallPrimes {H : Headers} (rows : list (Z * Z * nat * string)) (ps : t)
  : outcome t :=
  match rows with
  | [] => Ok ps
  | e :: rest =>
      match doSmallPrime ps (row_low e) (row_high e) (row_type e) (row_text e) with
      | Ok ps' => doSmallPrimes rest ps'
      | r => r
      end
  end.

(** The callback can be called whenever the flags ask for it. *)
Definition callable {H : Headers} (ps : t) : Prop :=
  test (flags_ ps) CALLBACK_PRIMES = true -> callback ps = true.

(** The first [count] rounds of the trial division from the candidate [n],
    whatever the stop number: the next candidate and the vector, or [None]
    when a round reads past the end of the vector. *)
Fixpoint trial_steps (count : nat) (keep n : Z) (primes16Bit : list Z)
  : option (Z * list Z) :=
  match count with
  | O => Some (n, primes16Bit)
  | S count' =>
      match trial_step keep n primes16Bit with
      | Ok (primes16Bit', _) => trial_steps count' keep (n + 2) primes16Bit'
      | _ => None
      end
  end.

(** The vector holds an element above [keep]. *)
Definition has_above (keep : Z) (primes16Bit : list Z) : bool :=
  existsb (fun p => keep <? p) primes16Bit.

(** For [keep = k], the rounds for the candidates up to [k * k] (at most
    128 of them) stay inside the vector and leave an element above [k]
    in it. *)
Definition seeded (k : Z) : bool :=
  match trial_steps (Z.to_nat (Z.min 128 ((k * k - 3) / 2))) k 5 [3] with
  | Some (_, primes16Bit) => has_above k primes16Bit
  | None => false
  end.

End PrimeSieve.

(** What a row adds to [std::cout], to the values passed to the callback,
    and to counter [j], in the interval and under the flags of [ps]. *)
Definition printed {H : Headers} (ps : PrimeSieve.t) (e : Z * Z * nat * string) : list string :=
  if PrimeSieve.in_range ps e &&
     PrimeSieve.test (PrimeSieve.flags_ ps)
       (Z.shiftl PRINT_PRIMES (Z.of_nat (PrimeSieve.row_type e)))
  then [(PrimeSieve.row_text e ++ PrimeSieve.endl)%string] else [].

Definition passed {H : Headers} (ps : PrimeSieve.t) (e : Z * Z * nat * string) : list Z :=
  if PrimeSieve.in_range ps e && PrimeSieve.test (PrimeSieve.flags_ ps) CALLBACK_PRIMES
  then [PrimeSieve.first_char_minus_zero (PrimeSieve.row_text e)] else [].

Definition counted {H : Headers} (ps : PrimeSieve.t) (j : nat) (e : Z * Z * nat * string) : bool :=
  PrimeSieve.in_range ps e &&
  PrimeSieve.test (PrimeSieve.flags_ ps)
    (Z.shiftl COUNT_PRIMES (Z.of_nat (PrimeSieve.row_type e))) &&
  (j =? PrimeSieve.row_type e)%nat.

(** Two objects with the same interval, flags and callback. *)
Definition same_settings (ps ps' : PrimeSieve.t) : Prop :=
  PrimeSieve.startNumber_ ps' = PrimeSieve.startNumber_ ps /\
  PrimeSieve.stopNumber_ ps' = PrimeSieve.stopNumber_ ps /\
  PrimeSieve.sieveSize_ ps' = PrimeSieve.sieveSize_ ps /\
  PrimeSieve.flags_ ps' = PrimeSieve.flags_ ps /\
  PrimeSieve.callback ps' = PrimeSieve.callback ps.

(** ** api.cpp: process-wide settings *)

(** What api.cpp calls and the sources do not define: the two [CpuInfo]
    members [privateL2Cache] and [l2Threads], [EratBig::fitsIntoCache] and
    [ParallelSieve::getMaxThreads]. They are parameters of the model, so
    every statement below holds for each way of filling them in. *)
Class Platform : Type := {
  privateL2Cache : CpuInfo.t -> bool;
  l2Threads : CpuInfo.t -> Z;
  fitsIntoCache : Z -> Z -> bool;
  getMaxThreads : Z
}.

Module api.

Import pmath.

(** The two variables of the anonymous namespace. *)
Record globals : Type := mkGlobals {
  sieve_size : Z;
  num_threads : Z
}.

Definition initial : globals := {| sieve_size := 0; num_threads := 0 |}.

Section Api.
Context {P : Platform}.

Definition get_num_threads (g : globals) : Z :=
  if negb (num_threads g =? 0) then num_threads g else getMaxThreads.

Definition set_num_threads (g : globals) (threads : Z) : globals :=
  {| sieve_size := sieve_size g;
     num_threads := inBetween 1 threads getMaxThreads |}.

Definition get_max_stop : Z := UINT64_MAX.

Definition set_sieve_size (g : globals) (kilobytes : Z) : globals :=
  let sieve_size1 := inBetween 8 kilobytes 4096 in
  {| sieve_size := floorPow2 sieve_size1; num_threads := num_threads g |}.

(** [get_sieve_size(uint64_t stop)]; [cpu] is the singleton [cpuInfo]. *)
Definition get_sieve_size (g : globals) (cpu : CpuInfo.t) (stop : Z) : Z :=
  if negb (sieve_size g =? 0) then sieve_size g
  else
    let l1CacheSize := CpuInfo.l1CacheSize cpu / 1024 in
    let l2CacheSize := CpuInfo.l2CacheSize cpu / 1024 in
    if CpuInfo.hasL2Cache cpu && privateL2Cache cpu && (l1CacheSize <? l2CacheSize)
    then
      let size := l2CacheSize in
      let size := size / inBetween 1 (l2Threads cpu) 4 in
      let size := inBetween 32 size 4096 in
      let size := floorPow2 size in
      if fitsIntoCache stop (size * 1024) then size
      else
        let size := l2CacheSize in
        let size := inBetween 32 size 4096 in
        let size := floorPow2 size in
        size
    else
      let l1CacheSize := if negb (CpuInfo.hasL1Cache cpu) then 32 else l1CacheSize in
      let size := l1CacheSize in
      let size := inBetween 8 size 4096 in
      let size := floorPow2 size in
      size.

(** The overload [get_sieve_size()] without argument. *)
Definition get_sieve_size_void (g : globals) (cpu : CpuInfo.t) : Z :=
  let stop := 0 in
  get_sieve_size g cpu stop.

(** The states of the two globals that calls of the setters can produce. *)
Inductive reachable : globals -> Prop :=
| reach_initial : reachable initial
| reach_set_sieve_size g kilobytes :
    reachable g -> reachable (set_sieve_size g kilobytes)
| reach_set_num_threads g threads :
    reachable g -> reachable (set_num_threads g threads).

End Api.

End api.

(** The clamp of [x] to [[lo, hi]] and the powers of two, as the
    specification uses the words. *)
Definition clamp (lo hi x : Z) : Z := Z.max lo (Z.min x hi).

Definition is_pow2 (r : Z) : Prop := exists k, 0 <= k /\ r = 2 ^ k.

(** [r] is the largest power of two that does not exceed [c]. *)
Definition largest_pow2_below (c r : Z) : Prop :=
  is_pow2 r /\ r <= c /\ c < 2 * r.

(** ** Sample parameters

    One way of filling in the parameters, for the examples: flag bits in
    the order the comment of [setFlags] lists them, a pre-sieve up to 13,
    an exact percentage, a finder that writes and calls nothing, a
    two-thread machine, and a library whose [stoul] reads an unsigned
    number in the given base from the front of its argument. *)

Definition sample_headers : Headers :=
  {| COUNT_PRIMES := 1;
     PRINT_PRIMES := 128;
     CALLBACK_PRIMES := 32768;
     PRINT_STATUS := 16384;
     DEFAULT_SIEVESIZE_PRIMENUMBERFINDER := 65536;
     eliminateUpTo := 13;
     percent := fun segments range => segments * 100 / range;
     finder_tuplets := fun _ _ _ _ => 0;
     finder_cout := fun _ _ _ _ => [];
     finder_called := fun _ _ _ => [];
     finder_segments := fun lo hi _ => hi - lo + 1 |}.

Definition sample_platform : Platform :=
  {| privateL2Cache := CpuInfo.hasPrivateL2Cache;
     l2Threads := CpuInfo.l2Sharing;
     fitsIntoCache := fun _ _ => true;
     getMaxThreads := 2 |}.

Definition digit_value (c : ascii) : option Z :=
  let n := Z.of_nat (nat_of_ascii c) in
  if (48 <=? n) && (n <=? 57) then Some (n - 48)
  else if (97 <=? n) && (n <=? 102) then Some (n - 87)
  else if (65 <=? n) && (n <=? 70) then Some (n - 55)
  else None.

Fixpoint read_digits (str : string) (base acc : Z) (any : bool) : option Z :=
  match str with
  | EmptyString => if any then Some acc else None
  | String c rest =>
      match digit_value c with
      | Some d =>
          if d <? base then read_digits rest base (acc * base + d) true
          else if any then Some acc else None
      | None => if any then Some acc else None
      end
  end.

Definition sample_stoul (str : string) (base : Z) : exception + Z :=
  match read_digits str base 0 false with
  | None => inl (invalid_argument "stoul")
  | Some v => if UINT64_MAX <? v then inl (out_of_range "stoul") else inr v
  end.

(** A file system given by a list of paths with their contents. *)
Fixpoint lookup_file (files : list (string * string)) (path : string) : option string :=
  match files with
  | [] => None
  | (p, content) :: rest => if String.eqb p path then Some content else lookup_file rest path
  end.

Definition sample_system (files : list (string * string)) : System :=
  {| readFile := lookup_file files;
     stoul := sample_stoul;
     at_what := fun _ _ => "vector::_M_range_check"%string |}.

(** A machine with two threads on one core, 32K of L1 data cache and 256K of
    private L2 cache. *)
Definition sample_files : list (string * string) :=
  [ ("/proc/cpuinfo", "processor : 0
model name : Sample CPU @ 2.00GHz
");
    ("/sys/devices/system/cpu/online", "0-1
");
    ("/sys/devices/system/cpu/cpu0/topology/thread_siblings_list", "0-1
");
    ("/sys/devices/system/cpu/cpu0/cache/index0/level", "1
");
    ("/sys/devices/system/cpu/cpu0/cache/index0/type", "Data
");
    ("/sys/devices/system/cpu/cpu0/cache/index0/size", "32K
");
    ("/sys/devices/system/cpu/cpu0/cache/index0/shared_cpu_list", "0-1
");
    ("/sys/devices/system/cpu/cpu0/cache/index1/level", "1
");
    ("/sys/devices/system/cpu/cpu0/cache/index1/type", "Instruction
");
    ("/sys/devices/system/cpu/cpu0/cache/index2/level", "2
");
    ("/sys/devices/system/cpu/cpu0/cache/index2/type", "Unified
");
    ("/sys/devices/system/cpu/cpu0/cache/index2/size", "256K
");
    ("/sys/devices/system/cpu/cpu0/cache/index2/shared_cpu_list", "0-1
") ]%string.

(** The same machine when the list of online CPUs is damaged. *)
Definition damaged_files : list (string * string) :=
  ("/sys/devices/system/cpu/online", "0-x")%string :: sample_files.

(** The same machine when the size of the L2 cache cannot be read as a
    number. *)
Definition damaged_l2_files : list (string * string) :=
  ("/sys/devices/system/cpu/cpu0/cache/index2/size", "unknown")%string :: sample_files.

(** ** Notions used in the statements

    Predicates on outcomes and the invariant of the constructor of
    [CpuInfo]. *)

(** A call does not throw. *)
Definition no_throw {A : Type} (m : outcome A) : Prop := forall e, m <> Throw e.

(** A call returns or throws: it is neither undefined nor out of fuel. *)
Definition returns_or_throws {A : Type} (r : outcome A) : Prop :=
  match r with
  | Ok _ => True
  | Throw _ => True
  | Undefined _ => False
  | OutOfFuel => False
  end.

(** What holds of the object and the journal throughout the constructor:
    both arrays keep their four entries, no message is stored, and each
    numeric member holds what the journal says. *)
Definition consistent (st : CpuInfo.state) : Prop :=
  length (CpuInfo.cacheSizes_ (fst st)) = 4%nat /\
  length (CpuInfo.cacheSharing_ (fst st)) = 4%nat /\
  CpuInfo.error_ (fst st) = EmptyString /\
  forall m, CpuInfo.read (fst st) m = CpuInfo.journal_value (snd st) m 0.

(** A step keeps the state consistent and returns or throws. *)
Definition steady {A : Type} (m : CpuInfo.M A) : Prop :=
  forall st, consistent st -> consistent (fst (m st)) /\ returns_or_throws (snd (m st)).

(** An assignment to a count, or to an entry of an array at an index below
    four. *)
Definition in_bounds (m : CpuInfo.member) : Prop :=
  match m with
  | CpuInfo.CacheSize level => (level < 4)%nat
  | CpuInfo.CacheSharing level => (level < 4)%nat
  | _ => True
  end.

(** What holds of [primes16Bit] when the trial division reaches the odd
    candidate [n]: its elements are odd primes below [n] in ascending
    order, and every odd prime below [n] that is at most [keep] is among
    them. *)
Definition trial_invariant (keep n : Z) (primes16Bit : list Z) : Prop :=
  5 <= n /\ n mod 2 = 1 /\
  Forall (fun e => prime e /\ 3 <= e < n) primes16Bit /\
  StronglySorted Z.lt primes16Bit /\
  forall q, prime q -> 3 <= q < n -> q <= keep -> In q primes16Bit.

(** ** Notions for the helpers of the probe *)

(** Every character of the string is a space character. *)
Definition all_space (str : string) : bool :=
  forallb CpuInfo.isspace (list_ascii_of_string str).

(** The first character of a string, if it has one. *)
Definition front (str : string) : option ascii :=
  match str with
  | EmptyString => None
  | String c _ => Some c
  end.

(** The character is no space character, when there is one. *)
Definition not_space (c : option ascii) : Prop :=
  match c with
  | Some a => CpuInfo.isspace a = false
  | None => True
  end.

(** ** CpuInfo.cpp of an earlier revision: [trimString] with guards *)

Module CpuInfo_guarded.

(** [str.find_first_not_of(" \f\n\r\t\v")], with [None] for [npos]. *)
Fixpoint find_first_not_of_space (str : string) : option nat :=
  match str with
  | EmptyString => None
  | String c rest =>
      if CpuInfo.isspace c
      then match find_first_not_of_space rest with
           | Some pos => Some (S pos)
           | None => None
           end
      else Some O
  end.

(** [str.erase(0, pos)]. *)
Fixpoint erase_front (str : string) (pos : nat) : string :=
  match pos, str with
  | O, _ => str
  | S pos', String _ rest => erase_front rest pos'
  | S _, EmptyString => EmptyString
  end.

Definition trimString (str : string) : string :=
  let pos := find_first_not_of_space str in
  let str := match pos with Some p => erase_front str p | None => str end in
  let str := CpuInfo.reverse str in
  let pos := find_first_not_of_space str in
  let str := match pos with Some p => erase_front str p | None => str end in
  CpuInfo.reverse str.

End CpuInfo_guarded.

(** The number of bits set in a mask. *)
Fixpoint popcount_pos (p : positive) : Z :=
  match p with
  | xH => 1
  | xO q => popcount_pos q
  | xI q => 1 + popcount_pos q
  end.

Definition popcount (mask : Z) : Z :=
  match mask with
  | Zpos p => popcount_pos p
  | _ => 0
  end.

(** The factor that the last character of a size selects. *)
Definition unit_of (str : string) : Z :=
  if CpuInfo.back_is str "K" then Z.shiftl 1 10
  else if CpuInfo.back_is str "M" then Z.shiftl 1 20
  else if CpuInfo.back_is str "G" then Z.shiftl 1 30
  else 1.

(** A library whose [stoul] throws whatever it is given. *)
Definition failing_system (files : list (string * string)) : System :=
  {| readFile := lookup_file files;
     stoul := fun _ _ => inl (invalid_argument "stoul");
     at_what := fun _ _ => "vector::_M_range_check"%string |}.

(** A step of the probe started where [P] holds of the object ends where
    [Q] holds of it when it returns, and where [R] holds of it when it
    does not. *)
Definition triple {A : Type} (P : CpuInfo.t -> Prop) (m : CpuInfo.M A)
    (Q : A -> CpuInfo.t -> Prop) (R : CpuInfo.t -> Prop) : Prop :=
  forall st, P (fst st) ->
    match snd (m st) with
    | Ok a => Q a (fst (fst (m st)))
    | _ => R (fst (fst (m st)))
    end.

(** The number of cores is zero, or the quotient of two valid counts. *)
Definition cores_derived (c : CpuInfo.t) : Prop :=
  CpuInfo.cpuCores_ c = 0 \/
  (CpuInfo.hasCpuThreads c = true /\ CpuInfo.hasThreadsPerCore c = true /\
   CpuInfo.cpuCores_ c = CpuInfo.cpuThreads_ c / CpuInfo.threadsPerCore_ c).

(** The entries of both arrays for level 0 are zero. *)
Definition level0_unused (c : CpuInfo.t) : Prop :=
  nth 0 (CpuInfo.cacheSizes_ c) 0 = 0 /\ nth 0 (CpuInfo.cacheSharing_ c) 0 = 0.

(** ** CpuInfo.cpp: the probe of macOS *)

(** The vectors that the five calls of [getSysctl] in [init()] return, each
    of them empty when [sysctlbyname] fails: the characters of
    machdep.cpu.brand_string, and the [size_t] values of hw.physicalcpu,
    hw.logicalcpu, hw.cachesize and hw.cacheconfig. *)
Class Sysctl : Type := {
  brand_string : list ascii;
  physicalcpu : list Z;
  logicalcpu : list Z;
  cachesize : list Z;
  cacheconfig : list Z
}.

Module CpuInfo_macos.

(** [cpuName_ = cpuName.data()]: the characters before the first null
    character; [None] when the vector holds none, and the assignment reads
    past its end. *)
Fixpoint c_string (v : list ascii) : option string :=
  match v with
  | [] => None
  | a :: rest =>
      if Ascii.eqb a zero then Some EmptyString
      else match c_string rest with
           | Some s => Some (String a s)
           | None => None
           end
  end.

(** [for (; i < bound; i++) dst[i] = src[i];], with [count] rounds left. *)
Fixpoint copy_from (count i : nat) (src dst : list Z) : outcome (list Z) :=
  match count with
  | O => Ok dst
  | S count' =>
      match nth_error src i with
      | None => Undefined "index past the end of the vector"
      | Some v =>
          match store dst i v with
          | None => Undefined "index past the end of the array"
          | Some dst' => copy_from count' (S i) src dst'
          end
      end
  end.

(** [for (size_t i = 1; i < min(src.size(), dst.size()); i++)
    dst[i] = src[i];] *)
Definition copy_levels (src dst : list Z) : outcome (list Z) :=
  copy_from (Nat.min (length src) (length dst) - 1) 1 src dst.

Section Probe.
Context {Ctl : Sysctl}.

Definition init (c : CpuInfo.t) : outcome CpuInfo.t :=
  (let cpuName := brand_string in
   c <- match cpuName with
        | [] => Ok c
        | _ =>
            match c_string cpuName with
            | Some name =>
                Ok (CpuInfo.mk name (CpuInfo.cpuCores_ c) (CpuInfo.cpuThreads_ c)
                      (CpuInfo.threadsPerCore_ c) (CpuInfo.cacheSizes_ c)
                      (CpuInfo.cacheSharing_ c) (CpuInfo.error_ c))
            | None => Undefined "no null character in the vector"
            end
        end ;;
   let cpuCores := physicalcpu in
   let c := match cpuCores with
            | [] => c
            | v :: _ =>
                CpuInfo.mk (CpuInfo.cpuName_ c) v (CpuInfo.cpuThreads_ c)
                  (CpuInfo.threadsPerCore_ c) (CpuInfo.cacheSizes_ c)
                  (CpuInfo.cacheSharing_ c) (CpuInfo.error_ c)
            end in
   let cpuThreads := logicalcpu in
   let c := match cpuThreads with
            | [] => c
            | v :: _ =>
                CpuInfo.mk (CpuInfo.cpuName_ c) (CpuInfo.cpuCores_ c) v
                  (CpuInfo.threadsPerCore_ c) (CpuInfo.cacheSizes_ c)
                  (CpuInfo.cacheSharing_ c) (CpuInfo.error_ c)
            end in
   let c := if CpuInfo.hasCpuCores c && CpuInfo.hasCpuThreads c
            then CpuInfo.mk (CpuInfo.cpuName_ c) (CpuInfo.cpuCores_ c) (CpuInfo.cpuThreads_ c)
                   (CpuInfo.cpuThreads_ c / CpuInfo.cpuCores_ c) (CpuInfo.cacheSizes_ c)
                   (CpuInfo.cacheSharing_ c) (CpuInfo.error_ c)
            else c in
   let cacheSizes := cachesize in
   sizes <- copy_levels cacheSizes (CpuInfo.cacheSizes_ c) ;;
   let cacheConfig := cacheconfig in
   sharing <- copy_levels cacheConfig (CpuInfo.cacheSharing_ c) ;;
   Ok (CpuInfo.mk (CpuInfo.cpuName_ c) (CpuInfo.cpuCores_ c) (CpuInfo.cpuThreads_ c)
         (CpuInfo.threadsPerCore_ c) sizes sharing (CpuInfo.error_ c)))%outcome.

End Probe.

End CpuInfo_macos.

(** A Mac with four cores and eight threads, whose hw.cachesize begins
    with the size of the memory. *)
Definition sample_sysctl : Sysctl :=
  {| brand_string := ["S"; "a"; "m"; "p"; "l"; "e"; zero]%char;
     physicalcpu := [4];
     logicalcpu := [8];
     cachesize := [17179869184; 32768; 262144; 6291456; 0; 0; 0; 0; 0; 0];
     cacheconfig := [8; 2; 2; 8; 0; 0; 0; 0; 0; 0] |}.

(** ** CpuInfo.cpp: the probe of Windows *)

Module CpuInfo_windows.

Inductive relationship : Type :=
| RelationProcessorCore
| RelationCache
| RelationOther.

Inductive cache_type : Type :=
| CacheUnified
| CacheInstruction
| CacheData
| CacheTrace.

(** One SYSTEM_LOGICAL_PROCESSOR_INFORMATION_EX, with the members that
    [init()] reads: those of [Cache] are read only in a record of a cache,
    those of [Processor] only in a record of a core. [Processor_GroupMask]
    holds [Processor.GroupMask[j].Mask] for [j < Processor.GroupCount]. *)
Record info : Type := mk_info {
  Relationship : relationship;
  Size : Z;
  Cache_Level : Z;
  Cache_Type : cache_type;
  Cache_CacheSize : Z;
  Cache_GroupMask_Group : Z;
  Cache_GroupMask_Mask : Z;
  Processor_GroupMask : list Z
}.

End CpuInfo_windows.

(** What the probe of Windows gets from the system: whether the CPU is an
    x86 and the name that [getCpuName()] reads with CPUID; whether
    kernel32 exports GetLogicalProcessorInformationEx; the length in bytes
    that its first call reports; whether its second call succeeds; and the
    record that lies at an offset of the buffer it fills. *)
Class Kernel32 : Type := {
  IS_X86 : bool;
  cpuid_name : string;
  glpiex : bool;
  glpiex_bytes : Z;
  glpiex_filled : bool;
  record_at : Z -> CpuInfo_windows.info
}.

Module CpuInfo_windows_probe.

Import CpuInfo_windows.

(** [for (; mask > 0; mask &= mask - 1) count++;] *)
Definition count_bits (mask count : Z) : outcome Z :=
  match CpuInfo.clear_bits (Z.to_nat mask) mask count with
  | Some count' => Ok count'
  | None => OutOfFuel
  end.

(** The loop over [Processor.GroupMask], from the current mask on. *)
Fixpoint count_masks (masks : list Z) (threadsPerCore : Z) : outcome Z :=
  match masks with
  | [] => Ok threadsPerCore
  | mask :: rest =>
      match count_bits mask threadsPerCore with
      | Ok threadsPerCore' => count_masks rest threadsPerCore'
      | r => r
      end
  end.

Definition is_cache (r : info) : bool :=
  match Relationship r with RelationCache => true | _ => false end.

Definition is_core (r : info) : bool :=
  match Relationship r with RelationProcessorCore => true | _ => false end.

Definition data_or_unified (r : info) : bool :=
  match Cache_Type r with CacheData | CacheUnified => true | _ => false end.

(** The body of the loop over the records. *)
Definition visit (r : info) (c : CpuInfo.t) : outcome CpuInfo.t :=
  (c <- (if is_cache r && (Cache_GroupMask_Group r =? 0) &&
            (1 <=? Cache_Level r) && (Cache_Level r <=? 3) && data_or_unified r
         then
           let level := Z.to_nat (Cache_Level r) in
           match store (CpuInfo.cacheSizes_ c) level (Cache_CacheSize r) with
           | None => Undefined "cacheSizes_[level] past the end"
           | Some sizes =>
               let mask := Cache_GroupMask_Mask r in
               match store (CpuInfo.cacheSharing_ c) level 0 with
               | None => Undefined "cacheSharing_[level] past the end"
               | Some sharing =>
                   count <- count_bits mask 0 ;;
                   match store sharing level count with
                   | None => Undefined "cacheSharing_[level] past the end"
                   | Some sharing =>
                       Ok (CpuInfo.mk (CpuInfo.cpuName_ c) (CpuInfo.cpuCores_ c)
                             (CpuInfo.cpuThreads_ c) (CpuInfo.threadsPerCore_ c)
                             sizes sharing (CpuInfo.error_ c))
                   end
               end
           end
         else Ok c) ;;
   if is_core r then
     let cpuCores := wrap64 (CpuInfo.cpuCores_ c + 1) in
     threadsPerCore <- count_masks (Processor_GroupMask r) 0 ;;
     Ok (CpuInfo.mk (CpuInfo.cpuName_ c) cpuCores
           (wrap64 (CpuInfo.cpuThreads_ c + threadsPerCore)) threadsPerCore
           (CpuInfo.cacheSizes_ c) (CpuInfo.cacheSharing_ c) (CpuInfo.error_ c))
   else Ok c)%outcome.

Section Probe.
Context {K : Kernel32}.

(** [for (size_t i = 0; i < bytes; i += info->Size)], from offset [i]. *)
Fixpoint walk (fuel : nat) (i : Z) (c : CpuInfo.t) : outcome CpuInfo.t :=
  if i <? glpiex_bytes then
    match fuel with
    | O => OutOfFuel
    | S fuel' =>
        let r := record_at i in
        match visit r c with
        | Ok c' => walk fuel' (wrap64 (i + Size r)) c'
        | r => r
        end
    end
  else Ok c.

Definition init (c : CpuInfo.t) : outcome CpuInfo.t :=
  let c := if IS_X86
           then CpuInfo.mk cpuid_name (CpuInfo.cpuCores_ c) (CpuInfo.cpuThreads_ c)
                  (CpuInfo.threadsPerCore_ c) (CpuInfo.cacheSizes_ c)
                  (CpuInfo.cacheSharing_ c) (CpuInfo.error_ c)
           else c in
  if negb glpiex then Ok c
  else
    let bytes := glpiex_bytes in
    if bytes =? 0 then Ok c
    else if negb glpiex_filled then Ok c
    else walk (Z.to_nat bytes) 0 c.

(** The records that the loop visits from offset [i]. *)
Fixpoint records (fuel : nat) (i : Z) : list info :=
  match fuel with
  | O => []
  | S fuel' =>
      if i <? glpiex_bytes
      then record_at i :: records fuel' (wrap64 (i + Size (record_at i)))
      else []
  end.

End Probe.

(** The bits set in the masks of a core. *)
Definition core_threads (r : info) : Z :=
  fold_right Z.add 0 (map popcount (Processor_GroupMask r)).

End CpuInfo_windows_probe.

(** The masks of a record are those of unsigned integers, and its size is
    a positive [DWORD]. *)
Definition well_formed (r : CpuInfo_windows.info) : Prop :=
  0 < CpuInfo_windows.Size r < 2 ^ 32 /\
  0 <= CpuInfo_windows.Cache_GroupMask_Mask r /\
  Forall (fun mask => 0 <= mask) (CpuInfo_windows.Processor_GroupMask r).

(** A buffer of three records of 48 bytes: a core with two threads, its L1
    data cache, and a second core with two threads. *)
Definition sample_kernel32 : Kernel32 :=
  {| IS_X86 := true;
     cpuid_name := "Sample CPU";
     glpiex := true;
     glpiex_bytes := 144;
     glpiex_filled := true;
     record_at := fun i =>
       if i =? 48
       then CpuInfo_windows.mk_info CpuInfo_windows.RelationCache 48 1
              CpuInfo_windows.CacheData 32768 0 3 []
       else CpuInfo_windows.mk_info CpuInfo_windows.RelationProcessorCore 48 0
              CpuInfo_windows.CacheUnified 0 0 0 [if i =? 0 then 3 else 12] |}.

(** A machine like the sample one on which no list of [EratBig] fits into
    the cache. *)
Definition tight_platform : Platform :=
  {| privateL2Cache := CpuInfo.hasPrivateL2Cache;
     l2Threads := CpuInfo.l2Sharing;
     fitsIntoCache := fun _ _ => false;
     getMaxThreads := 2 |}.

(** * Properties *)

(** ** The helpers of pmath *)

Lemma inBetween_clamp (lo x hi : Z) :
  lo <= hi -> pmath.inBetween lo x hi = clamp lo hi x.
Proof.
  intros Hle. unfold pmath.inBetween, clamp.
  destruct (x <? lo) eqn:E1; [apply Z.ltb_lt in E1 | apply Z.ltb_ge in E1];
    destruct (hi <? x) eqn:E2; try apply Z.ltb_lt in E2; try apply Z.ltb_ge in E2; lia.
Qed.

Lemma inBetween_bounds (lo x hi : Z) :
  lo <= hi -> lo <= pmath.inBetween lo x hi <= hi.
Proof.
  intros Hle. rewrite inBetween_clamp by assumption. unfold clamp. lia.
Qed.

Lemma floorPow2_largest (x : Z) :
  0 < x -> largest_pow2_below x (pmath.floorPow2 x).
Proof.
  intros Hx. unfold pmath.floorPow2.
  destruct (x <=? 0) eqn:E; [apply Z.leb_le in E; lia |].
  pose proof (Z.log2_spec x Hx) as [Hlo Hhi].
  pose proof (Z.log2_nonneg x) as Hnn.
  split; [exists (Z.log2 x); auto | split; [exact Hlo |]].
  rewrite Z.pow_succ_r in Hhi by assumption. exact Hhi.
Qed.

Lemma floorPow2_between (a b x : Z) :
  0 <= a -> 2 ^ a <= x <= 2 ^ b ->
  2 ^ a <= pmath.floorPow2 x <= 2 ^ b.
Proof.
  intros Ha [Hlo Hhi].
  assert (Hpos : 0 < 2 ^ a) by (apply Z.pow_pos_nonneg; lia).
  assert (Hx : 0 < x) by lia.
  destruct (floorPow2_largest x Hx) as (_ & Hle & _).
  split; [| lia].
  unfold pmath.floorPow2.
  destruct (x <=? 0) eqn:E; [apply Z.leb_le in E; lia |].
  apply Z.pow_le_mono_r; [lia |].
  rewrite <- (Z.log2_pow2 a Ha). apply Z.log2_le_mono. exact Hlo.
Qed.

Lemma floorPow2_pow2 (k : Z) : 0 <= k -> pmath.floorPow2 (2 ^ k) = 2 ^ k.
Proof.
  intros Hk. unfold pmath.floorPow2.
  assert (0 < 2 ^ k) by (apply Z.pow_pos_nonneg; lia).
  destruct (2 ^ k <=? 0) eqn:E; [apply Z.leb_le in E; lia |].
  now rewrite Z.log2_pow2.
Qed.

Lemma isPowerOf2_pow2 (k : Z) : 0 <= k -> pmath.isPowerOf2 (2 ^ k) = true.
Proof.
  intros Hk. unfold pmath.isPowerOf2.
  assert (0 < 2 ^ k) by (apply Z.pow_pos_nonneg; lia).
  rewrite Z.log2_pow2 by assumption.
  apply andb_true_intro. split; [now apply Z.ltb_lt | apply Z.eqb_refl].
Qed.

Lemma isPowerOf2_true (x : Z) : pmath.isPowerOf2 x = true <-> is_pow2 x.
Proof.
  split.
  - unfold pmath.isPowerOf2. intros Hb. apply andb_prop in Hb as [_ Hb].
    apply Z.eqb_eq in Hb. exists (Z.log2 x). split; [apply Z.log2_nonneg | exact Hb].
  - intros (k & Hk & ->). now apply isPowerOf2_pow2.
Qed.

(** The size that the clamps and the rounding of api.cpp produce: a power
    of two between 8 and 4096 that is the largest one below the clamped
    value. *)
Lemma rounded_size (lo x : Z) :
  (lo = 8 \/ lo = 32) ->
  let r := pmath.floorPow2 (pmath.inBetween lo x 4096) in
  largest_pow2_below (clamp lo 4096 x) r /\ 8 <= r <= 4096.
Proof.
  intros Hlo r. subst r.
  assert (Hle : lo <= 4096) by (destruct Hlo; subst; lia).
  pose proof (inBetween_bounds lo x 4096 Hle) as Hb.
  rewrite <- (inBetween_clamp lo x 4096 Hle).
  split.
  - apply floorPow2_largest. destruct Hlo; subst; lia.
  - destruct Hlo as [-> | ->].
    + assert (H3 : 2 ^ 3 <= pmath.floorPow2 (pmath.inBetween 8 x 4096) <= 2 ^ 12).
      { apply floorPow2_between; [lia |].
        change (2 ^ 3) with 8. change (2 ^ 12) with 4096. lia. }
      change (2 ^ 3) with 8 in H3. change (2 ^ 12) with 4096 in H3. lia.
    + assert (H5 : 2 ^ 5 <= pmath.floorPow2 (pmath.inBetween 32 x 4096) <= 2 ^ 12).
      { apply floorPow2_between; [lia |].
        change (2 ^ 5) with 32. change (2 ^ 12) with 4096. lia. }
      change (2 ^ 5) with 32 in H5. change (2 ^ 12) with 4096 in H5. lia.
Qed.

(** The sizes derived from the L2 cache are at least 32. *)
Lemma rounded_size_32 (x : Z) : 32 <= pmath.floorPow2 (pmath.inBetween 32 x 4096).
Proof.
  assert (H5 : 2 ^ 5 <= pmath.floorPow2 (pmath.inBetween 32 x 4096) <= 2 ^ 12).
  { apply floorPow2_between; [lia |].
    pose proof (inBetween_bounds 32 x 4096 ltac:(lia)).
    change (2 ^ 5) with 32. change (2 ^ 12) with 4096. lia. }
  change (2 ^ 5) with 32 in H5. lia.
Qed.

(** ** api.cpp *)

Section ApiFacts.
Context {P : Platform}.

Lemma get_sieve_size_user (g : api.globals) (cpu : CpuInfo.t) (stop : Z) :
  api.sieve_size g <> 0 -> api.get_sieve_size g cpu stop = api.sieve_size g.
Proof.
  intros Hnz. unfold api.get_sieve_size.
  destruct (api.sieve_size g =? 0) eqn:E; [apply Z.eqb_eq in E; contradiction | reflexivity].
Qed.

(** With no user-selected size, the heuristic returns a rounded size. *)
Lemma get_sieve_size_heuristic (g : api.globals) (cpu : CpuInfo.t) (stop : Z) :
  api.sieve_size g = 0 ->
  exists lo x, (lo = 8 \/ lo = 32) /\
    api.get_sieve_size g cpu stop = pmath.floorPow2 (pmath.inBetween lo x 4096).
Proof.
  intros Hz. unfold api.get_sieve_size. rewrite Hz. simpl negb. cbv iota.
  destruct (CpuInfo.hasL2Cache cpu && privateL2Cache cpu &&
            (CpuInfo.l1CacheSize cpu / 1024 <? CpuInfo.l2CacheSize cpu / 1024)).
  - cbv zeta.
    destruct (fitsIntoCache stop _); eexists 32, _; split; auto.
  - cbv zeta. eexists 8, _; split; auto.
Qed.

(** Every state of the globals that the setters can produce holds either
    no sieve size or a power of two between 8 and 4096. *)
Lemma reachable_sieve_size (g : api.globals) :
  api.reachable g ->
  api.sieve_size g = 0 \/ (is_pow2 (api.sieve_size g) /\ 8 <= api.sieve_size g <= 4096).
Proof.
  induction 1 as [| g k Hg IH | g n Hg IH].
  - left. reflexivity.
  - right. simpl.
    destruct (rounded_size 8 k (or_introl eq_refl)) as ((Hp & _) & Hr).
    split; assumption.
  - exact IH.
Qed.

(** Whatever the globals and the CPU, [get_sieve_size] is a power of two
    between 8 and 4096. *)
Lemma get_sieve_size_valid (g : api.globals) (cpu : CpuInfo.t) (stop : Z) :
  api.reachable g ->
  is_pow2 (api.get_sieve_size g cpu stop) /\ 8 <= api.get_sieve_size g cpu stop <= 4096.
Proof.
  intros Hg. destruct (reachable_sieve_size g Hg) as [Hz | (Hp & Hr)].
  - destruct (get_sieve_size_heuristic g cpu stop Hz) as (lo & x & Hlo & ->).
    destruct (rounded_size lo x Hlo) as ((Hp & _) & Hr). split; assumption.
  - rewrite get_sieve_size_user by lia. split; assumption.
Qed.

(** The size read back after [set_sieve_size] is a power of two between 8
    and 4096. *)
Lemma sieve_size_after_set (g : api.globals) (cpu : CpuInfo.t) (kib : Z) :
  is_pow2 (api.get_sieve_size_void (api.set_sieve_size g kib) cpu) /\
  8 <= api.get_sieve_size_void (api.set_sieve_size g kib) cpu <= 4096.
Proof.
  destruct (rounded_size 8 kib (or_introl eq_refl)) as ((Hp & _) & Hr).
  unfold api.get_sieve_size_void.
  rewrite get_sieve_size_user; simpl; [split; assumption | lia].
Qed.

(** C4. After [set_sieve_size(kib)], [get_sieve_size()] is the largest
    power of two that does not exceed the clamp of [kib] to [8, 4096]; it
    lies in [8, 4096], and setting it again leaves it unchanged. *)
Theorem set_sieve_size_then_get (g : api.globals) (cpu : CpuInfo.t) (kib : Z) :
  let g' := api.set_sieve_size g kib in
  let r := api.get_sieve_size_void g' cpu in
  largest_pow2_below (clamp 8 4096 kib) r /\
  8 <= r <= 4096 /\
  api.get_sieve_size_void (api.set_sieve_size g' r) cpu = r.
Proof.
  intros g' r.
  destruct (rounded_size 8 kib (or_introl eq_refl)) as (Hl & Hr).
  assert (Hr' : r = pmath.floorPow2 (pmath.inBetween 8 kib 4096)).
  { subst r g'. unfold api.get_sieve_size_void.
    rewrite get_sieve_size_user; simpl; [reflexivity | lia]. }
  rewrite Hr'. split; [exact Hl | split; [exact Hr |]].
  unfold api.get_sieve_size_void.
  destruct Hl as ((k & Hk & Hpow) & _).
  assert (Hfix : pmath.floorPow2
            (pmath.inBetween 8 (pmath.floorPow2 (pmath.inBetween 8 kib 4096)) 4096)
          = pmath.floorPow2 (pmath.inBetween 8 kib 4096)).
  { rewrite inBetween_clamp by lia. unfold clamp.
    rewrite Z.min_l by lia. rewrite Z.max_r by lia.
    rewrite Hpow. now apply floorPow2_pow2. }
  rewrite get_sieve_size_user; simpl; rewrite Hfix; [reflexivity | lia].
Qed.

(** C6. With at least one hardware thread, [get_num_threads()] after
    [set_num_threads(n)] is [n] clamped to [1, max]; in particular it is 1
    for every [n <= 0]. The setter is a total function: it raises
    nothing. *)
Theorem set_num_threads_then_get (g : api.globals) (n : Z) :
  1 <= getMaxThreads ->
  api.get_num_threads (api.set_num_threads g n) = clamp 1 getMaxThreads n /\
  (n <= 0 -> api.get_num_threads (api.set_num_threads g n) = 1).
Proof.
  intros Hmax.
  assert (Heq : api.get_num_threads (api.set_num_threads g n) = clamp 1 getMaxThreads n).
  { unfold api.get_num_threads, api.set_num_threads. simpl.
    pose proof (inBetween_bounds 1 n getMaxThreads Hmax) as Hb.
    destruct (pmath.inBetween 1 n getMaxThreads =? 0) eqn:E.
    - apply Z.eqb_eq in E. lia.
    - simpl. now apply inBetween_clamp. }
  split; [exact Heq |].
  intros Hn. rewrite Heq. unfold clamp. lia.
Qed.

(** C7. With no user-selected size, [get_sieve_size(stop)] is a power of
    two in [8, 4096] for every [CpuInfo] object. When a valid private L2
    cache larger than the L1 cache is reported it is the L2 size, per
    thread sharing it if that fits and whole otherwise, clamped to
    [32, 4096] and rounded down; otherwise it is the L1 size, or 32 when
    no valid L1 cache is reported, clamped to [8, 4096] and rounded
    down. *)
Theorem get_sieve_size_default (g : api.globals) (cpu : CpuInfo.t) (stop : Z) :
  api.sieve_size g = 0 ->
  let r := api.get_sieve_size g cpu stop in
  let l1 := CpuInfo.l1CacheSize cpu / 1024 in
  let l2 := CpuInfo.l2CacheSize cpu / 1024 in
  (is_pow2 r /\ 8 <= r <= 4096) /\
  (CpuInfo.hasL2Cache cpu = true -> privateL2Cache cpu = true -> l1 < l2 ->
   let perThread := l2 / clamp 1 4 (l2Threads cpu) in
   32 <= r /\
   (fitsIntoCache stop (pmath.floorPow2 (pmath.inBetween 32 perThread 4096) * 1024) = true ->
    largest_pow2_below (clamp 32 4096 perThread) r) /\
   (fitsIntoCache stop (pmath.floorPow2 (pmath.inBetween 32 perThread 4096) * 1024) = false ->
    largest_pow2_below (clamp 32 4096 l2) r)) /\
  (CpuInfo.hasL2Cache cpu && privateL2Cache cpu && (l1 <? l2) = false ->
   (CpuInfo.hasL1Cache cpu = true -> largest_pow2_below (clamp 8 4096 l1) r) /\
   (CpuInfo.hasL1Cache cpu = false -> r = 32)).
Proof.
  intros Hz r l1 l2.
  split; [| split].
  - subst r. destruct (get_sieve_size_heuristic g cpu stop Hz) as (lo & x & Hlo & ->).
    destruct (rounded_size lo x Hlo) as ((Hp & _) & Hr). split; assumption.
  - intros H2 Hpriv Hlt perThread.
    assert (Hcond : CpuInfo.hasL2Cache cpu && privateL2Cache cpu &&
              (CpuInfo.l1CacheSize cpu / 1024 <? CpuInfo.l2CacheSize cpu / 1024) = true).
    { rewrite H2, Hpriv. simpl. apply Z.ltb_lt. exact Hlt. }
    assert (Hpt : perThread = l2 / pmath.inBetween 1 (l2Threads cpu) 4).
    { subst perThread. now rewrite inBetween_clamp by lia. }
    subst r. unfold api.get_sieve_size. rewrite Hz. simpl negb. cbv iota.
    rewrite Hcond. cbv zeta. fold l2. rewrite <- Hpt.
    destruct (fitsIntoCache stop (pmath.floorPow2 (pmath.inBetween 32 perThread 4096) * 1024)).
    + destruct (rounded_size 32 perThread (or_intror eq_refl)) as (Hl & Hr).
      split; [apply rounded_size_32 | split; [intros _; exact Hl | discriminate]].
    + destruct (rounded_size 32 l2 (or_intror eq_refl)) as (Hl & Hr).
      split; [apply rounded_size_32 | split; [discriminate | intros _; exact Hl]].
  - intros Hcond. subst r. unfold api.get_sieve_size. rewrite Hz. simpl negb. cbv iota.
    fold l1 l2. rewrite Hcond. cbv zeta.
    split; intros H1; rewrite H1; simpl negb; cbv iota.
    + exact (proj1 (rounded_size 8 l1 (or_introl eq_refl))).
    + reflexivity.
Qed.

End ApiFacts.

(** C7 on a machine without cache information: it gets 32. *)
Lemma get_sieve_size_default_witness :
  api.sieve_size api.initial = 0 /\
  @api.get_sieve_size sample_platform api.initial CpuInfo.zero 0 = 32.
Proof.
  split; [reflexivity |].
  refine (proj2 (proj2 (proj2
    (@get_sieve_size_default sample_platform api.initial CpuInfo.zero 0 eq_refl)) _) _);
    reflexivity.
Defined.

(** C6 on a machine with two hardware threads. *)
Lemma set_num_threads_then_get_witness :
  1 <= 2 /\
  @api.get_num_threads sample_platform (@api.set_num_threads sample_platform api.initial (-5)) = 1.
Proof.
  split; [lia |].
  apply (proj2 (@set_num_threads_then_get sample_platform api.initial (-5) ltac:(simpl; lia))).
  lia.
Defined.

(** ** Primality *)

Lemma zrange_In (x lo : Z) (n : nat) :
  In x (zrange lo n) <-> lo <= x < lo + Z.of_nat n.
Proof.
  revert lo. induction n as [| n IH]; intros lo.
  - simpl. split; [intros [] | lia].
  - cbn [zrange In]. rewrite IH, Nat2Z.inj_succ. split; [intros [-> | Hx] |]; lia.
Qed.

Lemma zrange_NoDup (lo : Z) (n : nat) : NoDup (zrange lo n).
Proof.
  revert lo. induction n as [| n IH]; intros lo; simpl; constructor.
  - rewrite zrange_In. lia.
  - apply IH.
Qed.

Lemma zrange_app (lo : Z) (a b : nat) :
  zrange lo (a + b) = (zrange lo a ++ zrange (lo + Z.of_nat a) b)%list.
Proof.
  revert lo. induction a as [| a IH]; intros lo.
  - simpl. now rewrite Z.add_0_r.
  - cbn [zrange Nat.add app]. rewrite IH. do 3 f_equal. lia.
Qed.

(** [isPrime] decides primality. *)
Lemma isPrime_prime (p : Z) : isPrime p = true <-> prime p.
Proof.
  rewrite <- prime_alt. unfold isPrime, Z.prime.
  rewrite andb_true_iff, Z.ltb_lt, forallb_forall.
  split; intros [H1 Hd]; (split; [exact H1 |]).
  - intros n Hn Hdiv.
    assert (Hin : In n (zrange 2 (Z.to_nat (p - 2)))) by (apply zrange_In; lia).
    specialize (Hd n Hin). apply negb_true_iff, Z.eqb_neq in Hd.
    apply Hd. apply Z.mod_divide; [lia | exact Hdiv].
  - intros d Hin. apply zrange_In in Hin.
    apply negb_true_iff, Z.eqb_neq. intros Hmod.
    apply (Hd d); [lia |]. apply Z.mod_divide; [lia | exact Hmod].
Qed.

(** ** The trial division of [sieve()] *)

(** A scan stops inside the vector as soon as the vector holds an element
    above the square root. *)
Lemma scan_from_above (rest : list Z) (n s : Z) (i : nat) :
  (exists p, In p rest /\ s < p) -> exists j q, PrimeSieve.scan_from rest n s i = Some (j, q).
Proof.
  revert i. induction rest as [| a rest IH]; intros i (p & Hin & Hp).
  - destruct Hin.
  - simpl. destruct ((a <=? s) && negb (n mod a =? 0)) eqn:E.
    + apply IH. apply andb_prop in E as [E _]. apply Z.leb_le in E.
      destruct Hin as [-> | Hin]; [lia | eauto].
    + eauto.
Qed.

(** Where a scan stops, the element exceeds the square root or divides the
    candidate. *)
Lemma scan_from_stops (rest : list Z) (n s : Z) (i j : nat) (q : Z) :
  PrimeSieve.scan_from rest n s i = Some (j, q) ->
  (i <= j)%nat /\ nth_error rest (j - i) = Some q /\ (s < q \/ n mod q = 0).
Proof.
  revert i. induction rest as [| a rest IH]; intros i Hs; simpl in Hs; [discriminate |].
  destruct ((a <=? s) && negb (n mod a =? 0)) eqn:E.
  - destruct (IH _ Hs) as (Hle & Hnth & Hq). split; [lia | split; [| exact Hq]].
    replace (j - i)%nat with (S (j - S i)) by lia. exact Hnth.
  - injection Hs as <- <-. split; [lia | split].
    + now rewrite Nat.sub_diag.
    + apply andb_false_iff in E as [E | E].
      * left. apply Z.leb_gt in E. exact E.
      * right. apply negb_false_iff in E. now apply Z.eqb_eq.
Qed.

Lemma has_above_In (keep : Z) (primes : list Z) :
  PrimeSieve.has_above keep primes = true <-> exists p, In p primes /\ keep < p.
Proof.
  unfold PrimeSieve.has_above. rewrite existsb_exists.
  split; intros (p & Hin & Hp); exists p; (split; [exact Hin |]).
  - now apply Z.ltb_lt.
  - now apply Z.ltb_lt.
Qed.

(** A round that starts with an element above [keep] in the vector stays
    inside the vector, and the element is still there afterwards. *)
Lemma trial_step_safe (keep n : Z) (primes : list Z) :
  PrimeSieve.has_above keep primes = true ->
  pmath.U32SQRT n <= keep ->
  exists primes' found,
    PrimeSieve.trial_step keep n primes = Ok (primes', found) /\
    PrimeSieve.has_above keep primes' = true.
Proof.
  intros Hab Hs. apply has_above_In in Hab as (p & Hin & Hp).
  unfold PrimeSieve.trial_step.
  destruct (scan_from_above primes n (pmath.U32SQRT n) 0) as (j & q & ->).
  { exists p. split; [exact Hin | lia]. }
  assert (Hkeep : PrimeSieve.has_above keep primes = true).
  { apply has_above_In. eauto. }
  destruct (pmath.U32SQRT n <? q); [| eauto].
  destruct (q <=? keep); [| eauto].
  do 2 eexists. split; [reflexivity |].
  apply has_above_In. exists p. split; [apply in_or_app; now left | exact Hp].
Qed.

Lemma U32SQRT_small (n : Z) : 0 <= n < 2 ^ 32 -> pmath.U32SQRT n = Z.sqrt n.
Proof.
  intros Hn. unfold pmath.U32SQRT, wrap32. apply Z.mod_small.
  pose proof (Z.sqrt_nonneg n). pose proof (Z.sqrt_le_lin n). lia.
Qed.

Lemma sqrt_below (a b : Z) : 0 <= a < b * b -> 0 <= b -> Z.sqrt a < b.
Proof.
  intros Ha Hb. apply Z.sqrt_lt_square; lia.
Qed.

Section TrialDivision.
Context {H : Headers}.

(** With an element above [keep] in the vector, the loop runs to its end
    inside the vector, given fuel for the remaining rounds. *)
Lemma trial_loop_safe (stop keep : Z) :
  0 <= stop < 2 ^ 16 -> keep = Z.sqrt stop ->
  forall (fuel : nat) (n : Z) (primes sieved : list Z),
    0 <= n ->
    (1 <= fuel)%nat -> stop - n + 3 <= 2 * Z.of_nat fuel ->
    PrimeSieve.has_above keep primes = true ->
    exists r, PrimeSieve.trial_loop fuel stop keep n primes sieved = Ok r.
Proof.
  intros Hstop Hkeep. induction fuel as [| fuel IH]; intros n primes sieved Hn H1 Hfuel Hab.
  - lia.
  - simpl. destruct (n <=? stop) eqn:E; [| eauto].
    apply Z.leb_le in E.
    assert (Hs : pmath.U32SQRT n <= keep).
    { rewrite U32SQRT_small by lia. subst keep. apply Z.sqrt_le_mono. exact E. }
    destruct (trial_step_safe keep n primes Hab Hs) as (primes' & found & -> & Hab').
    assert (Hw : wrap32 (n + 2) = n + 2) by (unfold wrap32; apply Z.mod_small; lia).
    rewrite Hw. apply IH; [lia | lia | lia | exact Hab'].
Qed.

(** The loop begins with the rounds that [trial_steps] performs, as long as
    their candidates do not exceed the stop number. *)
Lemma trial_loop_steps (stop keep : Z) (count : nat) :
  forall (fuel : nat) (n n' : Z) (primes primes' sieved : list Z),
    0 <= n -> n + 2 * Z.of_nat count <= stop + 2 -> stop < 2 ^ 16 ->
    PrimeSieve.trial_steps count keep n primes = Some (n', primes') ->
    n' = n + 2 * Z.of_nat count /\
    exists sieved',
      PrimeSieve.trial_loop (count + fuel) stop keep n primes sieved =
      PrimeSieve.trial_loop fuel stop keep n' primes' sieved'.
Proof.
  induction count as [| count IH]; intros fuel n n' primes primes' sieved Hn Hle Hstop Hsteps.
  - simpl in Hsteps. injection Hsteps as <- <-. split; [simpl; lia | eauto].
  - simpl in Hsteps.
    destruct (PrimeSieve.trial_step keep n primes) as [[p1 found] | | |] eqn:Estep;
      try discriminate.
    destruct (IH fuel (n + 2) n' p1 primes'
                (if found && (eliminateUpTo <? n) then (sieved ++ [n])%list else sieved)
                ltac:(lia) ltac:(lia) Hstop Hsteps) as (Hn' & sieved' & Heq).
    split; [lia |].
    exists sieved'. simpl.
    assert (E : (n <=? stop) = true) by (apply Z.leb_le; lia).
    rewrite E, Estep.
    assert (Hw : wrap32 (n + 2) = n + 2) by (unfold wrap32; apply Z.mod_small; lia).
    rewrite Hw. exact Heq.
Qed.

End TrialDivision.

(** For each of the 256 values that [keep] can take, the first rounds put
    an element above [keep] into the vector. *)
Lemma seeded_all (k : Z) : 0 <= k < 256 -> PrimeSieve.seeded k = true.
Proof.
  intros Hk.
  assert (Hall : forallb (fun i => PrimeSieve.seeded (Z.of_nat i)) (seq 0 256) = true)
    by (vm_compute; reflexivity).
  rewrite forallb_forall in Hall.
  specialize (Hall (Z.to_nat k)). rewrite Z2Nat.id in Hall by lia.
  apply Hall. apply in_seq. lia.
Qed.

(** The trial division reads only elements of the vector whenever the stop
    number of the generator fits 32 bits. *)
Lemma trial_division_safe {H : Headers} (generatorStop : Z) :
  0 <= generatorStop < 2 ^ 32 ->
  exists r, PrimeSieve.trial_division generatorStop = Ok r.
Proof.
  intros HG. unfold PrimeSieve.trial_division.
  rewrite (U32SQRT_small generatorStop HG).
  set (stop := Z.sqrt generatorStop).
  assert (Hstop : 0 <= stop < 2 ^ 16).
  { subst stop. split; [apply Z.sqrt_nonneg |]. apply sqrt_below; [| lia].
    change (2 ^ 16 * 2 ^ 16) with (2 ^ 32). exact HG. }
  rewrite (U32SQRT_small stop) by lia.
  set (keep := Z.sqrt stop).
  assert (Hkeep : 0 <= keep < 256).
  { subst keep. split; [apply Z.sqrt_nonneg |]. apply sqrt_below; [| lia].
    change (256 * 256) with (2 ^ 16). exact Hstop. }
  assert (Hsq : keep * keep <= stop).
  { subst keep. pose proof (Z.sqrt_spec stop (proj1 Hstop)) as Hs. cbv zeta in Hs. lia. }
  pose proof (seeded_all keep Hkeep) as Hseed. unfold PrimeSieve.seeded in Hseed.
  remember (Z.to_nat (Z.min 128 ((keep * keep - 3) / 2))) as count eqn:Ecount.
  destruct (PrimeSieve.trial_steps count keep 5 [3]) as [[n' primes'] |] eqn:Esteps;
    [| discriminate].
  assert (Hcount : 2 * Z.of_nat count <= stop - 3 \/ count = 0%nat).
  { rewrite Ecount. destruct (Z.le_gt_cases 0 ((keep * keep - 3) / 2)) as [Hp | Hneg].
    - left. rewrite Z2Nat.id by lia.
      assert (2 * ((keep * keep - 3) / 2) <= keep * keep - 3)
        by (apply Z.mul_div_le; lia).
      lia.
    - right. lia. }
  assert (Hc : (count <= Z.to_nat stop)%nat /\ 5 + 2 * Z.of_nat count <= stop + 2 \/ count = 0%nat).
  { destruct Hcount as [Hc | Hc]; [left | now right]. split; lia. }
  assert (Hsplit : exists fuel, S (Z.to_nat stop) = (count + fuel)%nat /\
                     (1 <= fuel)%nat /\ Z.of_nat fuel = Z.of_nat (S (Z.to_nat stop)) - Z.of_nat count).
  { exists (S (Z.to_nat stop) - count)%nat. destruct Hc as [[Hc _] | Hc]; lia. }
  destruct Hsplit as (fuel & Hfuel & Hf1 & Hfz). rewrite Hfuel.
  destruct Hc as [[_ Hc] | Hc].
  - destruct (trial_loop_steps stop keep count fuel 5 n' [3] primes' []
                ltac:(lia) Hc ltac:(lia) Esteps) as (Hn' & sieved' & ->).
    apply (trial_loop_safe stop keep Hstop eq_refl); [lia | exact Hf1 | | exact Hseed].
    rewrite Hfz, Nat2Z.inj_succ, Z2Nat.id by lia. lia.
  - rewrite Hc in Esteps, Hfz |- *. simpl in Esteps. injection Esteps as <- <-.
    rewrite Nat.add_0_l.
    apply (trial_loop_safe stop keep Hstop eq_refl); [lia | exact Hf1 | | exact Hseed].
    rewrite Hfz, Nat2Z.inj_succ, Z2Nat.id by lia. lia.
Qed.

(** *** The elements of the vector are primes *)

Lemma prime_factor (m : Z) : 2 <= m -> exists q, prime q /\ (q | m).
Proof.
  intros Hm. assert (H0 : 0 <= m) by lia. revert Hm.
  induction m as [m IH] using (well_founded_induction (Z.lt_wf 0)).
  intros Hm. destruct (prime_dec m) as [Hp | Hn].
  - exists m. split; [exact Hp | apply Z.divide_refl].
  - destruct (not_prime_divide m ltac:(lia) Hn) as (d & Hd & Hdiv).
    destruct (IH d ltac:(lia) ltac:(lia) ltac:(lia)) as (q & Hq & Hqd).
    exists q. split; [exact Hq | eapply Z.divide_trans; eassumption].
Qed.

(** An odd number from 5 on without an odd prime divisor up to its square
    root is prime. *)
Lemma odd_without_small_factor (n : Z) :
  5 <= n -> n mod 2 = 1 ->
  (forall q, prime q -> 3 <= q <= Z.sqrt n -> ~ (q | n)) ->
  prime n.
Proof.
  intros Hn Hodd Hfree. destruct (prime_dec n) as [Hp | Hnp]; [exact Hp | exfalso].
  destruct (not_prime_divide n ltac:(lia) Hnp) as (d & Hd & [e He]).
  assert (Hepos : 1 < e < n) by nia.
  assert (Hsmall : exists a, 1 < a /\ a * a <= n /\ (a | n)).
  { destruct (Z.le_gt_cases d e).
    - exists d. split; [lia |]. split; [nia | exists e; exact He].
    - exists e. split; [lia |]. split; [nia | exists d; lia]. }
  destruct Hsmall as (a & Ha & Hsq & Hdiv).
  destruct (prime_factor a ltac:(lia)) as (q & Hq & Hqa).
  assert (Hq2 : 2 <= q) by (destruct Hq; lia).
  assert (Hqle : q <= a) by (apply Z.divide_pos_le; [lia | exact Hqa]).
  assert (Hqn : (q | n)) by (eapply Z.divide_trans; eassumption).
  assert (Hq3 : 3 <= q).
  { destruct (Z.eq_dec q 2) as [-> | Hne]; [| lia].
    apply Z.mod_divide in Hqn; lia. }
  apply (Hfree q Hq); [| exact Hqn].
  split; [exact Hq3 |].
  apply Z.sqrt_le_square; [lia | lia |]. nia.
Qed.

Lemma prime_3_5_17 : prime 3 /\ prime 5 /\ prime 17.
Proof. split; [| split]; apply isPrime_prime; reflexivity. Qed.

(** An odd prime between the square root of [n] and [n], for [n] up to
    255. *)
Lemma prime_above_sqrt (n : Z) :
  5 <= n <= 255 -> exists r, prime r /\ 3 <= r /\ Z.sqrt n < r < n.
Proof.
  intros Hn. destruct prime_3_5_17 as (P3 & P5 & P17).
  destruct (Z.lt_ge_cases n 9) as [H9 | H9].
  { exists 3. split; [exact P3 |]. split; [lia |]. split; [apply sqrt_below; lia | lia]. }
  destruct (Z.lt_ge_cases n 25) as [H25 | H25].
  { exists 5. split; [exact P5 |]. split; [lia |]. split; [apply sqrt_below; lia | lia]. }
  exists 17. split; [exact P17 |]. split; [lia |]. split; [apply sqrt_below; lia | lia].
Qed.

(** Where a scan stops: the elements before the index are at most the
    square root and do not divide the candidate. *)
Lemma scan_from_prefix (rest : list Z) (n s : Z) (i j : nat) (p : Z) :
  PrimeSieve.scan_from rest n s i = Some (j, p) ->
  exists before after,
    rest = (before ++ p :: after)%list /\
    (forall e, In e before -> e <= s /\ n mod e <> 0) /\
    (s < p \/ n mod p = 0).
Proof.
  revert i. induction rest as [| a rest IH]; intros i Hs; simpl in Hs; [discriminate |].
  destruct ((a <=? s) && negb (n mod a =? 0)) eqn:E.
  - destruct (IH _ Hs) as (before & after & -> & Hb & Hp).
    exists (a :: before), after. split; [reflexivity |]. split; [| exact Hp].
    intros e [<- | He]; [| now apply Hb].
    apply andb_prop in E as [E1 E2]. apply Z.leb_le in E1.
    apply negb_true_iff, Z.eqb_neq in E2. auto.
  - injection Hs as <- <-. exists [], rest. split; [reflexivity |].
    split; [intros e [] |].
    apply andb_false_iff in E as [E | E].
    + left. now apply Z.leb_gt in E.
    + right. apply negb_false_iff in E. now apply Z.eqb_eq.
Qed.

Lemma sorted_after (before after : list Z) (p : Z) :
  StronglySorted Z.lt (before ++ p :: after) -> forall e, In e after -> p < e.
Proof.
  induction before as [| b before IH]; simpl; intros Hs e He.
  - apply StronglySorted_inv in Hs as [_ Hall].
    rewrite Forall_forall in Hall. now apply Hall.
  - apply StronglySorted_inv in Hs as [Hs _]. now apply IH.
Qed.

Lemma sorted_push (l : list Z) (n : Z) :
  StronglySorted Z.lt l -> Forall (fun e => e < n) l -> StronglySorted Z.lt (l ++ [n]).
Proof.
  induction l as [| a l IH]; simpl; intros Hs Hall.
  - constructor; constructor.
  - apply StronglySorted_inv in Hs as [Hs Ha].
    apply Forall_cons_iff in Hall as [Han Hall].
    constructor; [now apply IH |].
    apply Forall_app. split; [exact Ha | constructor; [exact Han | constructor]].
Qed.

(** One round keeps the invariant of the vector. *)
Lemma trial_step_invariant (keep n : Z) (primes primes' : list Z) (found : bool) :
  0 <= keep <= 255 -> n < 2 ^ 32 -> Z.sqrt n <= keep ->
  trial_invariant keep n primes ->
  PrimeSieve.trial_step keep n primes = Ok (primes', found) ->
  trial_invariant keep (n + 2) primes'.
Proof.
  intros Hkeep Hn32 Hsk (Hn & Hodd & Hall & Hsorted & Hfull) Hstep.
  unfold PrimeSieve.trial_step in Hstep.
  rewrite U32SQRT_small in Hstep by lia.
  destruct (PrimeSieve.scan_from primes n (Z.sqrt n) 0) as [[i p] |] eqn:Escan;
    [| discriminate].
  destruct (scan_from_prefix _ _ _ _ _ _ Escan) as (before & after & Heq & Hbefore & Hp).
  assert (Hodd2 : (n + 2) mod 2 = 1).
  { rewrite <- Z.add_mod_idemp_l by lia. rewrite Hodd. reflexivity. }
  assert (Hweak : Forall (fun e => prime e /\ 3 <= e < n + 2) primes).
  { eapply Forall_impl; [| exact Hall]. intros e [He1 He2]. split; [exact He1 | lia]. }
  assert (Hnext : forall q, prime q -> 3 <= q < n + 2 -> q < n \/ q = n).
  { intros q Hq Hr. destruct (Z.eq_dec q (n + 1)) as [-> | Hne]; [| lia].
    exfalso. apply prime_alt in Hq. destruct Hq as [_ Hq].
    apply (Hq 2); [lia |]. apply Z.mod_divide; [lia |].
    rewrite <- Z.add_mod_idemp_l by lia. rewrite Hodd. reflexivity. }
  assert (Hp_in : In p primes) by (rewrite Heq; apply in_or_app; right; now left).
  assert (Hp_prime : prime p /\ 3 <= p < n).
  { rewrite Forall_forall in Hall. now apply Hall. }
  (* the scan stops by a divisor as soon as [n] is composite, and above the
     square root when [n] is prime *)
  assert (Hprime_case : Z.sqrt n < p -> prime n).
  { intros Hsp. apply odd_without_small_factor; [exact Hn | exact Hodd |].
    intros q Hq Hqr Hdiv.
    assert (Hq_in : In q primes).
    { apply Hfull; [exact Hq | | lia].
      pose proof (Z.sqrt_lt_lin n ltac:(lia)). lia. }
    rewrite Heq in Hq_in. apply in_app_or in Hq_in as [Hb | [Hb | Hb]].
    - destruct (Hbefore q Hb) as [_ Hnd]. apply Hnd. apply Z.mod_divide; [lia | exact Hdiv].
    - lia.
    - rewrite Heq in Hsorted. pose proof (sorted_after _ _ _ Hsorted q Hb). lia. }
  assert (Hpushed : prime n -> n <= keep -> Z.sqrt n < p /\ p <= keep).
  { intros Hpn Hnk.
    assert (Hsp : Z.sqrt n < p).
    { destruct Hp as [Hp | Hp]; [exact Hp | exfalso].
      apply prime_alt in Hpn. destruct Hpn as [_ Hpn].
      apply (Hpn p); [lia |]. apply Z.mod_divide; [lia | exact Hp]. }
    split; [exact Hsp |].
    destruct (prime_above_sqrt n ltac:(lia)) as (r & Hr & Hr3 & Hrn).
    assert (Hr_in : In r primes) by (apply Hfull; [exact Hr | lia | lia]).
    rewrite Heq in Hr_in. apply in_app_or in Hr_in as [Hb | [Hb | Hb]].
    - destruct (Hbefore r Hb) as [Hle _]. lia.
    - lia.
    - rewrite Heq in Hsorted. pose proof (sorted_after _ _ _ Hsorted r Hb). lia. }
  destruct (Z.sqrt n <? p) eqn:Esp.
  - apply Z.ltb_lt in Esp. pose proof (Hprime_case Esp) as Hpn.
    injection Hstep as <- <-.
    destruct (p <=? keep) eqn:Epk.
    + split; [lia |]. split; [exact Hodd2 |].
      split; [apply Forall_app; split; [exact Hweak | constructor; [split; [exact Hpn | lia] | constructor]] |].
      split.
      * apply sorted_push; [exact Hsorted |].
        eapply Forall_impl; [| exact Hall]. intros e [_ He]. lia.
      * intros q Hq Hr Hqk. apply in_or_app.
        destruct (Hnext q Hq Hr) as [Hlt | ->]; [left; apply Hfull; auto; lia |].
        right. now left.
    + apply Z.leb_gt in Epk.
      split; [lia |]. split; [exact Hodd2 |]. split; [exact Hweak |].
      split; [exact Hsorted |].
      intros q Hq Hr Hqk.
      destruct (Hnext q Hq Hr) as [Hlt | ->]; [apply Hfull; auto; lia |].
      destruct (Hpushed Hpn Hqk). lia.
  - apply Z.ltb_ge in Esp. injection Hstep as <- <-.
    split; [lia |]. split; [exact Hodd2 |]. split; [exact Hweak |].
    split; [exact Hsorted |].
    intros q Hq Hr Hqk.
    destruct (Hnext q Hq Hr) as [Hlt | ->]; [apply Hfull; auto; lia |].
    destruct (Hpushed Hq Hqk). lia.
Qed.

Lemma trial_invariant_start (keep : Z) : trial_invariant keep 5 [3].
Proof.
  destruct prime_3_5_17 as (P3 & _).
  split; [lia |]. split; [reflexivity |].
  split; [constructor; [split; [exact P3 | lia] | constructor] |].
  split; [constructor; constructor |].
  intros q Hq Hr _.
  destruct (Z.eq_dec q 3) as [-> | Hne]; [now left | exfalso].
  assert (q = 4) by lia. subst q.
  apply isPrime_prime in Hq. discriminate Hq.
Qed.

(** The rounds for candidates up to the stop number keep the invariant. *)
Lemma trial_steps_invariant (stop keep : Z) (count : nat) :
  0 <= stop < 2 ^ 16 -> keep = Z.sqrt stop ->
  forall (n n' : Z) (primes primes' : list Z),
    n + 2 * Z.of_nat count <= stop + 2 ->
    trial_invariant keep n primes ->
    PrimeSieve.trial_steps count keep n primes = Some (n', primes') ->
    trial_invariant keep n' primes'.
Proof.
  intros Hstop Hkeep.
  assert (Hk : 0 <= keep <= 255).
  { subst keep. split; [apply Z.sqrt_nonneg |].
    assert (Z.sqrt stop < 256); [| lia]. apply sqrt_below; [| lia].
    change (256 * 256) with (2 ^ 16). exact Hstop. }
  induction count as [| count IH]; intros n n' primes primes' Hle Hinv Hsteps.
  - simpl in Hsteps. injection Hsteps as <- <-. exact Hinv.
  - simpl in Hsteps.
    destruct (PrimeSieve.trial_step keep n primes) as [[p1 found] | | |] eqn:Estep;
      try discriminate.
    apply (IH (n + 2) n' p1 primes'); [lia | | exact Hsteps].
    apply (trial_step_invariant keep n primes p1 found Hk); [lia | | exact Hinv | exact Estep].
    subst keep. apply Z.sqrt_le_mono. lia.
Qed.

(** A run of the loop that returns has performed its first rounds inside
    the vector, and the round it is at as well. *)
Lemma trial_loop_rounds {H : Headers} (stop keep : Z) (count : nat) :
  forall (fuel : nat) (n : Z) (primes sieved : list Z) (r : list Z * list Z),
    0 <= n -> n + 2 * Z.of_nat count <= stop -> stop < 2 ^ 16 ->
    PrimeSieve.trial_loop (count + S fuel) stop keep n primes sieved = Ok r ->
    exists primes' found,
      PrimeSieve.trial_steps count keep n primes = Some (n + 2 * Z.of_nat count, primes') /\
      PrimeSieve.trial_step keep (n + 2 * Z.of_nat count) primes' = Ok found.
Proof.
  induction count as [| count IH]; intros fuel n primes sieved r Hn Hle Hstop Hrun.
  - cbn [Nat.add PrimeSieve.trial_loop PrimeSieve.trial_steps] in Hrun |- *.
    change (Z.of_nat 0) with 0 in *. rewrite Z.mul_0_r, Z.add_0_r in *.
    assert (E : (n <=? stop) = true) by (apply Z.leb_le; lia).
    rewrite E in Hrun.
    destruct (PrimeSieve.trial_step keep n primes) as [found | | |] eqn:Estep;
      try discriminate.
    exists primes, found. split; [reflexivity | exact Estep].
  - cbn [Nat.add PrimeSieve.trial_loop] in Hrun.
    assert (E : (n <=? stop) = true) by (apply Z.leb_le; lia).
    rewrite E in Hrun.
    destruct (PrimeSieve.trial_step keep n primes) as [[p1 found] | | |] eqn:Estep;
      try discriminate.
    assert (Hw : wrap32 (n + 2) = n + 2) by (unfold wrap32; apply Z.mod_small; lia).
    rewrite Hw in Hrun.
    destruct (IH fuel (n + 2) p1 _ r ltac:(lia) ltac:(lia) Hstop Hrun)
      as (primes' & found' & Hsteps & Hstep).
    replace (n + 2 + 2 * Z.of_nat count) with (n + 2 * Z.of_nat (S count)) in * by lia.
    exists primes', found'. split; [| exact Hstep].
    simpl. rewrite Estep. exact Hsteps.
Qed.

(** C9. For each stop number of the generator that fits 32 bits, the trial
    division of [sieve()] runs to its end without reading [primes16Bit]
    past its last element. In the round of each odd candidate [n] from 5
    up to the square root of that stop number, the vector holds odd
    primes in ascending order, among them every odd prime below [n] up to
    [keep], the fourth root of the stop number; the inner scan ends at an
    index [i] below the length of the vector, and the element there is a
    prime that exceeds the square root of [n] or divides [n]. *)
Theorem trial_division_in_bounds {H : Headers} (generatorStop : Z) :
  0 <= generatorStop < 2 ^ 32 ->
  let stop := pmath.U32SQRT generatorStop in
  let keep := pmath.U32SQRT stop in
  (exists primes16Bit sieved,
     PrimeSieve.trial_division generatorStop = Ok (primes16Bit, sieved)) /\
  forall count : nat,
    let n := 5 + 2 * Z.of_nat count in
    n <= stop ->
    exists (primes16Bit : list Z) (i : nat) (p : Z),
      PrimeSieve.trial_steps count keep 5 [3] = Some (n, primes16Bit) /\
      trial_invariant keep n primes16Bit /\
      PrimeSieve.scan_from primes16Bit n (pmath.U32SQRT n) 0 = Some (i, p) /\
      (i < length primes16Bit)%nat /\ nth_error primes16Bit i = Some p /\
      prime p /\ (pmath.U32SQRT n < p \/ n mod p = 0).
Proof.
  intros HG stop keep.
  destruct (trial_division_safe generatorStop HG) as ([primes sieved] & Hr).
  split; [eauto |].
  intros count n Hn.
  assert (Hstop : 0 <= stop < 2 ^ 16).
  { subst stop. rewrite (U32SQRT_small generatorStop HG).
    split; [apply Z.sqrt_nonneg |]. apply sqrt_below; [| lia].
    change (2 ^ 16 * 2 ^ 16) with (2 ^ 32). exact HG. }
  assert (Hkeep : keep = Z.sqrt stop) by (subst keep; apply U32SQRT_small; lia).
  unfold PrimeSieve.trial_division in Hr. fold stop keep in Hr.
  assert (Hfuel : S (Z.to_nat stop) = (count + S (Z.to_nat stop - count))%nat) by lia.
  rewrite Hfuel in Hr.
  destruct (trial_loop_rounds stop keep count _ 5 [3] [] _ ltac:(lia) Hn ltac:(lia) Hr)
    as (primes' & found & Hsteps & Hstep).
  fold n in Hsteps, Hstep.
  pose proof (trial_steps_invariant stop keep count Hstop Hkeep 5 n [3] primes'
                ltac:(lia) (trial_invariant_start keep) Hsteps) as Hinv.
  unfold PrimeSieve.trial_step in Hstep.
  destruct (PrimeSieve.scan_from primes' n (pmath.U32SQRT n) 0) as [[i p] |] eqn:Escan;
    [| discriminate].
  destruct (scan_from_stops primes' n (pmath.U32SQRT n) 0 i p Escan) as (_ & Hnth & Hp).
  rewrite Nat.sub_0_r in Hnth.
  exists primes', i, p. split; [exact Hsteps |]. split; [exact Hinv |].
  split; [exact Escan |].
  split; [apply nth_error_Some; congruence |]. split; [exact Hnth |].
  split; [| exact Hp].
  destruct Hinv as (_ & _ & Hall & _). rewrite Forall_forall in Hall.
  apply (Hall p). eapply nth_error_In. exact Hnth.
Qed.

(** C9 for the generator of a sieve up to 10^16. *)
Lemma trial_division_in_bounds_witness :
  0 <= 100000000 < 2 ^ 32 /\
  exists primes16Bit sieved,
    @PrimeSieve.trial_division sample_headers 100000000 = Ok (primes16Bit, sieved).
Proof.
  split; [lia |].
  apply (@trial_division_in_bounds sample_headers 100000000). lia.
Defined.

(** ** The pre-list of small primes *)

Lemma bind_match {A B : Type} (m : outcome A) (f g : A -> outcome B) :
  (forall a, f a = g a) ->
  bind m f = match m with
             | Ok a => g a
             | Throw e => Throw e
             | Undefined w => Undefined w
             | OutOfFuel => OutOfFuel
             end.
Proof. intros Hfg. destruct m; simpl; auto. Qed.

Lemma outcome_eta {A : Type} (m : outcome A) :
  m = match m with
      | Ok a => Ok a
      | Throw e => Throw e
      | Undefined w => Undefined w
      | OutOfFuel => OutOfFuel
      end.
Proof. destruct m; reflexivity. Qed.

Lemma store_spec (a : list Z) (i : nat) (v : Z) :
  (i < length a)%nat ->
  exists a', store a i v = Some a' /\ length a' = length a /\
    forall j, nth j a' 0 = if (j =? i)%nat then v else nth j a 0.
Proof.
  revert i. induction a as [| x a IH]; intros i Hi; simpl in Hi; [lia |].
  destruct i as [| i]; simpl.
  - eexists. split; [reflexivity | split; [reflexivity |]].
    intros [| j]; reflexivity.
  - destruct (IH i ltac:(lia)) as (a' & -> & Hlen & Hnth).
    eexists. split; [reflexivity | split; [simpl; now rewrite Hlen |]].
    intros [| j]; simpl; [reflexivity | apply Hnth].
Qed.

Section PreList.
Context {H : Headers}.

Lemma same_settings_refl (ps : PrimeSieve.t) : same_settings ps ps.
Proof. repeat split. Qed.

Lemma same_settings_trans (a b c : PrimeSieve.t) :
  same_settings a b -> same_settings b c -> same_settings a c.
Proof.
  intros (A1 & A2 & A3 & A4 & A5) (B1 & B2 & B3 & B4 & B5).
  repeat split; congruence.
Qed.

Lemma same_settings_effects (ps ps' : PrimeSieve.t) (e : Z * Z * nat * string) :
  same_settings ps ps' ->
  printed ps' e = printed ps e /\ passed ps' e = passed ps e /\
  (forall j, counted ps' j e = counted ps j e) /\
  (PrimeSieve.callable ps -> PrimeSieve.callable ps').
Proof.
  intros (A1 & A2 & A3 & A4 & A5).
  unfold printed, passed, counted, PrimeSieve.in_range, PrimeSieve.callable.
  rewrite A1, A2, A4, A5. auto.
Qed.

(** One call of [doSmallPrime]. *)
Lemma doSmallPrime_effects (ps : PrimeSieve.t) (e : Z * Z * nat * string) :
  PrimeSieve.callable ps ->
  (PrimeSieve.row_type e < length (PrimeSieve.counts_ ps))%nat ->
  exists ps',
    PrimeSieve.doSmallPrime ps (PrimeSieve.row_low e) (PrimeSieve.row_high e)
      (PrimeSieve.row_type e) (PrimeSieve.row_text e) = Ok ps' /\
    same_settings ps ps' /\
    PrimeSieve.cout ps' = (PrimeSieve.cout ps ++ printed ps e)%list /\
    PrimeSieve.called ps' = (PrimeSieve.called ps ++ passed ps e)%list /\
    length (PrimeSieve.counts_ ps') = length (PrimeSieve.counts_ ps) /\
    forall j, nth j (PrimeSieve.counts_ ps') 0 =
              if counted ps j e then wrap64 (nth j (PrimeSieve.counts_ ps) 0 + 1)
              else nth j (PrimeSieve.counts_ ps) 0.
Proof.
  intros Hcall Hty.
  unfold PrimeSieve.doSmallPrime, printed, passed, counted, PrimeSieve.in_range.
  destruct ((PrimeSieve.startNumber_ ps <=? PrimeSieve.row_low e) &&
            (PrimeSieve.row_high e <=? PrimeSieve.stopNumber_ ps)); simpl andb.
  2:{ exists ps. rewrite !app_nil_r. repeat split. }
  destruct (store_spec (PrimeSieve.counts_ ps) (PrimeSieve.row_type e)
              (wrap64 (nth (PrimeSieve.row_type e) (PrimeSieve.counts_ ps) 0 + 1)) Hty)
    as (cs & Hstore & Hlen & Hnth).
  rewrite Hstore.
  unfold PrimeSieve.callable in Hcall.
  destruct (PrimeSieve.test (PrimeSieve.flags_ ps)
              (Z.shiftl COUNT_PRIMES (Z.of_nat (PrimeSieve.row_type e)))) eqn:Ec;
    destruct (PrimeSieve.test (PrimeSieve.flags_ ps)
                (Z.shiftl PRINT_PRIMES (Z.of_nat (PrimeSieve.row_type e)))) eqn:Ep;
    destruct (PrimeSieve.test (PrimeSieve.flags_ ps) CALLBACK_PRIMES) eqn:Eb;
    simpl; rewrite ?Ep, ?Eb; simpl; rewrite ?Ep, ?Eb; simpl;
    try rewrite (Hcall eq_refl);
    eexists; (split; [reflexivity |]); simpl; rewrite ?app_nil_r;
    (split; [repeat split |]); (split; [reflexivity |]); (split; [reflexivity |]);
    (split; [auto |]); intros j; rewrite ?Hnth;
    destruct (j =? PrimeSieve.row_type e)%nat eqn:Ej; try reflexivity;
    apply Nat.eqb_eq in Ej; subst j; reflexivity.
Qed.

(** The calls for a list of rows, when no counter can wrap around. *)
Lemma doSmallPrimes_effects (rows : list (Z * Z * nat * string)) :
  forall ps : PrimeSieve.t,
    PrimeSieve.callable ps ->
    (forall e, In e rows -> (PrimeSieve.row_type e < length (PrimeSieve.counts_ ps))%nat) ->
    (forall j, 0 <= nth j (PrimeSieve.counts_ ps) 0 /\
               nth j (PrimeSieve.counts_ ps) 0 + Z.of_nat (length rows) < 2 ^ 64) ->
    exists ps',
      PrimeSieve.doSmallPrimes rows ps = Ok ps' /\
      same_settings ps ps' /\
      PrimeSieve.cout ps' = (PrimeSieve.cout ps ++ flat_map (printed ps) rows)%list /\
      PrimeSieve.called ps' = (PrimeSieve.called ps ++ flat_map (passed ps) rows)%list /\
      length (PrimeSieve.counts_ ps') = length (PrimeSieve.counts_ ps) /\
      forall j, nth j (PrimeSieve.counts_ ps') 0 =
                nth j (PrimeSieve.counts_ ps) 0 +
                Z.of_nat (length (filter (counted ps j) rows)).
Proof.
  induction rows as [| e rows IH]; intros ps Hcall Hty Hcs.
  - exists ps. simpl. rewrite !app_nil_r. repeat split. intros j. lia.
  - destruct (doSmallPrime_effects ps e Hcall (Hty e (or_introl eq_refl)))
      as (ps1 & Hrun & Hset & Hout & Hcb & Hlen & Hnth).
    assert (Hstep : forall j, 0 <= nth j (PrimeSieve.counts_ ps1) 0 /\
              nth j (PrimeSieve.counts_ ps1) 0 + Z.of_nat (length rows) < 2 ^ 64 /\
              nth j (PrimeSieve.counts_ ps1) 0 =
                nth j (PrimeSieve.counts_ ps) 0 + (if counted ps j e then 1 else 0)).
    { intros j. destruct (Hcs j) as [H0 Hb]. rewrite Hnth.
      simpl length in Hb. rewrite Nat2Z.inj_succ in Hb.
      destruct (counted ps j e).
      - unfold wrap64. rewrite Z.mod_small by lia. lia.
      - lia. }
    destruct (IH ps1) as (ps' & Hrun' & Hset' & Hout' & Hcb' & Hlen' & Hnth').
    + exact (proj2 (proj2 (proj2 (same_settings_effects ps ps1 e Hset))) Hcall).
    + intros e' He'. rewrite Hlen. apply Hty. now right.
    + intros j. destruct (Hstep j) as (A & B & _). split; assumption.
    + exists ps'. simpl PrimeSieve.doSmallPrimes. rewrite Hrun.
      split; [exact Hrun' |].
      split; [eapply same_settings_trans; eassumption |].
      assert (Hp : flat_map (printed ps1) rows = flat_map (printed ps) rows).
      { apply flat_map_ext. intros a. apply (same_settings_effects ps ps1 a Hset). }
      assert (Hq : flat_map (passed ps1) rows = flat_map (passed ps) rows).
      { apply flat_map_ext. intros a. apply (same_settings_effects ps ps1 a Hset). }
      split; [rewrite Hout', Hout, Hp; simpl; now rewrite app_assoc |].
      split; [rewrite Hcb', Hcb, Hq; simpl; now rewrite app_assoc |].
      split; [congruence |].
      intros j. rewrite Hnth'. destruct (Hstep j) as (_ & _ & ->).
      assert (Hf : filter (counted ps1 j) rows = filter (counted ps j) rows).
      { apply filter_ext. intros a. apply (same_settings_effects ps ps1 a Hset). }
      rewrite Hf. simpl filter. destruct (counted ps j e); simpl length; lia.
Qed.

(** The eight calls of [sieve()] are the calls for the rows of the
    pre-list. *)
Lemma smallPrimes_rows (ps : PrimeSieve.t) :
  PrimeSieve.smallPrimes ps = PrimeSieve.doSmallPrimes PrimeSieve.prelist ps.
Proof.
  unfold PrimeSieve.smallPrimes, PrimeSieve.prelist.
  cbn -[PrimeSieve.doSmallPrime bind].
  repeat (apply bind_match; intro).
  apply outcome_eta.
Qed.

End PreList.

(** ** Errors of the setters and of [sieve()] *)

Lemma bind_no_throw {A B : Type} (m : outcome A) (k : A -> outcome B) :
  no_throw m -> (forall a, no_throw (k a)) -> no_throw (bind m k).
Proof.
  intros Hm Hk e. destruct m; simpl; try discriminate.
  - apply Hk.
  - intros Heq. injection Heq as <-. exact (Hm _ eq_refl).
Qed.

Section Errors.
Context {H : Headers}.

Lemma doSmallPrime_no_throw (ps : PrimeSieve.t) (low high : Z) (type : nat) (prime : string) :
  no_throw (PrimeSieve.doSmallPrime ps low high type prime).
Proof.
  unfold PrimeSieve.doSmallPrime.
  destruct ((PrimeSieve.startNumber_ ps <=? low) && (high <=? PrimeSieve.stopNumber_ ps));
    [| discriminate].
  apply bind_no_throw.
  - destruct (PrimeSieve.test _ _); [| discriminate].
    destruct (store _ _ _); discriminate.
  - intros a. destruct (PrimeSieve.test (PrimeSieve.flags_ a) (Z.shiftl PRINT_PRIMES _));
      destruct (PrimeSieve.test _ CALLBACK_PRIMES); try discriminate;
      destruct (PrimeSieve.callback _); discriminate.
Qed.

Lemma sieve_small_no_throw (ps : PrimeSieve.t) : no_throw (PrimeSieve.sieve_small ps).
Proof.
  unfold PrimeSieve.sieve_small, PrimeSieve.smallPrimes.
  destruct (PrimeSieve.startNumber_ ps <=? 5); [| discriminate].
  repeat (apply bind_no_throw; [apply doSmallPrime_no_throw | intro]).
  apply doSmallPrime_no_throw.
Qed.

Lemma trial_step_no_throw (keep n : Z) (primes : list Z) :
  no_throw (PrimeSieve.trial_step keep n primes).
Proof.
  unfold PrimeSieve.trial_step.
  destruct (PrimeSieve.scan_from _ _ _ _) as [[j q] |]; [| discriminate].
  destruct (_ <? q); discriminate.
Qed.

Lemma trial_loop_no_throw (stop keep : Z) (fuel : nat) :
  forall (n : Z) (primes sieved : list Z),
    no_throw (PrimeSieve.trial_loop fuel stop keep n primes sieved).
Proof.
  induction fuel as [| fuel IH]; intros n primes sieved; simpl; [discriminate |].
  destruct (n <=? stop); [| discriminate].
  pose proof (trial_step_no_throw keep n primes) as Hs.
  destruct (PrimeSieve.trial_step keep n primes) as [[p found] | e | w |];
    try discriminate.
  - apply IH.
  - exfalso. exact (Hs e eq_refl).
Qed.

(** [sieve()] throws exactly when the stop number is below the start
    number. *)
Lemma sieve_throws_iff (ps : PrimeSieve.t) :
  throws (PrimeSieve.sieve ps) <-> PrimeSieve.stopNumber_ ps < PrimeSieve.startNumber_ ps.
Proof.
  unfold PrimeSieve.sieve.
  destruct (PrimeSieve.stopNumber_ ps <? PrimeSieve.startNumber_ ps) eqn:E.
  - apply Z.ltb_lt in E. split; [auto | intros _; eexists; reflexivity].
  - apply Z.ltb_ge in E. split; [| lia].
    intros (e & He). exfalso. revert He.
    apply bind_no_throw; [apply sieve_small_no_throw | intros ps1].
    apply bind_no_throw; [| discriminate].
    destruct (7 <=? PrimeSieve.stopNumber_ ps1); [| discriminate].
    apply bind_no_throw; [| discriminate].
    destruct (eliminateUpTo <? _); [| discriminate].
    apply trial_loop_no_throw.
Qed.

(** C2, with the bound of the code. Setting the range and sieving fails
    with the range error exactly when start or stop is at least
    [(2^64 - 1) - 10 * (2^32 - 1)], or stop is below start; so it does not
    fail for [start <= stop] below that bound. *)
Theorem range_error_iff (ps : PrimeSieve.t) (start stop : Z) :
  PrimeSieve.range_limit = 2 ^ 64 - 1 - 10 * (2 ^ 32 - 1) /\
  (throws (PrimeSieve.getPrimeCount ps start stop) <->
   PrimeSieve.range_limit <= start \/ PrimeSieve.range_limit <= stop \/ stop < start).
Proof.
  split; [reflexivity |].
  unfold PrimeSieve.getPrimeCount, PrimeSieve.setStartNumber, PrimeSieve.setStopNumber.
  destruct (PrimeSieve.range_limit <=? start) eqn:E1.
  { apply Z.leb_le in E1. simpl. split; [auto | intros _; eexists; reflexivity]. }
  apply Z.leb_gt in E1. cbn [bind PrimeSieve.stopNumber_].
  destruct (PrimeSieve.range_limit <=? stop) eqn:E2.
  { apply Z.leb_le in E2. simpl. split; [auto | intros _; eexists; reflexivity]. }
  apply Z.leb_gt in E2. cbn [bind].
  match goal with
  | |- throws (bind (PrimeSieve.sieve ?q) _) <-> _ =>
      pose proof (sieve_throws_iff q) as Hs; destruct (PrimeSieve.sieve q) as [r | e | w |]
  end; simpl in Hs |- *.
  - split; [intros (e & He); discriminate |].
    intros [Hc | [Hc | Hc]]; try lia. apply Hs in Hc. destruct Hc as (e & He). discriminate.
  - split; [| intros _; eexists; reflexivity].
    intros _. right. right. apply Hs. eexists; reflexivity.
  - split; [intros (e & He); discriminate |].
    intros [Hc | [Hc | Hc]]; try lia. apply Hs in Hc. destruct Hc as (e & He). discriminate.
  - split; [intros (e & He); discriminate |].
    intros [Hc | [Hc | Hc]]; try lia. apply Hs in Hc. destruct Hc as (e & He). discriminate.
Qed.

(** C5, as the code has it. [PrimeSieve::setSieveSize] fails exactly when
    the size is outside [1, 8192] or is not a power of two, and rounds
    nothing; [set_sieve_size] of the API never fails, and the size that
    [get_sieve_size()] returns after it is accepted by
    [PrimeSieve::setSieveSize]. *)
Theorem setSieveSize_error_iff {P : Platform} (ps : PrimeSieve.t) (sieveSize : Z) :
  (throws (PrimeSieve.setSieveSize ps sieveSize) <->
   sieveSize < 1 \/ 8192 < sieveSize \/ ~ is_pow2 sieveSize) /\
  (forall (g : api.globals) (cpu : CpuInfo.t) (kib : Z),
     exists ps',
       PrimeSieve.setSieveSize ps (api.get_sieve_size_void (api.set_sieve_size g kib) cpu)
       = Ok ps').
Proof.
  assert (Hiff : forall s, throws (PrimeSieve.setSieveSize ps s) <->
                           s < 1 \/ 8192 < s \/ ~ is_pow2 s).
  { intros s. unfold PrimeSieve.setSieveSize.
    destruct ((s <? 1) || (8192 <? s)) eqn:E.
    - split; [| intros _; eexists; reflexivity].
      intros _. apply orb_true_iff in E as [E | E]; apply Z.ltb_lt in E; auto.
    - apply orb_false_iff in E as [Ea Eb]. apply Z.ltb_ge in Ea, Eb.
      destruct (pmath.isPowerOf2 s) eqn:Ep; simpl.
      + apply isPowerOf2_true in Ep.
        split; [intros (e & He); discriminate |].
        intros [Hc | [Hc | Hc]]; try lia. contradiction.
      + split; [| intros _; eexists; reflexivity].
        intros _. right. right. intros Hp. apply isPowerOf2_true in Hp. congruence. }
  split; [apply Hiff |].
  intros g cpu kib.
  destruct (sieve_size_after_set g cpu kib) as (Hp & Hr).
  set (r := api.get_sieve_size_void (api.set_sieve_size g kib) cpu) in *.
  destruct (PrimeSieve.setSieveSize ps r) as [ps' | e | w |] eqn:Eset.
  - eauto.
  - exfalso. assert (Ht : throws (PrimeSieve.setSieveSize ps r)) by (rewrite Eset; eexists; reflexivity).
    apply Hiff in Ht. destruct Ht as [Hc | [Hc | Hc]]; try lia. contradiction.
  - unfold PrimeSieve.setSieveSize in Eset.
    destruct ((r <? 1) || (8192 <? r)); [discriminate |].
    destruct (negb (pmath.isPowerOf2 r)); discriminate.
  - unfold PrimeSieve.setSieveSize in Eset.
    destruct ((r <? 1) || (8192 <? r)); [discriminate |].
    destruct (negb (pmath.isPowerOf2 r)); discriminate.
Qed.

End Errors.

(** C2 as the specification states it, with the bound
    [2^64 - 10 * (2^32 - 1)], fails for the largest start and stop below
    that bound: the code raises the range error there. *)
Lemma range_error_spec_bound_counterexample :
  let b := 2 ^ 64 - 1 - 10 * (2 ^ 32 - 1) in
  ~ (throws (@PrimeSieve.getPrimeCount sample_headers (@PrimeSieve.new sample_headers) b b) <->
     (2 ^ 64 - 10 * (2 ^ 32 - 1) <= b \/ 2 ^ 64 - 10 * (2 ^ 32 - 1) <= b \/ b > b)).
Proof.
  intros b [Hthrows _].
  assert (Ht : throws (@PrimeSieve.getPrimeCount sample_headers
                         (@PrimeSieve.new sample_headers) b b))
    by (eexists; vm_compute; reflexivity).
  apply Hthrows in Ht. subst b. lia.
Qed.

(** C5 as the specification states it fails for the size 3: it lies in
    [1, 8192], and [PrimeSieve::setSieveSize] throws instead of rounding. *)
Lemma setSieveSize_not_rounded_counterexample :
  ~ (throws (PrimeSieve.setSieveSize (@PrimeSieve.new sample_headers) 3) <->
     (3 < 1 \/ 8192 < 3)).
Proof.
  intros [Hthrows _].
  assert (Ht : throws (PrimeSieve.setSieveSize (@PrimeSieve.new sample_headers) 3))
    by (eexists; vm_compute; reflexivity).
  apply Hthrows in Ht. lia.
Qed.

(** ** What [sieve()] does when it returns *)

Lemma nth_repeat_zero (j n : nat) : nth j (repeat 0 n) 0 = 0.
Proof.
  revert j. induction n as [| n IH]; intros [| j]; simpl; auto.
Qed.

Lemma flat_map_nil {A B : Type} (f : A -> list B) (l : list A) :
  (forall a, In a l -> f a = []) -> flat_map f l = [].
Proof.
  induction l as [| a l IH]; intros Hf; simpl; [reflexivity |].
  rewrite (Hf a (or_introl eq_refl)), IH; [reflexivity |].
  intros b Hb. apply Hf. now right.
Qed.

Lemma filter_nil {A : Type} (f : A -> bool) (l : list A) :
  (forall a, In a l -> f a = false) -> filter f l = [].
Proof.
  induction l as [| a l IH]; intros Hf; simpl; [reflexivity |].
  rewrite (Hf a (or_introl eq_refl)), IH; [reflexivity |].
  intros b Hb. apply Hf. now right.
Qed.

(** The texts of the rows tell the rows apart. *)
Lemma prelist_text_inj (e e' : Z * Z * nat * string) :
  In e PrimeSieve.prelist -> In e' PrimeSieve.prelist ->
  (PrimeSieve.row_text e ++ PrimeSieve.endl)%string =
  (PrimeSieve.row_text e' ++ PrimeSieve.endl)%string ->
  e = e'.
Proof.
  unfold PrimeSieve.prelist. simpl.
  intros He He' Heq.
  repeat (destruct He as [He | He]); try contradiction; subst e;
    repeat (destruct He' as [He' | He']); try contradiction; subst e';
    try reflexivity; discriminate Heq.
Qed.

Lemma prelist_low (e : Z * Z * nat * string) :
  In e PrimeSieve.prelist ->
  PrimeSieve.row_low e <= 5 /\ (PrimeSieve.row_type e < PrimeSieve.COUNTS_SIZE)%nat.
Proof.
  unfold PrimeSieve.prelist. simpl.
  intros He. unfold PrimeSieve.COUNTS_SIZE, PrimeSieve.row_low, PrimeSieve.row_type.
  repeat (destruct He as [<- | He]; [simpl; lia |]). contradiction.
Qed.

Section SieveFacts.
Context {H : Headers}.

Lemma doStatus_effects (ps : PrimeSieve.t) (segment : Z) :
  same_settings ps (PrimeSieve.doStatus ps segment) /\
  PrimeSieve.counts_ (PrimeSieve.doStatus ps segment) = PrimeSieve.counts_ ps /\
  PrimeSieve.called (PrimeSieve.doStatus ps segment) = PrimeSieve.called ps.
Proof.
  unfold PrimeSieve.doStatus.
  match goal with |- context [if ?c then _ else _] => destruct c end;
    simpl; repeat split.
Qed.

Lemma reset_effects (ps : PrimeSieve.t) :
  same_settings ps (PrimeSieve.reset ps) /\
  PrimeSieve.counts_ (PrimeSieve.reset ps) = repeat 0 PrimeSieve.COUNTS_SIZE /\
  PrimeSieve.called (PrimeSieve.reset ps) = PrimeSieve.called ps.
Proof.
  unfold PrimeSieve.reset.
  match goal with |- context [PrimeSieve.doStatus ?q ?s] =>
    destruct (doStatus_effects q s) as (Hs & Hc & Hd); rewrite Hc, Hd; split; [| split]
  end.
  - destruct Hs as (A1 & A2 & A3 & A4 & A5). repeat split; assumption.
  - reflexivity.
  - reflexivity.
Qed.

(** The row lies in the interval: read as inequalities. *)
Lemma in_range_true (ps : PrimeSieve.t) (e : Z * Z * nat * string) :
  PrimeSieve.in_range ps e = true <->
  PrimeSieve.startNumber_ ps <= PrimeSieve.row_low e /\
  PrimeSieve.row_high e <= PrimeSieve.stopNumber_ ps.
Proof.
  unfold PrimeSieve.in_range. rewrite andb_true_iff, !Z.leb_le. tauto.
Qed.

(** The guarded pre-list on an object whose counters are zero. *)
Lemma sieve_small_effects (ps : PrimeSieve.t) :
  PrimeSieve.callable ps ->
  PrimeSieve.counts_ ps = repeat 0 PrimeSieve.COUNTS_SIZE ->
  exists ps',
    PrimeSieve.sieve_small ps = Ok ps' /\
    same_settings ps ps' /\
    PrimeSieve.cout ps' = (PrimeSieve.cout ps ++ flat_map (printed ps) PrimeSieve.prelist)%list /\
    PrimeSieve.called ps' = (PrimeSieve.called ps ++ flat_map (passed ps) PrimeSieve.prelist)%list /\
    length (PrimeSieve.counts_ ps') = PrimeSieve.COUNTS_SIZE /\
    forall j, nth j (PrimeSieve.counts_ ps') 0 =
              Z.of_nat (length (filter (counted ps j) PrimeSieve.prelist)).
Proof.
  intros Hcall Hzero. unfold PrimeSieve.sieve_small.
  destruct (PrimeSieve.startNumber_ ps <=? 5) eqn:E.
  - rewrite smallPrimes_rows.
    destruct (doSmallPrimes_effects PrimeSieve.prelist ps Hcall)
      as (ps' & Hrun & Hset & Hout & Hcb & Hlen & Hnth).
    + intros e He. rewrite Hzero, repeat_length. apply (prelist_low e He).
    + intros j. rewrite Hzero, nth_repeat_zero. simpl. lia.
    + exists ps'. split; [exact Hrun |]. split; [exact Hset |].
      split; [exact Hout |]. split; [exact Hcb |].
      split; [rewrite Hlen, Hzero; apply repeat_length |].
      intros j. rewrite Hnth, Hzero, nth_repeat_zero. lia.
  - apply Z.leb_gt in E.
    assert (Hout : forall e, In e PrimeSieve.prelist -> PrimeSieve.in_range ps e = false).
    { intros e He. destruct (PrimeSieve.in_range ps e) eqn:Er; [| reflexivity].
      apply in_range_true in Er. pose proof (prelist_low e He). lia. }
    exists ps. split; [reflexivity |]. split; [apply same_settings_refl |].
    rewrite (flat_map_nil (printed ps)), (flat_map_nil (passed ps)), !app_nil_r.
    + split; [reflexivity |]. split; [reflexivity |].
      split; [rewrite Hzero; apply repeat_length |].
      intros j. rewrite Hzero, nth_repeat_zero, filter_nil; [reflexivity |].
      intros e He. unfold counted. now rewrite (Hout e He).
    + intros e He. unfold passed. now rewrite (Hout e He).
    + intros e He. unfold printed. now rewrite (Hout e He).
Qed.

(** [sieve()] on an interval with [start <= stop]: it returns, and the
    object is the one that the pre-list, the finder and the last status
    update leave. *)
Lemma sieve_effects (ps : PrimeSieve.t) :
  PrimeSieve.callable ps ->
  PrimeSieve.startNumber_ ps <= PrimeSieve.stopNumber_ ps ->
  exists ps1,
    PrimeSieve.sieve_small (PrimeSieve.reset ps) = Ok ps1 /\
    PrimeSieve.sieve ps =
      Ok (PrimeSieve.doStatus
            (if 7 <=? PrimeSieve.stopNumber_ ps
             then PrimeSieve.finder_finish ps1
                    (if 7 <? PrimeSieve.startNumber_ ps then PrimeSieve.startNumber_ ps else 7)
             else ps1) 10).
Proof.
  intros Hcall Hle.
  destruct (reset_effects ps) as (Hset & Hzero & _).
  assert (Hcall' : PrimeSieve.callable (PrimeSieve.reset ps)).
  { destruct Hset as (_ & _ & _ & A4 & A5). unfold PrimeSieve.callable in *.
    rewrite A4, A5. exact Hcall. }
  destruct (sieve_small_effects (PrimeSieve.reset ps) Hcall' Hzero)
    as (ps1 & Hrun & Hset1 & _).
  exists ps1. split; [exact Hrun |].
  unfold PrimeSieve.sieve.
  destruct (PrimeSieve.stopNumber_ ps <? PrimeSieve.startNumber_ ps) eqn:E;
    [apply Z.ltb_lt in E; lia |].
  rewrite Hrun. cbn [bind].
  destruct (same_settings_trans _ _ _ Hset Hset1) as (A1 & A2 & _).
  rewrite A1, A2.
  destruct (7 <=? PrimeSieve.stopNumber_ ps); [| reflexivity].
  destruct (eliminateUpTo <? pmath.U32SQRT (PrimeSieve.stopNumber_ ps)); [| reflexivity].
  destruct (trial_division_safe
              (PrimeSieve.PrimeNumberGenerator_getStopNumber (PrimeSieve.stopNumber_ ps)))
    as (r & ->); [| reflexivity].
  unfold PrimeSieve.PrimeNumberGenerator_getStopNumber, pmath.U32SQRT, wrap32.
  apply Z.mod_pos_bound. lia.
Qed.

(** C3, for the rows of the code. After [reset()], the pre-list returns
    (when the callback can be called); it appends to [std::cout] the
    lines of the rows that lie in the interval and whose print flag is
    set, in the order of the list, and sets each counter to the number of
    its rows that lie in the interval and whose count flag is set. So a
    row is printed, or counted, if and only if its least element is at
    least start, its greatest element is at most stop and the flag for
    its kind is set. *)
Theorem prelist_emitted (ps : PrimeSieve.t) :
  PrimeSieve.callable ps ->
  exists ps',
    PrimeSieve.sieve_small (PrimeSieve.reset ps) = Ok ps' /\
    PrimeSieve.cout ps' =
      (PrimeSieve.cout (PrimeSieve.reset ps) ++ flat_map (printed ps) PrimeSieve.prelist)%list /\
    (forall j, nth j (PrimeSieve.counts_ ps') 0 =
               Z.of_nat (length (filter (counted ps j) PrimeSieve.prelist))) /\
    forall e, In e PrimeSieve.prelist ->
      (In (PrimeSieve.row_text e ++ PrimeSieve.endl)%string
          (flat_map (printed ps) PrimeSieve.prelist) <->
       PrimeSieve.startNumber_ ps <= PrimeSieve.row_low e /\
       PrimeSieve.row_high e <= PrimeSieve.stopNumber_ ps /\
       PrimeSieve.test (PrimeSieve.flags_ ps)
         (Z.shiftl PRINT_PRIMES (Z.of_nat (PrimeSieve.row_type e))) = true) /\
      (In e (filter (counted ps (PrimeSieve.row_type e)) PrimeSieve.prelist) <->
       PrimeSieve.startNumber_ ps <= PrimeSieve.row_low e /\
       PrimeSieve.row_high e <= PrimeSieve.stopNumber_ ps /\
       PrimeSieve.test (PrimeSieve.flags_ ps)
         (Z.shiftl COUNT_PRIMES (Z.of_nat (PrimeSieve.row_type e))) = true).
Proof.
  intros Hcall.
  destruct (reset_effects ps) as (Hset & Hzero & _).
  assert (Hcall' : PrimeSieve.callable (PrimeSieve.reset ps)).
  { destruct Hset as (_ & _ & _ & A4 & A5). unfold PrimeSieve.callable in *.
    rewrite A4, A5. exact Hcall. }
  destruct (sieve_small_effects (PrimeSieve.reset ps) Hcall' Hzero)
    as (ps' & Hrun & _ & Hout & _ & _ & Hnth).
  assert (Hp : flat_map (printed (PrimeSieve.reset ps)) PrimeSieve.prelist =
               flat_map (printed ps) PrimeSieve.prelist).
  { apply flat_map_ext. intros a. apply (same_settings_effects ps _ a Hset). }
  exists ps'. split; [exact Hrun |]. split; [rewrite Hout, Hp; reflexivity |].
  split.
  { intros j. rewrite Hnth. f_equal. f_equal. apply filter_ext.
    intros a. apply (same_settings_effects ps _ a Hset). }
  intros e He. split.
  - rewrite in_flat_map. split.
    + intros (e' & He' & Hin). unfold printed in Hin.
      destruct (PrimeSieve.in_range ps e' && PrimeSieve.test _ _) eqn:Ec; [| destruct Hin].
      destruct Hin as [Heq | []].
      assert (e = e') by (apply prelist_text_inj; auto). subst e'.
      apply andb_prop in Ec as [Er Et]. apply in_range_true in Er. tauto.
    + intros (Hlo & Hhi & Ht). exists e. split; [exact He |].
      unfold printed.
      assert (Er : PrimeSieve.in_range ps e = true) by (apply in_range_true; tauto).
      rewrite Er, Ht. simpl. now left.
  - rewrite filter_In. unfold counted. rewrite Nat.eqb_refl, andb_true_r, andb_true_iff.
    rewrite in_range_true. tauto.
Qed.

End SieveFacts.

(** C3 on the interval [0, 10] with every count and print flag set and no
    callback. *)
Lemma prelist_emitted_witness :
  @PrimeSieve.callable sample_headers (PrimeSieve.mk 0 10 65536 16383 [] 0 0 false [] []) /\
  exists ps',
    @PrimeSieve.sieve_small sample_headers
      (@PrimeSieve.reset sample_headers (PrimeSieve.mk 0 10 65536 16383 [] 0 0 false [] []))
    = Ok ps'.
Proof.
  assert (Hc : @PrimeSieve.callable sample_headers
                 (PrimeSieve.mk 0 10 65536 16383 [] 0 0 false [] [])).
  { intros Ht. vm_compute in Ht. discriminate Ht. }
  split; [exact Hc |].
  destruct (@prelist_emitted sample_headers _ Hc) as (ps' & Hrun & _).
  exists ps'. exact Hrun.
Defined.

(** C3 as the specification states it fails for the pair (2, 3): on the
    interval [2, 3] with every count and print flag set, the pre-list prints
    the lines of 2 and 3 only and counts no twin, although the least
    element of the pair is at least start and its greatest at most stop. *)
Lemma prelist_pair_2_3_counterexample :
  let ps := PrimeSieve.mk 2 3 65536 16383 [] 0 0 false [] [] in
  exists ps',
    @PrimeSieve.sieve_small sample_headers (@PrimeSieve.reset sample_headers ps) = Ok ps' /\
    ~ ((In ("(2, 3)" ++ PrimeSieve.endl)%string (PrimeSieve.cout ps') \/
        0 < PrimeSieve.getTwinCount ps') <->
       (PrimeSieve.startNumber_ ps <= 2 /\ 3 <= PrimeSieve.stopNumber_ ps)).
Proof.
  intros ps. eexists. split; [vm_compute; reflexivity |].
  intros [_ Hback].
  destruct Hback as [Hin | Hcount].
  - simpl. lia.
  - simpl in Hin. destruct Hin as [Hin | [Hin | []]]; discriminate Hin.
  - unfold PrimeSieve.getTwinCount in Hcount. simpl in Hcount. lia.
Qed.

(** ** The callback of [generatePrimes] *)

Section Callbacks.
Context {H : Headers}.

Lemma finder_finish_effects (ps : PrimeSieve.t) (lo : Z) :
  PrimeSieve.called (PrimeSieve.finder_finish ps lo) =
    (PrimeSieve.called ps ++
     finder_called lo (PrimeSieve.stopNumber_ ps) (PrimeSieve.flags_ ps))%list /\
  PrimeSieve.counts_ (PrimeSieve.finder_finish ps lo) =
    PrimeSieve.add_counts
      (PrimeSieve.PrimeNumberFinder_getCounts lo (PrimeSieve.stopNumber_ ps)
         (PrimeSieve.flags_ ps)) 0 (PrimeSieve.counts_ ps).
Proof.
  unfold PrimeSieve.finder_finish. cbv zeta.
  match goal with |- context [PrimeSieve.doStatus ?q ?s] =>
    destruct (doStatus_effects q s) as ((A1 & A2 & A3 & A4 & A5) & Hc & Hd);
    set (st := PrimeSieve.doStatus q s) in *
  end.
  unfold PrimeSieve.with_counts at 1 2.
  cbn [PrimeSieve.called PrimeSieve.counts_].
  rewrite Hc, Hd, A4. split; reflexivity.
Qed.

Lemma test_diag (x : Z) : x <> 0 -> PrimeSieve.test x x = true.
Proof.
  intros Hx. unfold PrimeSieve.test. rewrite Z.land_diag.
  destruct (x =? 0) eqn:E; [apply Z.eqb_eq in E; contradiction | reflexivity].
Qed.

(** C10. [generatePrimes(start, stop, callback)] with [start <= 3] and
    [5 <= stop] below the range limit returns, and has called the callback
    with 2 (if [start <= 2]), 3 and 5, then once for each tuplet row of the
    pre-list inside [start, stop], namely (3, 5) always and the four rows
    that begin with 5 when stop reaches 7, 11, 13 and 17, and then with
    what the finder passes. For a tuplet row the value is ['(' - '0'] as a
    [uint64_t], that is 2^64 - 8, which is no prime of the interval. *)
Theorem generatePrimes_callbacks (ps : PrimeSieve.t) (start stop : Z) :
  CALLBACK_PRIMES <> 0 ->
  0 <= start <= 3 ->
  5 <= stop < PrimeSieve.range_limit ->
  let tuplet := wrap64 (Z.of_N (N_of_ascii "(") - Z.of_N (N_of_ascii "0")) in
  tuplet = 2 ^ 64 - 8 /\
  exists ps',
    PrimeSieve.generatePrimes ps start stop true = Ok ps' /\
    PrimeSieve.called ps' =
      (PrimeSieve.called ps ++
       (if start <=? 2 then [2] else []) ++ [3; 5] ++
       [tuplet] ++
       (if 7 <=? stop then [tuplet] else []) ++
       (if 11 <=? stop then [tuplet] else []) ++
       (if 13 <=? stop then [tuplet] else []) ++
       (if 17 <=? stop then [tuplet] else []) ++
       (if 7 <=? stop then finder_called 7 stop CALLBACK_PRIMES else []))%list.
Proof.
  intros Hcb Hstart Hstop tuplet. split; [reflexivity |].
  unfold PrimeSieve.generatePrimes, PrimeSieve.setStartNumber, PrimeSieve.setStopNumber.
  assert (Hl : PrimeSieve.range_limit = 18446744030759878665) by reflexivity.
  destruct (PrimeSieve.range_limit <=? start) eqn:E1; [apply Z.leb_le in E1; lia |].
  destruct (PrimeSieve.range_limit <=? stop) eqn:E2; [apply Z.leb_le in E2; lia |].
  cbn [negb bind PrimeSieve.setFlags PrimeSieve.startNumber_ PrimeSieve.stopNumber_
       PrimeSieve.sieveSize_ PrimeSieve.flags_ PrimeSieve.counts_ PrimeSieve.segments_
       PrimeSieve.status_ PrimeSieve.callback PrimeSieve.cout PrimeSieve.called].
  set (q := PrimeSieve.mk start stop (PrimeSieve.sieveSize_ ps) CALLBACK_PRIMES
              (PrimeSieve.counts_ ps) (PrimeSieve.segments_ ps) (PrimeSieve.status_ ps)
              true (PrimeSieve.cout ps) (PrimeSieve.called ps)).
  assert (Hcall : PrimeSieve.callable q) by (intros _; reflexivity).
  destruct (sieve_effects q Hcall ltac:(simpl; lia)) as (ps1 & Hsmall & ->).
  eexists. split; [reflexivity |].
  destruct (reset_effects q) as (Hset & Hzero & Hcalled).
  assert (Hcall' : PrimeSieve.callable (PrimeSieve.reset q)).
  { destruct Hset as (_ & _ & _ & A4 & A5). unfold PrimeSieve.callable in *.
    rewrite A4, A5. exact Hcall. }
  destruct (sieve_small_effects (PrimeSieve.reset q) Hcall' Hzero)
    as (ps1' & Hrun & Hset1 & _ & Hcb1 & _).
  rewrite Hsmall in Hrun. injection Hrun as <-.
  assert (Hpassed : flat_map (passed (PrimeSieve.reset q)) PrimeSieve.prelist =
            ((if start <=? 2 then [2] else []) ++ [3; 5] ++ [tuplet] ++
             (if 7 <=? stop then [tuplet] else []) ++
             (if 11 <=? stop then [tuplet] else []) ++
             (if 13 <=? stop then [tuplet] else []) ++
             (if 17 <=? stop then [tuplet] else []))%list).
  { rewrite (flat_map_ext _ (passed q))
      by (intros a; apply (same_settings_effects q _ a Hset)).
    unfold passed, PrimeSieve.in_range, PrimeSieve.prelist.
    cbn [flat_map PrimeSieve.row_low PrimeSieve.row_high PrimeSieve.row_text
         PrimeSieve.row_type fst snd q PrimeSieve.startNumber_ PrimeSieve.stopNumber_
         PrimeSieve.flags_].
    rewrite (test_diag _ Hcb).
    repeat match goal with
           | |- context [?a <=? ?b] => destruct (Z.leb_spec a b); try lia
           end; reflexivity. }
  destruct (doStatus_effects
              (if 7 <=? PrimeSieve.stopNumber_ q
               then PrimeSieve.finder_finish ps1
                      (if 7 <? PrimeSieve.startNumber_ q then PrimeSieve.startNumber_ q else 7)
               else ps1) 10) as (_ & _ & ->).
  destruct Hset1 as (B1 & B2 & B3 & B4 & B5).
  destruct Hset as (A1 & A2 & A3 & A4 & A5).
  cbn [q PrimeSieve.startNumber_ PrimeSieve.stopNumber_].
  destruct (7 <? start) eqn:E7; [apply Z.ltb_lt in E7; lia |].
  destruct (7 <=? stop) eqn:E7s.
  - rewrite (proj1 (finder_finish_effects ps1 7)), Hcb1, Hcalled, Hpassed.
    rewrite B2, B4, A2, A4. cbn [q PrimeSieve.stopNumber_ PrimeSieve.flags_ PrimeSieve.called].
    repeat rewrite <- app_assoc. simpl. repeat rewrite <- app_assoc. reflexivity.
  - rewrite Hcb1, Hcalled, Hpassed. cbn [q PrimeSieve.called].
    rewrite !app_nil_r.
    assert (H11 : (11 <=? stop) = false) by (apply Z.leb_gt; apply Z.leb_gt in E7s; lia).
    assert (H13 : (13 <=? stop) = false) by (apply Z.leb_gt; apply Z.leb_gt in E7s; lia).
    assert (H17 : (17 <=? stop) = false) by (apply Z.leb_gt; apply Z.leb_gt in E7s; lia).
    rewrite H11, H13, H17. reflexivity.
Qed.

End Callbacks.

(** C10 on the interval [0, 20]. *)
Lemma generatePrimes_callbacks_witness :
  @CALLBACK_PRIMES sample_headers <> 0 /\ 0 <= 0 <= 3 /\
  5 <= 20 < PrimeSieve.range_limit /\
  exists ps',
    @PrimeSieve.generatePrimes sample_headers (@PrimeSieve.new sample_headers) 0 20 true
    = Ok ps'.
Proof.
  assert (H1 : @CALLBACK_PRIMES sample_headers <> 0) by (simpl; lia).
  assert (H2 : 0 <= 0 <= 3) by lia.
  assert (H3 : 5 <= 20 < PrimeSieve.range_limit) by (vm_compute; split; congruence).
  split; [exact H1 | split; [exact H2 | split; [exact H3 |]]].
  destruct (@generatePrimes_callbacks sample_headers (@PrimeSieve.new sample_headers)
              0 20 H1 H2 H3) as (_ & ps' & Hrun & _).
  exists ps'. exact Hrun.
Defined.

(** ** The constructor of CpuInfo *)

Lemma land_le_r (x y : Z) : 0 <= x -> 0 <= y -> Z.land x y <= y.
Proof.
  intros Hx Hy.
  rewrite <- (Z2N.id x Hx), <- (Z2N.id y Hy) at 1.
  rewrite <- N2Z.inj_land.
  rewrite <- (Z2N.id y Hy) at 2.
  apply N2Z.inj_le. apply N.land_le_r.
Qed.

(** The loop that counts the bits of a mask ends within the fuel it is
    given. *)
Lemma clear_bits_ends (fuel : nat) :
  forall bitmap threads : Z,
    bitmap <= Z.of_nat fuel -> exists t, CpuInfo.clear_bits fuel bitmap threads = Some t.
Proof.
  induction fuel as [| fuel IH]; intros bitmap threads Hb; simpl.
  - destruct (0 <? bitmap) eqn:E; [apply Z.ltb_lt in E; lia | eauto].
  - destruct (0 <? bitmap) eqn:E; [| eauto].
    apply Z.ltb_lt in E. apply IH.
    pose proof (land_le_r bitmap (bitmap - 1) ltac:(lia) ltac:(lia)). lia.
Qed.

Lemma journal_value_app (log : list (CpuInfo.member * Z)) (m m' : CpuInfo.member) (v acc : Z) :
  CpuInfo.journal_value (log ++ [(m', v)]) m acc =
  if CpuInfo.member_eqb m' m then v else CpuInfo.journal_value log m acc.
Proof.
  revert acc. induction log as [| [m0 v0] log IH]; intros acc; simpl; [reflexivity |].
  apply IH.
Qed.

Lemma journal_value_unassigned (log : list (CpuInfo.member * Z)) (m : CpuInfo.member) (acc : Z) :
  CpuInfo.assigned log m = false -> CpuInfo.journal_value log m acc = acc.
Proof.
  revert acc. induction log as [| [m0 v0] log IH]; intros acc Ha; simpl; [reflexivity |].
  unfold CpuInfo.assigned in Ha. simpl in Ha. apply orb_false_iff in Ha as [E Ha].
  rewrite E. apply IH. exact Ha.
Qed.

Lemma steady_ret {A : Type} (a : A) : steady (CpuInfo.ret a).
Proof. intros st Hst. simpl. auto. Qed.

Lemma steady_mbind {A B : Type} (m : CpuInfo.M A) (k : A -> CpuInfo.M B) :
  steady m -> (forall a, steady (k a)) -> steady (CpuInfo.mbind m k).
Proof.
  intros Hm Hk st Hst. unfold CpuInfo.mbind.
  specialize (Hm st Hst). destruct (m st) as [st' [a | e | w |]]; simpl in Hm |- *.
  - apply Hk. tauto.
  - tauto.
  - tauto.
  - tauto.
Qed.

Lemma steady_eval {A : Type} (r : outcome A) :
  returns_or_throws r -> steady (CpuInfo.eval r).
Proof. intros Hr st Hst. simpl. auto. Qed.

Lemma steady_this : steady CpuInfo.this.
Proof. intros st Hst. simpl. auto. Qed.

Lemma steady_set_cpuName (name : string) : steady (CpuInfo.set_cpuName name).
Proof. intros [c log] Hst. simpl. split; [exact Hst | exact I]. Qed.

Lemma member_eqb_eq (a b : CpuInfo.member) : CpuInfo.member_eqb a b = true <-> a = b.
Proof.
  destruct a, b; simpl; try (split; [discriminate | congruence]);
    try (split; reflexivity); rewrite Nat.eqb_eq; split; congruence.
Qed.

Lemma steady_assign (m : CpuInfo.member) (v : Z) :
  in_bounds m -> steady (CpuInfo.assign m v).
Proof.
  intros Hm [c log] (Hs & Hh & He & Hj). simpl in Hs, Hh, He, Hj.
  unfold CpuInfo.assign. cbn [fst snd].
  assert (Hw : exists c', CpuInfo.write c m v = Some c' /\
             length (CpuInfo.cacheSizes_ c') = 4%nat /\
             length (CpuInfo.cacheSharing_ c') = 4%nat /\
             CpuInfo.error_ c' = EmptyString /\
             forall m2, CpuInfo.read c' m2 =
                        if CpuInfo.member_eqb m m2 then v else CpuInfo.read c m2).
  { destruct m as [| | | level | level]; simpl in Hm |- *.
    - eexists. split; [reflexivity |]. simpl. repeat split; auto. intros [| | | l | l]; reflexivity.
    - eexists. split; [reflexivity |]. simpl. repeat split; auto. intros [| | | l | l]; reflexivity.
    - eexists. split; [reflexivity |]. simpl. repeat split; auto. intros [| | | l | l]; reflexivity.
    - destruct (store_spec (CpuInfo.cacheSizes_ c) level v ltac:(lia)) as (a & -> & Hl & Hn).
      eexists. split; [reflexivity |]. simpl. rewrite Hl. repeat split; auto.
      intros [| | | l | l]; simpl; try reflexivity.
      rewrite Hn. rewrite Nat.eqb_sym. reflexivity.
    - destruct (store_spec (CpuInfo.cacheSharing_ c) level v ltac:(lia)) as (a & -> & Hl & Hn).
      eexists. split; [reflexivity |]. simpl. rewrite Hl. repeat split; auto.
      intros [| | | l | l]; simpl; try reflexivity.
      rewrite Hn. rewrite Nat.eqb_sym. reflexivity. }
  destruct Hw as (c' & -> & Hs' & Hh' & He' & Hr). cbn [fst snd].
  split; [| exact I]. repeat split; auto.
  intros m2. cbn [fst snd]. rewrite Hr, journal_value_app, Hj. reflexivity.
Qed.

Lemma steady_for_each {A : Type} (xs : list A) (body : A -> CpuInfo.M unit) :
  (forall x, steady (body x)) -> steady (CpuInfo.for_each xs body).
Proof.
  intros Hb. induction xs as [| x xs IH]; simpl.
  - apply steady_ret.
  - apply steady_mbind; [apply Hb | intros _; exact IH].
Qed.

Section ProbeFacts.
Context {Sys : System}.

Lemma lift_returns_or_throws {A : Type} (r : exception + A) :
  returns_or_throws (CpuInfo.lift r).
Proof. destruct r; exact I. Qed.

Lemma parseThreadMap_chars_ends (str : string) :
  forall threads, returns_or_throws (CpuInfo.parseThreadMap_chars str threads).
Proof.
  induction str as [| c rest IH]; intros threads; simpl; [exact I |].
  destruct (stoul (String c EmptyString) 16) as [e | bitmap]; [exact I |].
  destruct (clear_bits_ends (Z.to_nat bitmap) bitmap threads) as (t & ->); [lia |].
  apply IH.
Qed.

Lemma parseThreadMap_tokens_ends (tokens : list string) :
  forall threads, returns_or_throws (CpuInfo.parseThreadMap_tokens tokens threads).
Proof.
  induction tokens as [| str rest IH]; intros threads; simpl; [exact I |].
  pose proof (parseThreadMap_chars_ends str threads) as Hc.
  destruct (CpuInfo.parseThreadMap_chars str threads); try exact Hc. apply IH.
Qed.

Lemma getThreads_ends (threadList threadMap : string) :
  returns_or_throws (CpuInfo.getThreads threadList threadMap).
Proof.
  unfold CpuInfo.getThreads.
  pose proof (lift_returns_or_throws (CpuInfo.parseThreadList threadList)) as Hl.
  destruct (CpuInfo.lift (CpuInfo.parseThreadList threadList)); try exact Hl.
  destruct (negb (a =? 0)); [exact I |].
  apply parseThreadMap_tokens_ends.
Qed.

Lemma steady_cache_index (i : Z) : steady (CpuInfo.cache_index i).
Proof.
  unfold CpuInfo.cache_index. cbv zeta.
  apply steady_mbind; [apply steady_eval, lift_returns_or_throws | intros level].
  destruct ((1 <=? level) && (level <=? 3)) eqn:E; [| apply steady_ret].
  apply andb_prop in E as [E1 E3]. apply Z.leb_le in E1, E3.
  destruct (_ || _); [| apply steady_ret].
  apply steady_mbind; [apply steady_eval, lift_returns_or_throws | intros v].
  apply steady_mbind; [apply steady_assign; simpl; lia | intros _].
  apply steady_mbind; [apply steady_eval, getThreads_ends | intros w].
  apply steady_assign. simpl. lia.
Qed.

Lemma steady_init : steady CpuInfo.init.
Proof.
  unfold CpuInfo.init. cbv zeta.
  apply steady_mbind; [apply steady_set_cpuName | intros _].
  apply steady_mbind; [apply steady_eval, lift_returns_or_throws | intros v].
  apply steady_mbind; [apply steady_assign; exact I | intros _].
  apply steady_mbind; [apply steady_eval, getThreads_ends | intros w].
  apply steady_mbind; [apply steady_assign; exact I | intros _].
  apply steady_mbind; [apply steady_this | intros c].
  apply steady_mbind.
  - destruct (_ && _); [apply steady_assign; exact I | apply steady_ret].
  - intros _. apply steady_for_each. intros i. apply steady_cache_index.
Qed.

Lemma consistent_zero : consistent (CpuInfo.zero, []).
Proof.
  repeat split.
  intros [| | | [| [| [| [| l]]]] | [| [| [| [| l]]]]]; try reflexivity;
    destruct l; reflexivity.
Qed.


End ProbeFacts.

(** The probe on the sample machine completes, and on the damaged one it
    stops at the first file: the message is stored and every numeric member
    is still zero. *)
Example construct_sample :
  @CpuInfo.new (sample_system sample_files) =
  Ok (CpuInfo.mk "Sample CPU @ 2.00GHz" 1 2 2 [0; 32768; 262144; 0] [0; 2; 2; 0] "").
Proof. vm_compute. reflexivity. Qed.

Example construct_damaged :
  @CpuInfo.new (sample_system damaged_files) =
  Ok (CpuInfo.mk "Sample CPU @ 2.00GHz" 0 0 0 [0; 0; 0; 0] [0; 0; 0; 0] "stoul").
Proof. vm_compute. reflexivity. Qed.

Example construct_damaged_l2 :
  @CpuInfo.new (sample_system damaged_l2_files) =
  Ok (CpuInfo.mk "Sample CPU @ 2.00GHz" 1 2 2 [0; 32768; 0; 0] [0; 2; 0; 0] "stoul").
Proof. vm_compute. reflexivity. Qed.

(** ** More on the driver *)

(** X1. A size that [setSieveSize] accepts is the size that [getSieveSize]
    returns afterwards, and the call changes nothing else that a user
    set. *)
Theorem setSieveSize_getSieveSize (ps ps' : PrimeSieve.t) (sieveSize : Z) :
  PrimeSieve.setSieveSize ps sieveSize = Ok ps' ->
  PrimeSieve.getSieveSize ps' = sieveSize /\
  PrimeSieve.startNumber_ ps' = PrimeSieve.startNumber_ ps /\
  PrimeSieve.stopNumber_ ps' = PrimeSieve.stopNumber_ ps /\
  PrimeSieve.flags_ ps' = PrimeSieve.flags_ ps /\
  PrimeSieve.counts_ ps' = PrimeSieve.counts_ ps.
Proof.
  unfold PrimeSieve.setSieveSize.
  destruct ((sieveSize <? 1) || (8192 <? sieveSize)) eqn:E; [discriminate |].
  destruct (negb (pmath.isPowerOf2 sieveSize)); [discriminate |].
  apply orb_false_iff in E as [E1 E2]. apply Z.ltb_ge in E1, E2.
  intros Heq. injection Heq as <-. unfold PrimeSieve.getSieveSize. simpl.
  split; [| repeat split].
  unfold wrap32. rewrite Z.mod_small by lia. apply Z.div_mul. lia.
Qed.

(** X1 for 32 kilobytes on a new object. *)
Lemma setSieveSize_getSieveSize_witness :
  exists ps',
    PrimeSieve.setSieveSize (@PrimeSieve.new sample_headers) 32 = Ok ps' /\
    PrimeSieve.getSieveSize ps' = 32.
Proof.
  eexists. split; [vm_compute; reflexivity |].
  refine (proj1 (setSieveSize_getSieveSize (@PrimeSieve.new sample_headers) _ 32 _)).
  vm_compute. reflexivity.
Defined.

Lemma nth_add_counts (f : nat -> Z) (cs : list Z) :
  forall i j, (j < length cs)%nat ->
    nth j (PrimeSieve.add_counts f i cs) 0 = wrap64 (nth j cs 0 + f (i + j)%nat).
Proof.
  induction cs as [| c cs IH]; intros i j Hj; simpl in Hj; [lia |].
  destruct j as [| j]; simpl.
  - now rewrite Nat.add_0_r.
  - rewrite IH by lia. do 3 f_equal. lia.
Qed.

Lemma add_counts_length (f : nat -> Z) (cs : list Z) :
  forall i, length (PrimeSieve.add_counts f i cs) = length cs.
Proof.
  induction cs as [| c cs IH]; intros i; simpl; [reflexivity | now rewrite IH].
Qed.

Lemma nth_ext_zero (a b : list Z) :
  length a = length b -> (forall j, nth j a 0 = nth j b 0) -> a = b.
Proof.
  revert b. induction a as [| x a IH]; intros [| y b] Hlen Hnth; simpl in Hlen;
    try discriminate; [reflexivity |].
  f_equal.
  - exact (Hnth 0%nat).
  - apply IH; [lia |]. intros j. exact (Hnth (S j)).
Qed.

Section DriverMore.
Context {H : Headers}.

Lemma finder_finish_settings (ps : PrimeSieve.t) (lo : Z) :
  same_settings ps (PrimeSieve.finder_finish ps lo) /\
  length (PrimeSieve.counts_ (PrimeSieve.finder_finish ps lo)) = length (PrimeSieve.counts_ ps).
Proof.
  unfold PrimeSieve.finder_finish. cbv zeta.
  match goal with |- context [PrimeSieve.doStatus ?q ?s] =>
    destruct (doStatus_effects q s) as ((A1 & A2 & A3 & A4 & A5) & Hc & Hd);
    set (st := PrimeSieve.doStatus q s) in *
  end.
  unfold PrimeSieve.with_counts.
  cbn [PrimeSieve.startNumber_ PrimeSieve.stopNumber_ PrimeSieve.sieveSize_
       PrimeSieve.flags_ PrimeSieve.callback PrimeSieve.counts_].
  split.
  - repeat split; assumption.
  - rewrite add_counts_length, Hc. reflexivity.
Qed.

(** The counters after [sieve()]. *)
Lemma sieve_counters (ps : PrimeSieve.t) :
  PrimeSieve.callable ps ->
  PrimeSieve.startNumber_ ps <= PrimeSieve.stopNumber_ ps ->
  exists ps',
    PrimeSieve.sieve ps = Ok ps' /\
    same_settings ps ps' /\
    length (PrimeSieve.counts_ ps') = PrimeSieve.COUNTS_SIZE /\
    forall j, (j < PrimeSieve.COUNTS_SIZE)%nat ->
      nth j (PrimeSieve.counts_ ps') 0 =
      let small := Z.of_nat (length (filter (counted ps j) PrimeSieve.prelist)) in
      if 7 <=? PrimeSieve.stopNumber_ ps
      then wrap64 (small +
                   PrimeSieve.PrimeNumberFinder_getCounts
                     (if 7 <? PrimeSieve.startNumber_ ps then PrimeSieve.startNumber_ ps else 7)
                     (PrimeSieve.stopNumber_ ps) (PrimeSieve.flags_ ps) j)
      else small.
Proof.
  intros Hcall Hle.
  destruct (sieve_effects ps Hcall Hle) as (ps1 & Hsmall & Hsieve).
  eexists. split; [exact Hsieve |].
  destruct (reset_effects ps) as (Hset & Hzero & _).
  assert (Hcall' : PrimeSieve.callable (PrimeSieve.reset ps)).
  { destruct Hset as (_ & _ & _ & A4 & A5). unfold PrimeSieve.callable in *.
    rewrite A4, A5. exact Hcall. }
  destruct (sieve_small_effects (PrimeSieve.reset ps) Hcall' Hzero)
    as (ps1' & Hrun & Hset1 & _ & _ & Hlen & Hnth).
  rewrite Hsmall in Hrun. injection Hrun as <-.
  pose proof (same_settings_trans _ _ _ Hset Hset1) as Hs1.
  assert (Hpre : forall j, nth j (PrimeSieve.counts_ ps1) 0 =
             Z.of_nat (length (filter (counted ps j) PrimeSieve.prelist))).
  { intros j. rewrite Hnth. do 2 f_equal. apply filter_ext.
    intros a. apply (same_settings_effects ps _ a Hset). }
  match goal with |- context [PrimeSieve.doStatus ?x 10] =>
    destruct (doStatus_effects x 10) as (Hsd & Hcd & _); rewrite Hcd
  end.
  destruct (7 <=? PrimeSieve.stopNumber_ ps) eqn:E7.
  - destruct (finder_finish_settings ps1
                (if 7 <? PrimeSieve.startNumber_ ps then PrimeSieve.startNumber_ ps else 7))
      as (Hsf & Hlf).
    split; [exact (same_settings_trans _ _ _ Hs1 (same_settings_trans _ _ _ Hsf Hsd)) |].
    split; [rewrite Hlf; exact Hlen |].
    intros j Hj. cbv zeta.
    rewrite (proj2 (finder_finish_effects ps1 _)).
    rewrite nth_add_counts by (rewrite Hlen; exact Hj).
    destruct Hs1 as (_ & A2 & _ & A4 & _). rewrite Hpre, A2, A4. reflexivity.
  - split; [exact (same_settings_trans _ _ _ Hs1 Hsd) |].
    split; [exact Hlen |]. intros j _. apply Hpre.
Qed.

(** X2. [sieve()] on an interval with [start <= stop] changes neither the
    interval nor the sieve size, the flags or the callback, and it starts
    from zeroed counters: sieving the object once more gives the same seven
    counters again. *)
Theorem sieve_repeatable (ps : PrimeSieve.t) :
  PrimeSieve.callable ps ->
  PrimeSieve.startNumber_ ps <= PrimeSieve.stopNumber_ ps ->
  exists ps1 ps2,
    PrimeSieve.sieve ps = Ok ps1 /\ PrimeSieve.sieve ps1 = Ok ps2 /\
    same_settings ps ps1 /\
    length (PrimeSieve.counts_ ps1) = 7%nat /\
    PrimeSieve.counts_ ps2 = PrimeSieve.counts_ ps1.
Proof.
  intros Hcall Hle.
  destruct (sieve_counters ps Hcall Hle) as (ps1 & Hrun1 & Hs1 & Hl1 & Hn1).
  assert (Hcall1 : PrimeSieve.callable ps1)
    by exact (proj2 (proj2 (proj2 (same_settings_effects ps ps1 (0, 0, 0%nat, EmptyString) Hs1))) Hcall).
  destruct Hs1 as (A1 & A2 & A3 & A4 & A5).
  destruct (sieve_counters ps1 Hcall1 ltac:(lia)) as (ps2 & Hrun2 & Hs2 & Hl2 & Hn2).
  exists ps1, ps2. split; [exact Hrun1 |]. split; [exact Hrun2 |].
  split; [repeat split; assumption |]. split; [exact Hl1 |].
  apply nth_ext_zero; [congruence |].
  intros j. destruct (Nat.lt_ge_cases j PrimeSieve.COUNTS_SIZE) as [Hj | Hj].
  - rewrite (Hn1 j Hj), (Hn2 j Hj). cbv zeta. rewrite A1, A2, A4.
    assert (Hf : filter (counted ps1 j) PrimeSieve.prelist =
                 filter (counted ps j) PrimeSieve.prelist).
    { apply filter_ext. intros a.
      apply (same_settings_effects ps ps1 a). repeat split; assumption. }
    rewrite Hf. reflexivity.
  - rewrite !nth_overflow by lia. reflexivity.
Qed.

End DriverMore.
Lemma filter_length_impl {A : Type} (f g : A -> bool) (l : list A) :
  (forall a, f a = true -> g a = true) ->
  (length (filter f l) <= length (filter g l))%nat.
Proof.
  intros Hfg. induction l as [| a l IH]; simpl; [lia |].
  destruct (f a) eqn:Ef.
  - rewrite (Hfg a Ef). simpl. lia.
  - destruct (g a); simpl; lia.
Qed.

Section DriverOutput.
Context {H : Headers}.

Lemma doStatus_cout (ps : PrimeSieve.t) (segment : Z) :
  PrimeSieve.test (PrimeSieve.flags_ ps) PRINT_STATUS = false ->
  PrimeSieve.cout (PrimeSieve.doStatus ps segment) = PrimeSieve.cout ps.
Proof.
  intros Ht. unfold PrimeSieve.doStatus. cbv zeta.
  unfold PrimeSieve.with_status at 1. cbn [PrimeSieve.flags_]. rewrite Ht. reflexivity.
Qed.

Lemma reset_cout (ps : PrimeSieve.t) :
  PrimeSieve.test (PrimeSieve.flags_ ps) PRINT_STATUS = false ->
  PrimeSieve.cout (PrimeSieve.reset ps) = PrimeSieve.cout ps.
Proof.
  intros Ht. unfold PrimeSieve.reset. rewrite doStatus_cout; [reflexivity | exact Ht].
Qed.

Lemma finder_finish_cout (ps : PrimeSieve.t) (lo : Z) :
  PrimeSieve.test (PrimeSieve.flags_ ps) PRINT_STATUS = false ->
  PrimeSieve.cout (PrimeSieve.finder_finish ps lo) =
  (PrimeSieve.cout ps ++
   finder_cout lo (PrimeSieve.stopNumber_ ps) (PrimeSieve.sieveSize_ ps)
     (PrimeSieve.flags_ ps))%list.
Proof.
  intros Ht. unfold PrimeSieve.finder_finish. cbv zeta.
  unfold PrimeSieve.with_counts. cbn [PrimeSieve.cout].
  rewrite doStatus_cout; [reflexivity | exact Ht].
Qed.

(** X3. Without [PRINT_STATUS], [sieve()] appends to [std::cout] the lines
    of the pre-list rows inside the interval whose print flag is set and
    then what the finder writes, and nothing else. *)
Theorem sieve_output (ps : PrimeSieve.t) :
  PrimeSieve.callable ps ->
  PrimeSieve.startNumber_ ps <= PrimeSieve.stopNumber_ ps ->
  PrimeSieve.test (PrimeSieve.flags_ ps) PRINT_STATUS = false ->
  exists ps',
    PrimeSieve.sieve ps = Ok ps' /\
    PrimeSieve.cout ps' =
      (PrimeSieve.cout ps ++ flat_map (printed ps) PrimeSieve.prelist ++
       (if 7 <=? PrimeSieve.stopNumber_ ps
        then finder_cout
               (if 7 <? PrimeSieve.startNumber_ ps then PrimeSieve.startNumber_ ps else 7)
               (PrimeSieve.stopNumber_ ps) (PrimeSieve.sieveSize_ ps) (PrimeSieve.flags_ ps)
        else []))%list.
Proof.
  intros Hcall Hle Hst.
  destruct (sieve_effects ps Hcall Hle) as (ps1 & Hsmall & Hsieve).
  eexists. split; [exact Hsieve |].
  destruct (reset_effects ps) as (Hset & Hzero & _).
  assert (Hcall' : PrimeSieve.callable (PrimeSieve.reset ps)).
  { destruct Hset as (_ & _ & _ & A4 & A5). unfold PrimeSieve.callable in *.
    rewrite A4, A5. exact Hcall. }
  destruct (sieve_small_effects (PrimeSieve.reset ps) Hcall' Hzero)
    as (ps1' & Hrun & Hset1 & Hout & _).
  rewrite Hsmall in Hrun. injection Hrun as <-.
  destruct (same_settings_trans _ _ _ Hset Hset1) as (B1 & B2 & B3 & B4 & B5).
  assert (Hp : flat_map (printed (PrimeSieve.reset ps)) PrimeSieve.prelist =
               flat_map (printed ps) PrimeSieve.prelist).
  { apply flat_map_ext. intros a. apply (same_settings_effects ps _ a Hset). }
  rewrite Hp, reset_cout in Hout by exact Hst.
  assert (Hst1 : PrimeSieve.test (PrimeSieve.flags_ ps1) PRINT_STATUS = false)
    by (rewrite B4; exact Hst).
  destruct (7 <=? PrimeSieve.stopNumber_ ps).
  - rewrite doStatus_cout.
    + rewrite finder_finish_cout by exact Hst1.
      rewrite Hout, B2, B3, B4. now rewrite app_assoc.
    + destruct (finder_finish_settings ps1
        (if 7 <? PrimeSieve.startNumber_ ps then PrimeSieve.startNumber_ ps else 7))
        as ((_ & _ & _ & C4 & _) & _).
      rewrite C4. exact Hst1.
  - rewrite doStatus_cout by exact Hst1. rewrite Hout, app_nil_r. reflexivity.
Qed.

(** X4. Each of the seven counters after [sieve()] is the number of
    pre-list rows of its kind inside the interval (when its count flag is
    set) plus, once stop reaches 7, the counter of the finder for
    [max(start, 7) .. stop]. The pre-list adds at most three primes, two
    twins and one triplet, quadruplet and quintuplet, and nothing to the
    counters of sextuplets and septuplets. *)
Theorem sieve_counters_sum (ps : PrimeSieve.t) :
  PrimeSieve.callable ps ->
  PrimeSieve.startNumber_ ps <= PrimeSieve.stopNumber_ ps ->
  exists ps',
    PrimeSieve.sieve ps = Ok ps' /\
    forall j, (j < 7)%nat ->
      let small := Z.of_nat (length (filter (counted ps j) PrimeSieve.prelist)) in
      nth j (PrimeSieve.counts_ ps') 0 =
        (if 7 <=? PrimeSieve.stopNumber_ ps
         then wrap64 (small +
                PrimeSieve.PrimeNumberFinder_getCounts
                  (if 7 <? PrimeSieve.startNumber_ ps then PrimeSieve.startNumber_ ps else 7)
                  (PrimeSieve.stopNumber_ ps) (PrimeSieve.flags_ ps) j)
         else small) /\
      0 <= small <= match j with
                    | 0%nat => 3
                    | 1%nat => 2
                    | 2%nat | 3%nat | 4%nat => 1
                    | _ => 0
                    end.
Proof.
  intros Hcall Hle.
  destruct (sieve_counters ps Hcall Hle) as (ps' & Hrun & _ & _ & Hn).
  exists ps'. split; [exact Hrun |].
  intros j Hj small. split; [apply (Hn j Hj) |].
  subst small. split; [lia |].
  pose proof (filter_length_impl (counted ps j)
                (fun e => (j =? PrimeSieve.row_type e)%nat) PrimeSieve.prelist) as Hb.
  assert (Himp : forall a, counted ps j a = true -> (j =? PrimeSieve.row_type a)%nat = true).
  { intros a Ha. unfold counted in Ha. apply andb_prop in Ha as [_ Ha]. exact Ha. }
  specialize (Hb Himp).
  do 7 (destruct j as [| j];
        [match type of Hb with
         | (_ <= ?r)%nat => let v := eval vm_compute in r in change r with v in Hb
         end; lia |]).
  lia.
Qed.

End DriverOutput.

(** X2 on the interval [0, 100], counting primes. *)
Lemma sieve_repeatable_witness :
  @PrimeSieve.callable sample_headers (PrimeSieve.mk 0 100 65536 1 [] 0 0 false [] []) /\
  0 <= 100 /\
  exists ps1 ps2,
    @PrimeSieve.sieve sample_headers (PrimeSieve.mk 0 100 65536 1 [] 0 0 false [] []) = Ok ps1 /\
    @PrimeSieve.sieve sample_headers ps1 = Ok ps2 /\
    PrimeSieve.counts_ ps2 = PrimeSieve.counts_ ps1.
Proof.
  assert (Hc : @PrimeSieve.callable sample_headers
                 (PrimeSieve.mk 0 100 65536 1 [] 0 0 false [] [])).
  { intros Ht. vm_compute in Ht. discriminate Ht. }
  assert (Hle : 0 <= 100) by lia.
  split; [exact Hc |]. split; [exact Hle |].
  destruct (@sieve_repeatable sample_headers _ Hc Hle)
    as (ps1 & ps2 & H1 & H2 & _ & _ & H3).
  exists ps1, ps2. split; [exact H1 |]. split; [exact H2 | exact H3].
Defined.

(** X3 on the interval [0, 10] with the print flag of primes set. *)
Lemma sieve_output_witness :
  @PrimeSieve.callable sample_headers (PrimeSieve.mk 0 10 65536 128 [] 0 0 false [] []) /\
  0 <= 10 /\
  PrimeSieve.test 128 (@PRINT_STATUS sample_headers) = false /\
  exists ps',
    @PrimeSieve.sieve sample_headers (PrimeSieve.mk 0 10 65536 128 [] 0 0 false [] []) = Ok ps' /\
    PrimeSieve.cout ps' = [("2" ++ PrimeSieve.endl)%string; ("3" ++ PrimeSieve.endl)%string;
                           ("5" ++ PrimeSieve.endl)%string].
Proof.
  assert (Hc : @PrimeSieve.callable sample_headers
                 (PrimeSieve.mk 0 10 65536 128 [] 0 0 false [] [])).
  { intros Ht. vm_compute in Ht. discriminate Ht. }
  assert (Hle : 0 <= 10) by lia.
  assert (Hst : PrimeSieve.test 128 (@PRINT_STATUS sample_headers) = false) by reflexivity.
  split; [exact Hc |]. split; [exact Hle |]. split; [exact Hst |].
  destruct (@sieve_output sample_headers _ Hc Hle Hst) as (ps' & Hrun & Hout).
  exists ps'. split; [exact Hrun | exact Hout].
Defined.

(** X4 on the interval [3, 6] with every count flag set. *)
Lemma sieve_counters_sum_witness :
  @PrimeSieve.callable sample_headers (PrimeSieve.mk 3 6 65536 127 [] 0 0 false [] []) /\
  3 <= 6 /\
  exists ps',
    @PrimeSieve.sieve sample_headers (PrimeSieve.mk 3 6 65536 127 [] 0 0 false [] []) = Ok ps' /\
    nth 0 (PrimeSieve.counts_ ps') 0 = 2 /\ nth 1 (PrimeSieve.counts_ ps') 0 = 1.
Proof.
  assert (Hc : @PrimeSieve.callable sample_headers
                 (PrimeSieve.mk 3 6 65536 127 [] 0 0 false [] [])).
  { intros Ht. vm_compute in Ht. discriminate Ht. }
  assert (Hle : 3 <= 6) by lia.
  split; [exact Hc |]. split; [exact Hle |].
  destruct (@sieve_counters_sum sample_headers _ Hc Hle) as (ps' & Hrun & Hn).
  exists ps'. split; [exact Hrun |].
  split; [exact (proj1 (Hn 0%nat ltac:(lia))) | exact (proj1 (Hn 1%nat ltac:(lia)))].
Defined.


(** *** The counting call *)

Section DriverCalls.
Context {H : Headers}.

(** X6. A call [getPrimeCount(start, stop)] on a valid interval returns,
    whatever the settings of the object were: it replaces the interval and
    the flags, which become [COUNT_PRIMES] alone, keeps the sieve size, and
    returns counter 0 of the seven counters it leaves. *)
Theorem getPrimeCount_settings (ps : PrimeSieve.t) (start stop : Z) :
  Z.land COUNT_PRIMES CALLBACK_PRIMES = 0 ->
  start <= stop < PrimeSieve.range_limit ->
  exists n ps',
    PrimeSieve.getPrimeCount ps start stop = Ok (n, ps') /\
    PrimeSieve.getStartNumber ps' = start /\ PrimeSieve.getStopNumber ps' = stop /\
    PrimeSieve.getFlags ps' = COUNT_PRIMES /\
    PrimeSieve.getSieveSize ps' = PrimeSieve.getSieveSize ps /\
    length (PrimeSieve.counts_ ps') = 7%nat /\
    PrimeSieve.getCounts ps' 0 = Ok n.
Proof.
  intros Hdisj Hr.
  unfold PrimeSieve.getPrimeCount, PrimeSieve.setStartNumber, PrimeSieve.setStopNumber.
  destruct (PrimeSieve.range_limit <=? start) eqn:E1; [apply Z.leb_le in E1; lia |].
  cbn [bind]. destruct (PrimeSieve.range_limit <=? stop) eqn:E2; [apply Z.leb_le in E2; lia |].
  cbn [bind PrimeSieve.startNumber_ PrimeSieve.stopNumber_ PrimeSieve.sieveSize_
       PrimeSieve.flags_ PrimeSieve.counts_ PrimeSieve.segments_ PrimeSieve.status_
       PrimeSieve.callback PrimeSieve.cout PrimeSieve.called PrimeSieve.setFlags].
  match goal with |- context [PrimeSieve.sieve ?q] =>
    destruct (sieve_counters q) as (ps' & Hrun & Hset & Hlen & _)
  end.
  - intros Ht. unfold PrimeSieve.test in Ht. simpl in Ht.
    rewrite Hdisj in Ht. discriminate Ht.
  - simpl. lia.
  - rewrite Hrun. cbn [bind]. destruct Hset as (A1 & A2 & A3 & A4 & _).
    simpl in A1, A2, A3, A4.
    eexists _, ps'. split; [reflexivity |].
    unfold PrimeSieve.getStartNumber, PrimeSieve.getStopNumber, PrimeSieve.getFlags,
      PrimeSieve.getSieveSize, PrimeSieve.getCounts, PrimeSieve.getPrimeCount_void.
    rewrite A1, A2, A3, A4. repeat split. exact Hlen.
Qed.

End DriverCalls.

(** X6 on the interval [10, 30], read on an object that was asked to print
    primes. *)
Lemma getPrimeCount_settings_witness :
  Z.land (@COUNT_PRIMES sample_headers) (@CALLBACK_PRIMES sample_headers) = 0 /\
  10 <= 30 < PrimeSieve.range_limit /\
  exists n ps',
    @PrimeSieve.getPrimeCount sample_headers
      (PrimeSieve.mk 0 5 65536 128 [] 0 0 false [] []) 10 30 = Ok (n, ps') /\
    PrimeSieve.getFlags ps' = 1.
Proof.
  assert (H1 : Z.land (@COUNT_PRIMES sample_headers) (@CALLBACK_PRIMES sample_headers) = 0)
    by reflexivity.
  assert (H2 : 10 <= 30 < PrimeSieve.range_limit) by (vm_compute; split; congruence).
  split; [exact H1 |]. split; [exact H2 |].
  destruct (@getPrimeCount_settings sample_headers
              (PrimeSieve.mk 0 5 65536 128 [] 0 0 false [] []) 10 30 H1 H2)
    as (n & ps' & Hrun & _ & _ & Hf & _).
  exists n, ps'. split; [exact Hrun | exact Hf].
Defined.


(** ** What the trial division finds *)

Lemma prime_odd (q : Z) : prime q -> 3 <= q -> q mod 2 = 1.
Proof.
  intros Hq H3. apply prime_alt in Hq. destruct Hq as [_ Hq].
  pose proof (Z.mod_pos_bound q 2 ltac:(lia)) as Hb.
  destruct (Z.eq_dec (q mod 2) 0) as [E | E]; [| lia].
  exfalso. apply (Hq 2); [lia |]. apply Z.mod_divide; [lia | exact E].
Qed.

(** A round finds its candidate prime exactly when it is prime. *)
Lemma trial_step_found (keep n : Z) (primes primes' : list Z) (found : bool) :
  n < 2 ^ 32 -> Z.sqrt n <= keep ->
  trial_invariant keep n primes ->
  PrimeSieve.trial_step keep n primes = Ok (primes', found) ->
  (found = true <-> prime n).
Proof.
  intros Hn32 Hsk (Hn & Hodd & Hall & Hsorted & Hfull) Hstep.
  unfold PrimeSieve.trial_step in Hstep.
  rewrite U32SQRT_small in Hstep by lia.
  destruct (PrimeSieve.scan_from primes n (Z.sqrt n) 0) as [[i p] |] eqn:Escan;
    [| discriminate].
  destruct (scan_from_prefix _ _ _ _ _ _ Escan) as (before & after & Heq & Hbefore & Hp).
  assert (Hp_in : In p primes) by (rewrite Heq; apply in_or_app; right; now left).
  assert (Hp_prime : prime p /\ 3 <= p < n).
  { rewrite Forall_forall in Hall. now apply Hall. }
  destruct (Z.sqrt n <? p) eqn:Esp.
  - apply Z.ltb_lt in Esp. injection Hstep as _ <-.
    split; [intros _ | reflexivity].
    apply odd_without_small_factor; [exact Hn | exact Hodd |].
    intros q Hq Hqr Hdiv.
    assert (Hq_in : In q primes).
    { apply Hfull; [exact Hq | | lia].
      pose proof (Z.sqrt_lt_lin n ltac:(lia)). lia. }
    rewrite Heq in Hq_in. apply in_app_or in Hq_in as [Hb | [Hb | Hb]].
    + destruct (Hbefore q Hb) as [_ Hnd]. apply Hnd. apply Z.mod_divide; [lia | exact Hdiv].
    + lia.
    + rewrite Heq in Hsorted. pose proof (sorted_after _ _ _ Hsorted q Hb). lia.
  - apply Z.ltb_ge in Esp. injection Hstep as _ <-.
    split; [discriminate | intros Hpn; exfalso].
    destruct Hp as [Hp | Hp]; [lia |].
    apply prime_alt in Hpn. destruct Hpn as [_ Hpn].
    apply (Hpn p); [lia |]. apply Z.mod_divide; [lia | exact Hp].
Qed.

Section TrialResult.
Context {H : Headers}.

(** What a run of the loop that returns leaves behind. *)
Lemma trial_loop_result (stop keep : Z) :
  0 <= stop < 2 ^ 16 -> keep = Z.sqrt stop ->
  forall (fuel : nat) (n : Z) (primes sieved primes' sieved' : list Z),
    trial_invariant keep n primes ->
    StronglySorted Z.lt sieved -> Forall (fun e => e < n) sieved ->
    PrimeSieve.trial_loop fuel stop keep n primes sieved = Ok (primes', sieved') ->
    (exists n', stop < n' /\ n <= n' /\ (stop < n -> n' = n) /\ (n <= stop -> n' <= stop + 2) /\
                trial_invariant keep n' primes') /\
    StronglySorted Z.lt sieved' /\
    forall x, In x sieved' <->
              In x sieved \/ (prime x /\ n <= x <= stop /\ eliminateUpTo < x).
Proof.
  intros Hstop Hkeep.
  assert (Hk : 0 <= keep <= 255).
  { subst keep. split; [apply Z.sqrt_nonneg |].
    assert (Z.sqrt stop < 256); [| lia]. apply sqrt_below; [| lia].
    change (256 * 256) with (2 ^ 16). exact Hstop. }
  induction fuel as [| fuel IH]; intros n primes sieved primes' sieved' Hinv Hs Hlt Hrun;
    simpl in Hrun; [discriminate |].
  destruct (n <=? stop) eqn:E.
  - apply Z.leb_le in E.
    destruct (PrimeSieve.trial_step keep n primes) as [[p1 found] | | |] eqn:Estep;
      try discriminate.
    assert (Hn5 : 5 <= n) by apply Hinv.
    assert (Hsq : Z.sqrt n <= keep) by (subst keep; apply Z.sqrt_le_mono; lia).
    pose proof (trial_step_found keep n primes p1 found ltac:(lia) Hsq Hinv Estep) as Hfound.
    pose proof (trial_step_invariant keep n primes p1 found Hk ltac:(lia) Hsq Hinv Estep)
      as Hinv'.
    assert (Hw : wrap32 (n + 2) = n + 2) by (unfold wrap32; apply Z.mod_small; lia).
    rewrite Hw in Hrun.
    set (sieved1 := if found && (eliminateUpTo <? n) then (sieved ++ [n])%list else sieved) in *.
    assert (Hs1 : StronglySorted Z.lt sieved1).
    { subst sieved1. destruct (found && (eliminateUpTo <? n)); [| exact Hs].
      apply sorted_push; assumption. }
    assert (Hlt1 : Forall (fun e => e < n + 2) sieved1).
    { subst sieved1. destruct (found && (eliminateUpTo <? n)).
      - apply Forall_app. split.
        + eapply Forall_impl; [| exact Hlt]. intros e He. simpl in He. lia.
        + constructor; [lia | constructor].
      - eapply Forall_impl; [| exact Hlt]. intros e He. simpl in He. lia. }
    destruct (IH (n + 2) p1 sieved1 primes' sieved' Hinv' Hs1 Hlt1 Hrun)
      as ((n' & Hn1 & Hn2 & Hn3 & Hn4 & Hinv'') & Hsorted' & Hmem).
    split.
    { exists n'. split; [exact Hn1 |]. split; [lia |]. split; [lia |]. split; [| exact Hinv''].
      intros _. destruct (Z.le_gt_cases (n + 2) stop); [apply Hn4; lia |].
      rewrite Hn3; lia. }
    split; [exact Hsorted' |].
    intros x. rewrite Hmem.
    assert (Hin1 : In x sieved1 <-> In x sieved \/ (x = n /\ prime n /\ eliminateUpTo < n)).
    { subst sieved1. destruct found.
      - destruct (eliminateUpTo <? n) eqn:El; simpl andb; cbv iota.
        + apply Z.ltb_lt in El. rewrite in_app_iff. simpl.
          split; [intros [Hx | [<- | []]] | intros [Hx | (-> & _)]]; auto.
          right. split; [reflexivity |]. split; [apply Hfound; reflexivity | exact El].
        + apply Z.ltb_ge in El. split; [auto | intros [Hx | (_ & _ & Hc)]; [exact Hx | lia]].
      - simpl andb. cbv iota.
        split; [auto | intros [Hx | (_ & Hc & _)]; [exact Hx |]].
        apply Hfound in Hc. discriminate Hc. }
    rewrite Hin1.
    assert (Hodd : n mod 2 = 1) by apply Hinv.
    split.
    + intros [[Hx | (-> & Hp & He)] | (Hp & Hr & He)]; auto.
      * right. split; [exact Hp |]. split; [lia | exact He].
      * right. split; [exact Hp |]. split; [lia | exact He].
    + intros [Hx | (Hp & Hr & He)]; [auto |].
      destruct (Z.eq_dec x n) as [-> | Hne]; [left; right; auto |].
      right. split; [exact Hp |]. split; [| exact He].
      assert (x <> n + 1); [| lia].
      intros ->. pose proof (prime_odd (n + 1) Hp ltac:(lia)) as Ho.
      rewrite <- Z.add_mod_idemp_l in Ho by lia. rewrite Hodd in Ho. discriminate Ho.
  - apply Z.leb_gt in E. injection Hrun as <- <-.
    split; [exists n; split; [lia |]; split; [lia |]; split; [lia |]; split; [lia | exact Hinv] |].
    split; [exact Hs |].
    intros x. split; [auto | intros [Hx | (_ & Hr & _)]; [exact Hx | lia]].
Qed.

Lemma trial_division_result (generatorStop : Z) :
  0 <= generatorStop < 2 ^ 32 ->
  let stop := pmath.U32SQRT generatorStop in
  let keep := pmath.U32SQRT stop in
  0 <= stop < 2 ^ 16 /\ keep = Z.sqrt stop /\
  exists primes16Bit sieved,
    PrimeSieve.trial_division generatorStop = Ok (primes16Bit, sieved) /\
    (exists n', stop < n' /\ n' <= Z.max 5 (stop + 2) /\ trial_invariant keep n' primes16Bit) /\
    StronglySorted Z.lt sieved /\
    forall x, In x sieved <-> prime x /\ 5 <= x <= stop /\ eliminateUpTo < x.
Proof.
  intros HG stop keep.
  assert (Hstop : 0 <= stop < 2 ^ 16).
  { subst stop. rewrite (U32SQRT_small generatorStop HG).
    split; [apply Z.sqrt_nonneg |]. apply sqrt_below; [| lia].
    change (2 ^ 16 * 2 ^ 16) with (2 ^ 32). exact HG. }
  assert (Hkeep : keep = Z.sqrt stop) by (subst keep; apply U32SQRT_small; lia).
  split; [exact Hstop |]. split; [exact Hkeep |].
  destruct (trial_division_safe generatorStop HG) as ([primes sieved] & Hr).
  exists primes, sieved. split; [exact Hr |].
  unfold PrimeSieve.trial_division in Hr. fold stop keep in Hr.
  destruct (trial_loop_result stop keep Hstop Hkeep _ 5 [3] [] primes sieved
              (trial_invariant_start keep) ltac:(constructor) ltac:(constructor) Hr)
    as ((n' & Hn1 & Hn2 & Hn3 & Hn4 & Hinv) & Hsorted & Hmem).
  split.
  { exists n'. split; [exact Hn1 |]. split; [| exact Hinv].
    destruct (Z.le_gt_cases 5 stop); [specialize (Hn4 ltac:(lia)) | specialize (Hn3 ltac:(lia))]; lia. }
  split; [exact Hsorted |].
  intros x. rewrite Hmem. simpl. tauto.
Qed.

(** X7. The numbers that the trial division hands to
    [primeNumberGenerator.sieve] are, in ascending order, exactly the
    primes from 5 up to the square root of the generator's stop number that
    exceed the limit of the pre-sieve. *)
Theorem trial_division_sieved (generatorStop : Z) :
  0 <= generatorStop < 2 ^ 32 ->
  exists primes16Bit sieved,
    PrimeSieve.trial_division generatorStop = Ok (primes16Bit, sieved) /\
    StronglySorted Z.lt sieved /\
    forall x, In x sieved <->
              prime x /\ 5 <= x <= pmath.U32SQRT generatorStop /\ eliminateUpTo < x.
Proof.
  intros HG.
  destruct (trial_division_result generatorStop HG)
    as (_ & _ & primes & sieved & Hr & _ & Hs & Hmem).
  exists primes, sieved. auto.
Qed.

(** X8. When the trial division ends, [primes16Bit] holds odd primes up to
    the square root of the generator's stop number in ascending order, and
    among them every odd prime up to [keep], the fourth root. *)
Theorem trial_division_vector (generatorStop : Z) :
  0 <= generatorStop < 2 ^ 32 ->
  let stop := pmath.U32SQRT generatorStop in
  let keep := pmath.U32SQRT stop in
  exists primes16Bit sieved,
    PrimeSieve.trial_division generatorStop = Ok (primes16Bit, sieved) /\
    StronglySorted Z.lt primes16Bit /\
    (forall q, In q primes16Bit -> prime q /\ 3 <= q <= Z.max 3 stop) /\
    (forall q, prime q -> 3 <= q <= keep -> In q primes16Bit).
Proof.
  intros HG stop keep.
  destruct (trial_division_result generatorStop HG)
    as (Hstop & Hkeep & primes & sieved & Hr & (n' & Hn1 & Hn2 & Hinv) & _).
  fold stop keep in Hstop, Hkeep, Hn1, Hn2, Hinv.
  destruct Hinv as (Hn5 & Hodd & Hall & Hsorted & Hfull).
  exists primes, sieved. split; [exact Hr |]. split; [exact Hsorted |].
  split.
  - intros q Hq. rewrite Forall_forall in Hall. destruct (Hall q Hq) as (Hp & H3 & Hlt).
    split; [exact Hp |]. split; [exact H3 |].
    pose proof (prime_odd q Hp H3) as Hqo.
    assert (q <> n' - 1); [| lia].
    intros ->. replace n' with (n' - 1 + 1) in Hodd by lia.
    rewrite <- Z.add_mod_idemp_l, Hqo in Hodd by lia. discriminate Hodd.
  - intros q Hq Hr3. apply Hfull; [exact Hq | | lia].
    pose proof (Z.sqrt_le_lin stop ltac:(lia)). lia.
Qed.

End TrialResult.

(** X7 for a generator that stops at 10000. *)
Lemma trial_division_sieved_witness :
  0 <= 10000 < 2 ^ 32 /\
  exists primes16Bit sieved,
    @PrimeSieve.trial_division sample_headers 10000 = Ok (primes16Bit, sieved) /\
    StronglySorted Z.lt sieved.
Proof.
  assert (HG : 0 <= 10000 < 2 ^ 32) by lia.
  split; [exact HG |].
  destruct (@trial_division_sieved sample_headers 10000 HG) as (p & s & Hr & Hs & _).
  exists p, s. split; [exact Hr | exact Hs].
Defined.

(** X8 for the same generator: 7 is in the vector. *)
Lemma trial_division_vector_witness :
  0 <= 10000 < 2 ^ 32 /\
  exists primes16Bit sieved,
    @PrimeSieve.trial_division sample_headers 10000 = Ok (primes16Bit, sieved) /\
    In 7 primes16Bit.
Proof.
  assert (HG : 0 <= 10000 < 2 ^ 32) by lia.
  split; [exact HG |].
  destruct (@trial_division_vector sample_headers 10000 HG) as (p & s & Hr & _ & _ & Hfull).
  exists p, s. split; [exact Hr |].
  apply Hfull; [| vm_compute; split; congruence].
  apply prime_alt. split; [lia |].
  intros n Hn Hd. apply Z.mod_divide in Hd; [| lia].
  assert (n = 2 \/ n = 3 \/ n = 4 \/ n = 5 \/ n = 6) as [-> | [-> | [-> | [-> | ->]]]] by lia;
    discriminate Hd.
Defined.

(** ** More on api.cpp *)

Lemma inBetween_mono (lo hi x y : Z) :
  lo <= hi -> x <= y -> pmath.inBetween lo x hi <= pmath.inBetween lo y hi.
Proof.
  intros Hle Hxy. rewrite !inBetween_clamp by assumption. unfold clamp. lia.
Qed.

Lemma floorPow2_mono (x y : Z) : x <= y -> pmath.floorPow2 x <= pmath.floorPow2 y.
Proof.
  intros Hxy. unfold pmath.floorPow2.
  destruct (x <=? 0) eqn:Ex; destruct (y <=? 0) eqn:Ey;
    try apply Z.leb_le in Ex; try apply Z.leb_le in Ey;
    try apply Z.leb_gt in Ex; try apply Z.leb_gt in Ey; try lia.
  all: try (apply Z.pow_nonneg; lia).
  apply Z.pow_le_mono_r; [lia |]. now apply Z.log2_le_mono.
Qed.

Section ApiMore.
Context {P : Platform}.

(** X9. [set_sieve_size] is monotone: a larger request never selects a
    smaller sieve size. *)
Theorem set_sieve_size_monotone (g g' : api.globals) (cpu : CpuInfo.t) (kib kib' : Z) :
  kib <= kib' ->
  api.get_sieve_size_void (api.set_sieve_size g kib) cpu <=
  api.get_sieve_size_void (api.set_sieve_size g' kib') cpu.
Proof.
  intros Hle.
  assert (Hget : forall g0 k, api.get_sieve_size_void (api.set_sieve_size g0 k) cpu =
                              pmath.floorPow2 (pmath.inBetween 8 k 4096)).
  { intros g0 k. unfold api.get_sieve_size_void.
    rewrite get_sieve_size_user; [reflexivity |]. simpl.
    pose proof (proj2 (rounded_size 8 k (or_introl eq_refl))). lia. }
  rewrite !Hget. apply floorPow2_mono. apply inBetween_mono; lia.
Qed.

(** X10. In every state that the setters can produce, on a machine with at
    least one hardware thread, [get_num_threads()] lies between 1 and the
    number of hardware threads; and neither setter changes what the getter
    of the other one returns. *)
Theorem get_num_threads_valid (g : api.globals) :
  api.reachable g -> 1 <= getMaxThreads ->
  1 <= api.get_num_threads g <= getMaxThreads /\
  (forall kib, api.get_num_threads (api.set_sieve_size g kib) = api.get_num_threads g) /\
  (forall n cpu stop,
     api.get_sieve_size (api.set_num_threads g n) cpu stop = api.get_sieve_size g cpu stop).
Proof.
  intros Hg Hmax. split; [| split; reflexivity].
  assert (Hn : api.num_threads g = 0 \/ 1 <= api.num_threads g <= getMaxThreads).
  { induction Hg as [| g k Hg IH | g n Hg IH].
    - now left.
    - exact IH.
    - right. simpl. now apply inBetween_bounds. }
  unfold api.get_num_threads.
  destruct (api.num_threads g =? 0) eqn:E; simpl; [lia |].
  apply Z.eqb_neq in E. lia.
Qed.

(** X11. When the size that [get_sieve_size] returns for a stop number
    does not fit, no other stop number gets a larger size. If moreover no
    size was set by the user and the L2 branch is taken, that size is the
    one computed from the whole L2 cache. *)
Theorem get_sieve_size_fallback (g : api.globals) (cpu : CpuInfo.t) (stop stop' : Z) :
  fitsIntoCache stop (api.get_sieve_size g cpu stop * 1024) = false ->
  api.get_sieve_size g cpu stop' <= api.get_sieve_size g cpu stop /\
  (api.sieve_size g = 0 ->
   CpuInfo.hasL2Cache cpu && privateL2Cache cpu &&
   (CpuInfo.l1CacheSize cpu / 1024 <? CpuInfo.l2CacheSize cpu / 1024) = true ->
   api.get_sieve_size g cpu stop =
   pmath.floorPow2 (pmath.inBetween 32 (CpuInfo.l2CacheSize cpu / 1024) 4096)).
Proof.
  unfold api.get_sieve_size.
  destruct (api.sieve_size g =? 0) eqn:Ez; cbn [negb].
  { apply Z.eqb_eq in Ez. cbv zeta.
    destruct (CpuInfo.hasL2Cache cpu && privateL2Cache cpu &&
              (CpuInfo.l1CacheSize cpu / 1024 <? CpuInfo.l2CacheSize cpu / 1024)) eqn:Ec.
    - apply andb_prop in Ec as [Ec _]. apply andb_prop in Ec as [Ec _].
      unfold CpuInfo.hasL2Cache in Ec. cbv zeta in Ec.
      apply andb_prop in Ec as [Ec _]. apply Z.leb_le in Ec.
      fold (CpuInfo.l2CacheSize cpu) in Ec. change (Z.shiftl 1 12) with 4096 in Ec.
      set (l2 := CpuInfo.l2CacheSize cpu / 1024).
      assert (Hl2 : 0 <= l2) by (subst l2; apply Z.div_pos; lia).
      set (k := pmath.inBetween 1 (l2Threads cpu) 4).
      assert (Hk : 1 <= k <= 4) by (subst k; apply inBetween_bounds; lia).
      assert (Hper : pmath.floorPow2 (pmath.inBetween 32 (l2 / k) 4096) <=
                     pmath.floorPow2 (pmath.inBetween 32 l2 4096)).
      { apply floorPow2_mono, inBetween_mono; [lia |].
        apply Z.div_le_upper_bound; [lia |]. nia. }
      set (per := pmath.floorPow2 (pmath.inBetween 32 (l2 / k) 4096)) in *.
      destruct (fitsIntoCache stop (per * 1024)) eqn:E1.
      + intros Hfit. congruence.
      + intros _. split; [| reflexivity].
        destruct (fitsIntoCache stop' (per * 1024)); [exact Hper | lia].
    - intros _. split; [lia | discriminate]. }
  apply Z.eqb_neq in Ez. intros _. split; [lia | contradiction].
Qed.

End ApiMore.

(** X10 on a machine with two hardware threads, after two calls of the
    setters. *)
Lemma get_num_threads_valid_witness :
  1 <= @getMaxThreads sample_platform /\
  1 <= @api.get_num_threads sample_platform
         (@api.set_num_threads sample_platform (api.set_sieve_size api.initial 100) 7) <= 2.
Proof.
  assert (Hm : 1 <= @getMaxThreads sample_platform) by (simpl; lia).
  split; [exact Hm |].
  refine (proj1 (@get_num_threads_valid sample_platform _ _ Hm)).
  apply api.reach_set_num_threads, api.reach_set_sieve_size, api.reach_initial.
Defined.

(** X9 for requests of 100 and 1000 kilobytes. *)
Lemma set_sieve_size_monotone_witness :
  100 <= 1000 /\
  @api.get_sieve_size_void sample_platform (api.set_sieve_size api.initial 100) CpuInfo.zero <=
  @api.get_sieve_size_void sample_platform (api.set_sieve_size api.initial 1000) CpuInfo.zero.
Proof.
  assert (Hle : 100 <= 1000) by lia.
  split; [exact Hle |].
  exact (@set_sieve_size_monotone sample_platform api.initial api.initial CpuInfo.zero
           100 1000 Hle).
Defined.

(** X11 on the sample machine when nothing fits: the size is that of the
    whole L2 cache, 256 kilobytes. *)
Lemma get_sieve_size_fallback_witness :
  let cpu := CpuInfo.mk "" 1 2 2 [0; 32768; 262144; 0] [0; 2; 2; 0] "" in
  @fitsIntoCache tight_platform 0
    (@api.get_sieve_size tight_platform api.initial cpu 0 * 1024) = false /\
  @api.get_sieve_size tight_platform api.initial cpu 1000 <=
  @api.get_sieve_size tight_platform api.initial cpu 0 /\
  @api.get_sieve_size tight_platform api.initial cpu 0 = 256.
Proof.
  intros cpu.
  assert (Hf : @fitsIntoCache tight_platform 0
                 (@api.get_sieve_size tight_platform api.initial cpu 0 * 1024) = false)
    by reflexivity.
  split; [exact Hf |].
  destruct (@get_sieve_size_fallback tight_platform api.initial cpu 0 1000 Hf) as [Hle Heq].
  split; [exact Hle |].
  rewrite (Heq eq_refl eq_refl). reflexivity.
Defined.

(** ** The string helpers of the probe *)

Lemma append_nil_r (s : string) : (s ++ "")%string = s.
Proof. induction s as [| c s IH]; simpl; [reflexivity | now rewrite IH]. Qed.

Lemma append_assoc (a b c : string) : ((a ++ b) ++ c)%string = (a ++ b ++ c)%string.
Proof. induction a as [| x a IH]; simpl; [reflexivity | now rewrite IH]. Qed.

Lemma chars_append (a b : string) :
  list_ascii_of_string (a ++ b) = (list_ascii_of_string a ++ list_ascii_of_string b)%list.
Proof. induction a as [| x a IH]; simpl; [reflexivity | now rewrite IH]. Qed.

Lemma all_space_append (a b : string) :
  all_space (a ++ b) = all_space a && all_space b.
Proof. unfold all_space. rewrite chars_append. apply forallb_app. Qed.

Lemma removeAllSpaces_clean (str : string) (c : ascii) :
  In c (list_ascii_of_string (CpuInfo.removeAllSpaces str)) -> CpuInfo.isspace c = false.
Proof.
  induction str as [| a rest IH]; simpl; [contradiction |].
  destruct (CpuInfo.isspace a) eqn:E; [exact IH |].
  simpl. intros [<- | Hin]; [exact E | exact (IH Hin)].
Qed.

Lemma removeAllSpaces_fixed (str : string) :
  (forall c, In c (list_ascii_of_string str) -> CpuInfo.isspace c = false) ->
  CpuInfo.removeAllSpaces str = str.
Proof.
  induction str as [| a rest IH]; simpl; intros Hc; [reflexivity |].
  rewrite (Hc a (or_introl eq_refl)). f_equal. apply IH. intros c Hin. apply Hc. now right.
Qed.

Lemma removeAllSpaces_all_space (str : string) :
  CpuInfo.removeAllSpaces str = EmptyString <-> all_space str = true.
Proof.
  unfold all_space. induction str as [| a rest IH]; simpl; [tauto |].
  destruct (CpuInfo.isspace a); simpl; [exact IH |].
  split; discriminate.
Qed.

(** X12. [getString] returns the content of the file without any space
    character, in particular the empty string for a file of blanks, and
    the empty string when the file cannot be opened; removing the spaces
    of its result once more changes nothing. *)
Theorem getString_clean {Sys : System} (filename : string) :
  (forall c, In c (list_ascii_of_string (CpuInfo.getString filename)) ->
             CpuInfo.isspace c = false) /\
  CpuInfo.removeAllSpaces (CpuInfo.getString filename) = CpuInfo.getString filename /\
  (CpuInfo.getString filename = EmptyString <->
   match readFile filename with
   | Some content => all_space content = true
   | None => True
   end).
Proof.
  assert (Hclean : forall c, In c (list_ascii_of_string (CpuInfo.getString filename)) ->
                             CpuInfo.isspace c = false).
  { unfold CpuInfo.getString. destruct (readFile filename) as [content |].
    - intros c. apply removeAllSpaces_clean.
    - simpl. contradiction. }
  split; [exact Hclean |]. split; [now apply removeAllSpaces_fixed |].
  unfold CpuInfo.getString. destruct (readFile filename) as [content |].
  - apply removeAllSpaces_all_space.
  - tauto.
Qed.

(** *** [split] *)

Lemma contains_append (d : ascii) (a b : string) :
  CpuInfo.contains d (a ++ b) = CpuInfo.contains d a || CpuInfo.contains d b.
Proof.
  induction a as [| x a IH]; simpl; [reflexivity |]. rewrite IH. apply orb_assoc.
Qed.

Lemma back_is_cons (c d : ascii) (rest : string) :
  rest <> EmptyString -> CpuInfo.back_is (String c rest) d = CpuInfo.back_is rest d.
Proof.
  unfold CpuInfo.back_is. destruct rest as [| x rest]; [congruence | reflexivity].
Qed.

Lemma split_from_nil (str token : string) (d : ascii) :
  CpuInfo.split_from str token d = [] -> str = EmptyString /\ token = EmptyString.
Proof.
  revert token. induction str as [| c rest IH]; intros token; simpl.
  - destruct token; [auto | discriminate].
  - destruct (Ascii.eqb c d); [discriminate |].
    intros Hn. destruct (IH _ Hn) as [_ Ht]. destruct token; simpl in Ht; discriminate Ht.
Qed.

Lemma split_from_join (d : ascii) (str : string) :
  forall token,
    CpuInfo.contains d token = false ->
    Forall (fun t => CpuInfo.contains d t = false) (CpuInfo.split_from str token d) /\
    (token ++ str)%string =
      (String.concat (String d EmptyString) (CpuInfo.split_from str token d) ++
       (if CpuInfo.back_is str d then String d EmptyString else EmptyString))%string.
Proof.
  induction str as [| c rest IH]; intros token Ht; simpl.
  - destruct token as [| x token].
    + split; [constructor | reflexivity].
    + split; [constructor; [exact Ht | constructor] |].
      simpl. now rewrite !append_nil_r.
  - destruct (Ascii.eqb c d) eqn:E.
    + apply Ascii.eqb_eq in E. subst c.
      destruct (IH EmptyString eq_refl) as [Hall Hjoin]. simpl in Hjoin.
      split; [constructor; assumption |].
      destruct (CpuInfo.split_from rest EmptyString d) as [| t ts] eqn:Es.
      * destruct (split_from_nil _ _ _ Es) as [-> _].
        unfold CpuInfo.back_is. simpl. rewrite Ascii.eqb_refl. reflexivity.
      * assert (Hrest : rest <> EmptyString).
        { intros ->. simpl in Es. discriminate Es. }
        rewrite back_is_cons by exact Hrest.
        change (String.concat (String d EmptyString) (token :: t :: ts))
          with (token ++ String d EmptyString ++ String.concat (String d EmptyString) (t :: ts))%string.
        rewrite !append_assoc. f_equal. simpl. f_equal. exact Hjoin.
    + assert (Ht' : CpuInfo.contains d (token ++ String c EmptyString) = false).
      { rewrite contains_append, Ht. simpl. rewrite E. reflexivity. }
      destruct (IH _ Ht') as [Hall Hjoin].
      split; [exact Hall |].
      rewrite append_assoc in Hjoin. simpl in Hjoin. rewrite Hjoin. f_equal.
      destruct rest as [| x rest'].
      * unfold CpuInfo.back_is. simpl. rewrite E. reflexivity.
      * rewrite (back_is_cons c d (String x rest')) by discriminate. reflexivity.
Qed.

(** X13. [split] cuts a string at the delimiters: no token holds a
    delimiter, and the tokens joined by the delimiter give the string
    back, up to one delimiter at its end, which [getline] swallows. *)
Theorem split_join (str : string) (delimiter : ascii) :
  Forall (fun t => CpuInfo.contains delimiter t = false) (CpuInfo.split str delimiter) /\
  str = (String.concat (String delimiter EmptyString) (CpuInfo.split str delimiter) ++
         (if CpuInfo.back_is str delimiter then String delimiter EmptyString
          else EmptyString))%string.
Proof.
  exact (split_from_join delimiter str EmptyString eq_refl).
Qed.

(** *** [trimString] *)

Lemma reverse_append (a b : string) :
  CpuInfo.reverse (a ++ b) = (CpuInfo.reverse b ++ CpuInfo.reverse a)%string.
Proof.
  induction a as [| x a IH]; simpl; [now rewrite append_nil_r |].
  rewrite IH. apply append_assoc.
Qed.

Lemma reverse_involutive (s : string) : CpuInfo.reverse (CpuInfo.reverse s) = s.
Proof.
  induction s as [| x s IH]; simpl; [reflexivity |].
  rewrite reverse_append, IH. reflexivity.
Qed.

Lemma all_space_reverse (s : string) : all_space (CpuInfo.reverse s) = all_space s.
Proof.
  induction s as [| x s IH]; simpl; [reflexivity |].
  rewrite all_space_append, IH. unfold all_space. simpl. rewrite andb_true_r. apply andb_comm.
Qed.

Lemma back_append_one (s : string) (c : ascii) :
  CpuInfo.back (s ++ String c EmptyString) = Some c.
Proof.
  induction s as [| x s IH]; simpl; [reflexivity |].
  rewrite IH. destruct (s ++ String c EmptyString)%string eqn:E; [| reflexivity].
  destruct s; discriminate E.
Qed.

Lemma back_reverse (s : string) : CpuInfo.back (CpuInfo.reverse s) = front s.
Proof.
  destruct s as [| x s]; simpl; [reflexivity | apply back_append_one].
Qed.

Lemma front_append (a b : string) :
  a <> EmptyString -> front (a ++ b) = front a.
Proof. destruct a; [congruence | reflexivity]. Qed.

(** The spaces at the front, and what follows them. *)
Lemma ltrim_split (s : string) :
  exists l, s = (l ++ CpuInfo.ltrim s)%string /\ all_space l = true /\
            not_space (front (CpuInfo.ltrim s)).
Proof.
  induction s as [| c s (l & Heq & Hl & Hf)]; simpl.
  - exists EmptyString. repeat split.
  - destruct (CpuInfo.isspace c) eqn:E.
    + exists (String c l). simpl. rewrite <- Heq.
      split; [reflexivity |]. split; [| exact Hf].
      unfold all_space in *. simpl. now rewrite E.
    + exists EmptyString. split; [reflexivity |]. split; [reflexivity | exact E].
Qed.

Lemma ltrim_all_space (s : string) :
  CpuInfo.ltrim s = EmptyString <-> all_space s = true.
Proof.
  unfold all_space. induction s as [| c s IH]; simpl; [tauto |].
  destruct (CpuInfo.isspace c); simpl; [exact IH | split; discriminate].
Qed.

Lemma trimString_split (str : string) :
  exists l r,
    str = (l ++ CpuInfo.trimString str ++ r)%string /\
    all_space l = true /\ all_space r = true /\
    not_space (front (CpuInfo.trimString str)) /\
    not_space (CpuInfo.back (CpuInfo.trimString str)).
Proof.
  unfold CpuInfo.trimString.
  destruct (ltrim_split str) as (l & Heq & Hl & Hf).
  destruct (ltrim_split (CpuInfo.reverse (CpuInfo.ltrim str))) as (r' & Heq' & Hr' & Hf').
  set (u := CpuInfo.ltrim str) in *.
  set (w := CpuInfo.ltrim (CpuInfo.reverse u)) in *.
  assert (Hu : u = (CpuInfo.reverse w ++ CpuInfo.reverse r')%string).
  { rewrite <- reverse_append, <- Heq'. symmetry. apply reverse_involutive. }
  exists l, (CpuInfo.reverse r').
  split; [rewrite <- Hu; exact Heq |].
  split; [exact Hl |]. split; [now rewrite all_space_reverse |].
  split.
  - destruct (CpuInfo.reverse w) as [| x t] eqn:Ew; [exact I |].
    rewrite Hu in Hf. exact Hf.
  - rewrite back_reverse. exact Hf'.
Qed.

(** X14. [trimString] removes space characters from both ends only: the
    string is its result between two runs of space characters, and the
    result neither begins nor ends with a space character. A string of
    space characters becomes the empty string. *)
Theorem trimString_trims (str : string) :
  (exists l r,
     str = (l ++ CpuInfo.trimString str ++ r)%string /\
     all_space l = true /\ all_space r = true) /\
  not_space (front (CpuInfo.trimString str)) /\
  not_space (CpuInfo.back (CpuInfo.trimString str)) /\
  (CpuInfo.trimString str = EmptyString <-> all_space str = true).
Proof.
  destruct (trimString_split str) as (l & r & Heq & Hl & Hr & Hf & Hb).
  split; [exists l, r; auto |]. split; [exact Hf |]. split; [exact Hb |].
  split.
  - intros He. rewrite He in Heq. rewrite Heq. simpl.
    now rewrite all_space_append, Hl, Hr.
  - intros Ha. unfold CpuInfo.trimString.
    assert (Hu : CpuInfo.ltrim str = EmptyString) by now apply ltrim_all_space.
    rewrite Hu. reflexivity.
Qed.

(** *** The guarded [trimString] *)

Lemma find_first_not_of_space_none (s : string) :
  CpuInfo_guarded.find_first_not_of_space s = None <-> all_space s = true.
Proof.
  unfold all_space. induction s as [| c s IH]; simpl; [tauto |].
  destruct (CpuInfo.isspace c); simpl; [| split; discriminate].
  destruct (CpuInfo_guarded.find_first_not_of_space s); [| tauto].
  split; [discriminate |]. intros Ha. apply IH in Ha. discriminate Ha.
Qed.

Lemma erase_front_ltrim (s : string) (pos : nat) :
  CpuInfo_guarded.find_first_not_of_space s = Some pos ->
  CpuInfo_guarded.erase_front s pos = CpuInfo.ltrim s.
Proof.
  revert pos. induction s as [| c s IH]; intros pos; simpl; [discriminate |].
  destruct (CpuInfo.isspace c).
  - destruct (CpuInfo_guarded.find_first_not_of_space s) as [p |]; [| discriminate].
    intros Hp. injection Hp as <-. simpl. now apply IH.
  - intros Hp. injection Hp as <-. reflexivity.
Qed.

(** X15. The [trimString] of the earlier revision, which erases only when
    [find_first_not_of] finds a character, differs from the later one on
    the strings of space characters alone: it leaves them as they are,
    where the later one empties them. On every other string both give the
    same result. *)
Theorem trimString_guarded (str : string) :
  CpuInfo_guarded.trimString str =
  if all_space str then str else CpuInfo.trimString str.
Proof.
  unfold CpuInfo_guarded.trimString, CpuInfo.trimString. cbv zeta.
  destruct (all_space str) eqn:Ea.
  - rewrite (proj2 (find_first_not_of_space_none str) Ea).
    assert (Hr : all_space (CpuInfo.reverse str) = true) by now rewrite all_space_reverse.
    rewrite (proj2 (find_first_not_of_space_none _) Hr).
    apply reverse_involutive.
  - destruct (CpuInfo_guarded.find_first_not_of_space str) as [p |] eqn:Ep.
    + rewrite (erase_front_ltrim _ _ Ep).
      destruct (CpuInfo_guarded.find_first_not_of_space (CpuInfo.reverse (CpuInfo.ltrim str)))
        as [q |] eqn:Eq.
      * now rewrite (erase_front_ltrim _ _ Eq).
      * exfalso. apply find_first_not_of_space_none in Eq.
        rewrite all_space_reverse in Eq.
        destruct (ltrim_split str) as (l & Heq & Hl & _).
        rewrite Heq, all_space_append, Hl, Eq in Ea. discriminate Ea.
    + apply find_first_not_of_space_none in Ep. congruence.
Qed.

(** ** Values and thread counts read from files *)

Section Values.
Context {Sys : System}.

(** X16. [getValue] is 0, without a call of [stoul], when the file cannot be
    opened or holds space characters only. Otherwise it throws what
    [stoul] throws, or returns the number read times the one factor that
    the last character selects: 2^10 for K, 2^20 for M, 2^30 for G, and 1
    for anything else, modulo 2^64. *)
Theorem getValue_cases (filename : string) :
  let str := CpuInfo.getString filename in
  (str = EmptyString -> CpuInfo.getValue filename = inr 0) /\
  (str <> EmptyString ->
   match stoul str 10 with
   | inl e => CpuInfo.getValue filename = inl e
   | inr val =>
       0 <= val < 2 ^ 64 ->
       CpuInfo.getValue filename = inr (wrap64 (val * unit_of str))
   end).
Proof.
  intros str. unfold CpuInfo.getValue. cbv zeta. fold str.
  split; [intros ->; reflexivity |].
  intros Hne. destruct str as [| c rest] eqn:Es; [congruence |].
  rewrite <- Es. destruct (stoul str 10) as [e | val]; [reflexivity |].
  intros Hval. f_equal. unfold unit_of, CpuInfo.back_is.
  destruct (CpuInfo.back str) as [a |]; [| unfold wrap64; rewrite Z.mul_1_r, Z.mod_small; lia].
  destruct (Ascii.eqb a "K") eqn:EK.
  - apply Ascii.eqb_eq in EK. subst a. reflexivity.
  - destruct (Ascii.eqb a "M") eqn:EM.
    + apply Ascii.eqb_eq in EM. subst a. reflexivity.
    + destruct (Ascii.eqb a "G"); [reflexivity |].
      unfold wrap64. rewrite Z.mul_1_r, Z.mod_small; lia.
Qed.

Lemma parseThreadList_tokens_plain (tokens : list string) :
  Forall (fun t => CpuInfo.contains "-" t = false) tokens ->
  forall threads, 0 <= threads < 2 ^ 64 ->
    CpuInfo.parseThreadList_tokens tokens threads =
    inr (wrap64 (threads + Z.of_nat (length tokens))).
Proof.
  induction 1 as [| t ts Ht _ IH]; intros threads Hr; simpl length.
  - simpl. unfold wrap64. rewrite Z.add_0_r, Z.mod_small; [reflexivity | exact Hr].
  - cbn [CpuInfo.parseThreadList_tokens]. rewrite Ht. simpl negb. cbv iota.
    rewrite IH by (unfold wrap64; apply Z.mod_pos_bound; lia).
    f_equal. unfold wrap64. rewrite Z.add_mod_idemp_l by lia. f_equal. lia.
Qed.

(** X17. For a list of thread ids without ranges, [parseThreadList] returns
    the number of its tokens, and calls neither [stoul] nor [at]: it
    cannot throw. *)
Theorem parseThreadList_plain (filename : string) :
  CpuInfo.contains "-" (CpuInfo.getString filename) = false ->
  CpuInfo.parseThreadList filename =
  inr (wrap64 (Z.of_nat (length (CpuInfo.split (CpuInfo.getString filename) ",")))).
Proof.
  intros Hc. unfold CpuInfo.parseThreadList. cbv zeta.
  rewrite parseThreadList_tokens_plain; [reflexivity | | lia].
  destruct (split_from_join "," (CpuInfo.getString filename) EmptyString eq_refl) as [_ Hjoin].
  simpl in Hjoin. fold (CpuInfo.split (CpuInfo.getString filename) ",") in Hjoin.
  rewrite Hjoin, contains_append in Hc. apply orb_false_elim in Hc as [Hc _].
  revert Hc. generalize (CpuInfo.split (CpuInfo.getString filename) ",").
  induction l as [| t ts IH]; intros Hc; [constructor |].
  destruct ts as [| t' ts'].
  - simpl in Hc. constructor; [exact Hc | constructor].
  - change (String.concat "," (t :: t' :: ts'))
      with (t ++ "," ++ String.concat "," (t' :: ts'))%string in Hc.
    rewrite !contains_append in Hc.
    apply orb_false_elim in Hc as [Ht Hc]. apply orb_false_elim in Hc as [_ Hc].
    constructor; [exact Ht | exact (IH Hc)].
Qed.

End Values.

(** *** Counting the bits of a mask *)

Lemma land_double (a b : Z) (x y : bool) :
  Z.land (2 * a + Z.b2z x) (2 * b + Z.b2z y) = 2 * Z.land a b + Z.b2z (x && y).
Proof.
  apply Z.bits_inj'. intros n Hn.
  rewrite Z.land_spec.
  destruct (Z.eq_dec n 0) as [-> | Hne].
  - rewrite !Z.testbit_0_r. reflexivity.
  - replace n with (Z.succ (n - 1)) by lia.
    rewrite !Z.testbit_succ_r by lia. now rewrite Z.land_spec.
Qed.

Lemma popcount_double (r : Z) : 0 <= r -> popcount (2 * r) = popcount r.
Proof. destruct r as [| p | p]; [reflexivity | reflexivity | lia]. Qed.

(** One round of the loop clears the lowest bit that is set. *)
Lemma clear_lowest (p : positive) :
  let r := Z.land (Zpos p) (Zpos p - 1) in
  0 <= r < Zpos p /\ popcount r = popcount_pos p - 1.
Proof.
  induction p as [q IH | q IH |]; cbv zeta.
  - replace (Zpos q~1) with (2 * Zpos q + Z.b2z true) by (simpl Z.b2z; lia).
    replace (2 * Zpos q + Z.b2z true - 1) with (2 * Zpos q + Z.b2z false)
      by (simpl Z.b2z; lia).
    rewrite land_double, Z.land_diag. simpl Z.b2z. rewrite Z.add_0_r.
    split; [lia |]. rewrite popcount_double by lia.
    change (popcount_pos q~1) with (1 + popcount_pos q).
    change (popcount (Zpos q)) with (popcount_pos q). lia.
  - cbv zeta in IH. destruct IH as (Hr & Hp).
    replace (Zpos q~0) with (2 * Zpos q + Z.b2z false) by (simpl Z.b2z; lia).
    replace (2 * Zpos q + Z.b2z false - 1) with (2 * (Zpos q - 1) + Z.b2z true)
      by (simpl Z.b2z; lia).
    rewrite land_double. simpl Z.b2z. rewrite Z.add_0_r.
    split; [lia |]. rewrite popcount_double by lia.
    change (popcount_pos q~0) with (popcount_pos q). exact Hp.
  - simpl. lia.
Qed.

Lemma popcount_nonneg (mask : Z) : 0 <= popcount mask.
Proof.
  destruct mask as [| p | p]; cbn [popcount]; try lia.
  induction p; cbn [popcount_pos]; lia.
Qed.

Lemma clear_bits_popcount (fuel : nat) :
  forall bitmap threads,
    0 <= bitmap <= Z.of_nat fuel -> 0 <= threads < 2 ^ 64 ->
    CpuInfo.clear_bits fuel bitmap threads = Some (wrap64 (threads + popcount bitmap)).
Proof.
  assert (Hid : forall t, 0 <= t < 2 ^ 64 -> wrap64 t = t)
    by (intros t Ht; unfold wrap64; now apply Z.mod_small).
  induction fuel as [| fuel IH]; intros bitmap threads Hb Ht.
  - assert (bitmap = 0) as -> by lia. simpl. now rewrite Z.add_0_r, Hid.
  - cbn [CpuInfo.clear_bits]. destruct (0 <? bitmap) eqn:E.
    + apply Z.ltb_lt in E. destruct bitmap as [| p | p]; try lia.
      destruct (clear_lowest p) as (Hr & Hp).
      rewrite IH; [| lia | unfold wrap64; apply Z.mod_pos_bound; lia].
      f_equal. rewrite Hp. unfold wrap64. rewrite Z.add_mod_idemp_l by lia.
      f_equal. change (popcount (Zpos p)) with (popcount_pos p). lia.
    + apply Z.ltb_ge in E. assert (bitmap = 0) as -> by lia.
      simpl. now rewrite Z.add_0_r, Hid.
Qed.

Section ThreadMap.
Context {Sys : System}.

(** X18. The loop [for (; bitmap > 0; threads++) bitmap &= bitmap - 1] ends
    and adds to [threads] the number of bits set in the digit: for a
    string of digits that [stoul] reads, the inner loops of
    [parseThreadMap] add up the bit counts of the digits, modulo 2^64. *)
Theorem parseThreadMap_chars_popcount (str : string) (values : list Z) :
  Forall2 (fun c v => stoul (String c EmptyString) 16 = inr v /\ 0 <= v)
          (list_ascii_of_string str) values ->
  forall threads, 0 <= threads < 2 ^ 64 ->
    CpuInfo.parseThreadMap_chars str threads =
    Ok (wrap64 (threads + fold_right Z.add 0 (map popcount values))).
Proof.
  revert values. induction str as [| c rest IH]; intros values Hv threads Ht.
  - inversion Hv; subst. simpl. unfold wrap64. rewrite Z.add_0_r, Z.mod_small; auto.
  - simpl in Hv. inversion Hv as [| c' v cs vs (Hs & Hnn) Hrest]; subst.
    cbn [CpuInfo.parseThreadMap_chars]. rewrite Hs.
    rewrite clear_bits_popcount by (try exact Ht; rewrite Z2Nat.id; lia).
    rewrite (IH vs Hrest) by (unfold wrap64; apply Z.mod_pos_bound; lia).
    f_equal. simpl. unfold wrap64. rewrite Z.add_mod_idemp_l by lia. f_equal. lia.
Qed.

End ThreadMap.

(** *** The name of the CPU *)

Lemma getCpuName_lines_valid (lines : list string) :
  forall i, let name := CpuInfo.getCpuName_lines lines i in
            name = EmptyString \/ CpuInfo.isValid name = true.
Proof.
  induction lines as [| line rest IH]; intros i; cbn [CpuInfo.getCpuName_lines]; [now left |].
  cbv zeta. destruct (CpuInfo.isValid _) eqn:E; [right; exact E |].
  destruct (10 <? S i)%nat; [now left | apply IH].
Qed.

Lemma getCpuName_lines_trimmed (lines : list string) :
  forall i, let name := CpuInfo.getCpuName_lines lines i in
            not_space (front name) /\ not_space (CpuInfo.back name).
Proof.
  induction lines as [| line rest IH]; intros i; cbn [CpuInfo.getCpuName_lines];
    [split; exact I |].
  cbv zeta. destruct (CpuInfo.isValid _) eqn:E.
  - destruct (trimString_split (CpuInfo.getCpuName_line line))
      as (_ & _ & _ & _ & _ & Hf & Hb). split; assumption.
  - destruct (10 <? S i)%nat; [split; exact I | apply IH].
Qed.

Lemma getCpuName_lines_limit (lines : list string) :
  forall i, (i <= 10)%nat ->
    CpuInfo.getCpuName_lines lines i = CpuInfo.getCpuName_lines (firstn (11 - i) lines) i.
Proof.
  induction lines as [| line rest IH]; intros i Hi.
  - now rewrite firstn_nil.
  - destruct (11 - i)%nat as [| k] eqn:Ek; [lia |].
    cbn [firstn CpuInfo.getCpuName_lines]. cbv zeta.
    destruct (CpuInfo.isValid _); [reflexivity |].
    destruct (10 <? S i)%nat eqn:E; [reflexivity |].
    apply Nat.ltb_ge in E. rewrite (IH (S i)) by lia.
    replace (11 - S i)%nat with k by lia. reflexivity.
Qed.

(** X19. [getCpuName] returns the empty string or a valid name, that is one
    that is not made of digits only; the name neither begins nor ends with
    a space character; and only the first eleven lines of /proc/cpuinfo
    are looked at. *)
Theorem getCpuName_valid {Sys : System} :
  (CpuInfo.getCpuName = EmptyString \/ CpuInfo.isValid CpuInfo.getCpuName = true) /\
  not_space (front CpuInfo.getCpuName) /\
  not_space (CpuInfo.back CpuInfo.getCpuName) /\
  forall content, readFile "/proc/cpuinfo" = Some content ->
    CpuInfo.getCpuName =
    CpuInfo.getCpuName_lines (firstn 11 (CpuInfo.split content "010")) 0.
Proof.
  unfold CpuInfo.getCpuName.
  destruct (readFile "/proc/cpuinfo") as [content |].
  - split; [apply getCpuName_lines_valid |].
    split; [apply getCpuName_lines_trimmed |].
    split; [apply getCpuName_lines_trimmed |].
    intros c Hc. injection Hc as <-. apply (getCpuName_lines_limit _ 0%nat). lia.
  - split; [now left |]. split; [exact I |]. split; [exact I |]. discriminate.
Qed.

(** X17 on a list of three thread ids, with a library whose [stoul] always
    throws. *)
Lemma parseThreadList_plain_witness :
  CpuInfo.contains "-"
    (@CpuInfo.getString (failing_system [("/sys/devices/system/cpu/online", "0,2,4")%string])
       "/sys/devices/system/cpu/online") = false /\
  @CpuInfo.parseThreadList (failing_system [("/sys/devices/system/cpu/online", "0,2,4")%string])
    "/sys/devices/system/cpu/online" = inr 3.
Proof.
  assert (Hc : CpuInfo.contains "-"
                 (@CpuInfo.getString
                    (failing_system [("/sys/devices/system/cpu/online", "0,2,4")%string])
                    "/sys/devices/system/cpu/online") = false) by reflexivity.
  split; [exact Hc |].
  exact (@parseThreadList_plain
           (failing_system [("/sys/devices/system/cpu/online", "0,2,4")%string])
           "/sys/devices/system/cpu/online" Hc).
Defined.

(** X18 on the map ff of eight threads. *)
Lemma parseThreadMap_chars_popcount_witness :
  Forall2 (fun c v => @stoul (sample_system []) (String c EmptyString) 16 = inr v /\ 0 <= v)
          (list_ascii_of_string "ff") [15; 15] /\
  0 <= 0 < 2 ^ 64 /\
  @CpuInfo.parseThreadMap_chars (sample_system []) "ff" 0 = Ok 8.
Proof.
  assert (Hv : Forall2 (fun c v => @stoul (sample_system []) (String c EmptyString) 16 = inr v
                                   /\ 0 <= v)
                       (list_ascii_of_string "ff") [15; 15]).
  { repeat constructor; lia. }
  assert (Ht : 0 <= 0 < 2 ^ 64) by lia.
  split; [exact Hv |]. split; [exact Ht |].
  exact (@parseThreadMap_chars_popcount (sample_system []) "ff" [15; 15] Hv 0 Ht).
Defined.

(** ** What [init()] leaves in the object *)

Lemma triple_ret {A : Type} (P R : CpuInfo.t -> Prop) (Q : A -> CpuInfo.t -> Prop) (a : A) :
  (forall c, P c -> Q a c) -> triple P (CpuInfo.ret a) Q R.
Proof. intros HQ st HP. simpl. auto. Qed.

Lemma triple_mbind {A B : Type} (P R : CpuInfo.t -> Prop) (Q : A -> CpuInfo.t -> Prop)
    (Q' : B -> CpuInfo.t -> Prop) (m : CpuInfo.M A) (k : A -> CpuInfo.M B) :
  triple P m Q R -> (forall a, triple (Q a) (k a) Q' R) ->
  triple P (CpuInfo.mbind m k) Q' R.
Proof.
  intros Hm Hk st HP. specialize (Hm st HP). unfold CpuInfo.mbind.
  destruct (m st) as [st' [a | e | w |]]; cbn [fst snd] in Hm |- *; try exact Hm.
  apply (Hk a st'). exact Hm.
Qed.

Lemma triple_eval {A : Type} (P R : CpuInfo.t -> Prop) (r : outcome A) :
  (forall c, P c -> R c) -> triple P (CpuInfo.eval r) (fun _ => P) R.
Proof. intros HR st HP. unfold CpuInfo.eval. cbn [fst snd]. destruct r; auto. Qed.

Lemma triple_this (P R : CpuInfo.t -> Prop) :
  triple P CpuInfo.this (fun a c => a = c /\ P c) R.
Proof. intros st HP. simpl. auto. Qed.

Lemma triple_assign (P R : CpuInfo.t -> Prop) (Q : unit -> CpuInfo.t -> Prop)
    (m : CpuInfo.member) (v : Z) :
  (forall c c', P c -> CpuInfo.write c m v = Some c' -> Q tt c') ->
  (forall c, P c -> R c) ->
  triple P (CpuInfo.assign m v) Q R.
Proof.
  intros HQ HR st HP. unfold CpuInfo.assign. cbv zeta.
  destruct (CpuInfo.write (fst st) m v) as [c' |] eqn:E; cbn [fst snd]; eauto.
Qed.

Lemma triple_for_each {A : Type} (Inv R : CpuInfo.t -> Prop) (xs : list A)
    (body : A -> CpuInfo.M unit) :
  (forall x, triple Inv (body x) (fun _ => Inv) R) ->
  triple Inv (CpuInfo.for_each xs body) (fun _ => Inv) R.
Proof.
  intros Hb. induction xs as [| x xs IH]; simpl.
  - apply triple_ret. auto.
  - eapply triple_mbind; [apply Hb | intros []; exact IH].
Qed.

(** An assignment to an array at a level from 1 on changes neither the
    counts nor the entries of level 0. *)
Lemma write_cache_frame (c c' : CpuInfo.t) (m : CpuInfo.member) (v : Z) :
  match m with
  | CpuInfo.CacheSize level | CpuInfo.CacheSharing level => (1 <= level)%nat
  | _ => False
  end ->
  CpuInfo.write c m v = Some c' ->
  (cores_derived c -> cores_derived c') /\ (level0_unused c -> level0_unused c').
Proof.
  assert (Hstore : forall a a' level, (1 <= level)%nat -> store a level v = Some a' ->
                                      nth 0 a' 0 = nth 0 a 0).
  { intros a a' level Hl Hs. destruct level as [| l]; [lia |].
    destruct a as [| x a]; simpl in Hs; [discriminate |].
    destruct (store a l v); [| discriminate]. injection Hs as <-. reflexivity. }
  destruct m as [| | | level | level]; try contradiction; intros Hl Hw; simpl in Hw.
  - destruct (store (CpuInfo.cacheSizes_ c) level v) as [a |] eqn:Es; [| discriminate].
    injection Hw as <-. split; [exact (fun x => x) |].
    unfold level0_unused. simpl. rewrite (Hstore _ _ _ Hl Es). exact (fun x => x).
  - destruct (store (CpuInfo.cacheSharing_ c) level v) as [a |] eqn:Es; [| discriminate].
    injection Hw as <-. split; [exact (fun x => x) |].
    unfold level0_unused. simpl. rewrite (Hstore _ _ _ Hl Es). exact (fun x => x).
Qed.

Section InitFacts.
Context {Sys : System}.

Lemma triple_cache_index (i : Z) :
  let Inv := fun c => cores_derived c /\ level0_unused c in
  triple Inv (CpuInfo.cache_index i) (fun _ => Inv) Inv.
Proof.
  intros Inv. unfold CpuInfo.cache_index. cbv zeta.
  eapply triple_mbind; [apply triple_eval; auto | intros level].
  destruct ((1 <=? level) && (level <=? 3)) eqn:E; [| apply triple_ret; auto].
  apply andb_prop in E as [E1 _]. apply Z.leb_le in E1.
  assert (Hl : (1 <= Z.to_nat level)%nat) by lia.
  destruct (_ || _); [| apply triple_ret; auto].
  assert (Hw : forall m v c c',
             match m with
             | CpuInfo.CacheSize l | CpuInfo.CacheSharing l => (1 <= l)%nat
             | _ => False
             end -> Inv c -> CpuInfo.write c m v = Some c' -> Inv c').
  { intros m v c c' Hm [H1 H0] Hwr.
    destruct (write_cache_frame c c' m v Hm Hwr) as [F1 F0]. split; auto. }
  eapply triple_mbind; [apply triple_eval; auto | intros v].
  eapply triple_mbind with (Q := fun _ => Inv).
  - apply triple_assign; [| auto]. intros c c' HI. apply Hw; [exact Hl | exact HI].
  - intros []. eapply triple_mbind; [apply triple_eval; auto | intros w].
    apply triple_assign; [| auto]. intros c c' HI. apply Hw; [exact Hl | exact HI].
Qed.

Lemma triple_init :
  let Inv := fun c => cores_derived c /\ level0_unused c in
  triple (fun c => CpuInfo.cpuCores_ c = 0 /\ level0_unused c) CpuInfo.init (fun _ => Inv) Inv.
Proof.
  intros Inv. set (P := fun c => CpuInfo.cpuCores_ c = 0 /\ level0_unused c).
  assert (HPI : forall c, P c -> Inv c) by (intros c [H0 H1]; split; [now left | exact H1]).
  unfold CpuInfo.init. cbv zeta.
  eapply triple_mbind with (Q := fun _ => P).
  { intros st HP. exact HP. }
  intros []. eapply triple_mbind; [apply triple_eval; exact HPI | intros v].
  eapply triple_mbind with (Q := fun _ => P).
  { apply triple_assign; [| exact HPI]. intros c c' HP Hw. injection Hw as <-. exact HP. }
  intros []. eapply triple_mbind; [apply triple_eval; exact HPI | intros w].
  eapply triple_mbind with (Q := fun _ => P).
  { apply triple_assign; [| exact HPI]. intros c c' HP Hw. injection Hw as <-. exact HP. }
  intros []. eapply triple_mbind; [apply triple_this | intros c].
  eapply triple_mbind with (Q := fun _ => Inv).
  - destruct (CpuInfo.hasCpuThreads c && CpuInfo.hasThreadsPerCore c) eqn:E.
    + apply andb_prop in E as [E1 E2].
      apply triple_assign; [| intros c0 [_ HP]; exact (HPI _ HP)].
      intros c0 c' [-> [_ H0]] Hw. injection Hw as <-.
      split; [| exact H0]. right. auto.
    + apply triple_ret. intros c0 [_ HP]. exact (HPI _ HP).
  - intros []. apply triple_for_each. intros i. apply triple_cache_index.
Qed.


End InitFacts.

(** ** The probe of macOS *)

Ltac nat_bools :=
  repeat match goal with
         | H : _ && _ = true |- _ => apply andb_prop in H; destruct H
         | H : _ && _ = false |- _ => apply andb_false_iff in H; destruct H
         | H : (_ <=? _)%nat = true |- _ => apply Nat.leb_le in H
         | H : (_ <=? _)%nat = false |- _ => apply Nat.leb_gt in H
         | H : (_ <? _)%nat = true |- _ => apply Nat.ltb_lt in H
         | H : (_ <? _)%nat = false |- _ => apply Nat.ltb_ge in H
         | H : (_ =? _)%nat = true |- _ => apply Nat.eqb_eq in H
         | H : (_ =? _)%nat = false |- _ => apply Nat.eqb_neq in H
         end.

Lemma copy_from_spec (count : nat) :
  forall (i : nat) (src dst : list Z),
    (i + count <= length src)%nat -> (i + count <= length dst)%nat ->
    exists dst',
      CpuInfo_macos.copy_from count i src dst = Ok dst' /\
      length dst' = length dst /\
      forall j, nth j dst' 0 =
                if ((i <=? j) && (j <? i + count))%nat then nth j src 0 else nth j dst 0.
Proof.
  induction count as [| count IH]; intros i src dst Hs Hd.
  - exists dst. split; [reflexivity |]. split; [reflexivity |].
    intros j. destruct (i <=? j)%nat eqn:E1; [| reflexivity].
    destruct (j <? i + 0)%nat eqn:E2; [| reflexivity].
    apply Nat.leb_le in E1. apply Nat.ltb_lt in E2. lia.
  - cbn [CpuInfo_macos.copy_from].
    destruct (nth_error src i) as [v |] eqn:Ev;
      [| apply nth_error_None in Ev; lia].
    destruct (store_spec dst i v ltac:(lia)) as (d1 & -> & Hl1 & Hn1).
    destruct (IH (S i) src d1 ltac:(lia) ltac:(lia)) as (dst' & -> & Hl & Hn).
    exists dst'. split; [reflexivity |]. split; [lia |].
    intros j. rewrite Hn, Hn1.
    destruct ((S i <=? j)%nat && (j <? S i + count)%nat) eqn:A;
      destruct ((i <=? j)%nat && (j <? i + S count)%nat) eqn:B;
      destruct (j =? i)%nat eqn:C; try reflexivity; nat_bools; try lia.
    subst j. symmetry. now apply nth_error_nth.
Qed.

(** What the copy loop leaves in an array of four entries. *)
Lemma copy_levels_four (src : list Z) (a0 a1 a2 a3 : Z) :
  CpuInfo_macos.copy_levels src [a0; a1; a2; a3] =
  Ok [a0;
      if (1 <? length src)%nat then nth 1 src 0 else a1;
      if (2 <? length src)%nat then nth 2 src 0 else a2;
      if (3 <? length src)%nat then nth 3 src 0 else a3].
Proof.
  unfold CpuInfo_macos.copy_levels.
  set (count := (Nat.min (length src) (length [a0; a1; a2; a3]) - 1)%nat).
  assert (Hc : (count <= 3)%nat) by (subst count; simpl length; lia).
  assert (Hc' : (1 + count <= length src \/ count = 0)%nat) by (subst count; simpl length; lia).
  assert (Hlen : (count = Nat.min (length src) 4 - 1)%nat) by reflexivity.
  destruct Hc' as [Hs | H0].
  - destruct (copy_from_spec count 1 src [a0; a1; a2; a3] Hs ltac:(simpl; lia))
      as (dst' & -> & Hl & Hn).
    f_equal.
    destruct dst' as [| b0 [| b1 [| b2 [| b3 [| b4 rest]]]]]; simpl in Hl; try lia.
    pose proof (Hn 0%nat) as N0. pose proof (Hn 1%nat) as N1.
    pose proof (Hn 2%nat) as N2. pose proof (Hn 3%nat) as N3.
    cbn [nth] in N0, N1, N2, N3.
    assert (B : forall j, (1 <= j <= 3)%nat ->
                ((1 <=? j) && (j <? 1 + count))%nat = (j <? length src)%nat).
    { intros j Hj. replace (1 <=? j)%nat with true by (symmetry; apply Nat.leb_le; lia).
      simpl andb. destruct (Nat.lt_ge_cases j (length src)) as [Hlt | Hge].
      - transitivity true; [apply Nat.ltb_lt; lia | symmetry; apply Nat.ltb_lt; lia].
      - transitivity false; [apply Nat.ltb_ge; lia | symmetry; apply Nat.ltb_ge; lia]. }
    rewrite (B 1%nat) in N1 by lia. rewrite (B 2%nat) in N2 by lia.
    rewrite (B 3%nat) in N3 by lia.
    simpl in N0. congruence.
  - rewrite H0. simpl CpuInfo_macos.copy_from.
    assert (Hs : (length src <= 1)%nat) by lia.
    replace (1 <? length src)%nat with false by (symmetry; apply Nat.ltb_ge; lia).
    replace (2 <? length src)%nat with false by (symmetry; apply Nat.ltb_ge; lia).
    replace (3 <? length src)%nat with false by (symmetry; apply Nat.ltb_ge; lia).
    reflexivity.
Qed.

Lemma c_string_terminated (v : list ascii) :
  In zero v -> exists s, CpuInfo_macos.c_string v = Some s.
Proof.
  induction v as [| a v IH]; simpl; [contradiction |].
  intros Hin. destruct (Ascii.eqb a zero) eqn:E; [eauto |].
  destruct Hin as [-> | Hin]; [rewrite Ascii.eqb_refl in E; discriminate E |].
  destruct (IH Hin) as (s & ->). eauto.
Qed.



(** ** The probe of Windows *)

Lemma count_bits_popcount (mask count : Z) :
  0 <= mask -> 0 <= count < 2 ^ 64 ->
  CpuInfo_windows_probe.count_bits mask count = Ok (wrap64 (count + popcount mask)).
Proof.
  intros Hm Hc. unfold CpuInfo_windows_probe.count_bits.
  rewrite clear_bits_popcount; [reflexivity | | exact Hc].
  rewrite Z2Nat.id; lia.
Qed.

Lemma count_masks_popcount (masks : list Z) :
  Forall (fun mask => 0 <= mask) masks ->
  forall count, 0 <= count < 2 ^ 64 ->
    CpuInfo_windows_probe.count_masks masks count =
    Ok (wrap64 (count + fold_right Z.add 0 (map popcount masks))).
Proof.
  induction 1 as [| mask rest Hm _ IH]; intros count Hc; simpl.
  - unfold wrap64. rewrite Z.add_0_r, Z.mod_small; [reflexivity | exact Hc].
  - rewrite count_bits_popcount by assumption.
    rewrite IH by (unfold wrap64; apply Z.mod_pos_bound; lia).
    f_equal. unfold wrap64. rewrite Z.add_mod_idemp_l by lia. f_equal. lia.
Qed.

(** What one record does to an object whose arrays have four entries. *)
Lemma visit_spec (r : CpuInfo_windows.info) (c : CpuInfo.t) :
  well_formed r ->
  length (CpuInfo.cacheSizes_ c) = 4%nat -> length (CpuInfo.cacheSharing_ c) = 4%nat ->
  exists c',
    CpuInfo_windows_probe.visit r c = Ok c' /\
    length (CpuInfo.cacheSizes_ c') = 4%nat /\ length (CpuInfo.cacheSharing_ c') = 4%nat /\
    (level0_unused c -> level0_unused c') /\
    CpuInfo.cpuName_ c' = CpuInfo.cpuName_ c /\
    CpuInfo.cpuCores_ c' =
      (if CpuInfo_windows_probe.is_core r then wrap64 (CpuInfo.cpuCores_ c + 1)
       else CpuInfo.cpuCores_ c) /\
    CpuInfo.cpuThreads_ c' =
      (if CpuInfo_windows_probe.is_core r
       then wrap64 (CpuInfo.cpuThreads_ c + CpuInfo_windows_probe.core_threads r)
       else CpuInfo.cpuThreads_ c) /\
    CpuInfo.threadsPerCore_ c' =
      (if CpuInfo_windows_probe.is_core r
       then wrap64 (CpuInfo_windows_probe.core_threads r)
       else CpuInfo.threadsPerCore_ c).
Proof.
  intros (Hsize & Hmask & Hmasks) Hs Hh.
  unfold CpuInfo_windows_probe.visit.
  match goal with
  | |- exists c', bind ?m _ = Ok c' /\ _ =>
      assert (H1 : exists c1,
                m = Ok c1 /\
                length (CpuInfo.cacheSizes_ c1) = 4%nat /\
                length (CpuInfo.cacheSharing_ c1) = 4%nat /\
                (level0_unused c -> level0_unused c1) /\
                CpuInfo.cpuName_ c1 = CpuInfo.cpuName_ c /\
                CpuInfo.cpuCores_ c1 = CpuInfo.cpuCores_ c /\
                CpuInfo.cpuThreads_ c1 = CpuInfo.cpuThreads_ c /\
                CpuInfo.threadsPerCore_ c1 = CpuInfo.threadsPerCore_ c)
  end.
  { destruct (_ && _) eqn:E;
      [| exists c; split; [reflexivity |]; split; [exact Hs |]; split; [exact Hh |];
         split; [exact (fun x => x) | repeat split]].
    apply andb_prop in E as [E _]. apply andb_prop in E as [E E3].
    apply andb_prop in E as [_ E1]. apply Z.leb_le in E1, E3. cbv zeta.
    set (level := Z.to_nat (CpuInfo_windows.Cache_Level r)).
    assert (Hl : (1 <= level < 4)%nat) by (subst level; lia).
    destruct (store_spec (CpuInfo.cacheSizes_ c) level (CpuInfo_windows.Cache_CacheSize r)
                ltac:(lia)) as (sizes & -> & Hls & Hns).
    destruct (store_spec (CpuInfo.cacheSharing_ c) level 0 ltac:(lia))
      as (sh0 & -> & Hl0 & Hn0).
    rewrite count_bits_popcount by lia. cbn [bind].
    destruct (store_spec sh0 level (wrap64 (0 + popcount (CpuInfo_windows.Cache_GroupMask_Mask r)))
                ltac:(lia)) as (sh1 & -> & Hl1 & Hn1).
    eexists. split; [reflexivity |]. cbn [CpuInfo.cacheSizes_ CpuInfo.cacheSharing_
      CpuInfo.cpuName_ CpuInfo.cpuCores_ CpuInfo.cpuThreads_ CpuInfo.threadsPerCore_].
    split; [lia |]. split; [lia |]. split; [| repeat split].
    unfold level0_unused. cbn [CpuInfo.cacheSizes_ CpuInfo.cacheSharing_].
    rewrite Hns, Hn1, Hn0.
    replace (0 =? level)%nat with false by (symmetry; apply Nat.eqb_neq; lia). auto. }
  destruct H1 as (c1 & -> & Hs1 & Hh1 & H01 & Hn1 & Hc1 & Ht1 & Hp1). cbn [bind].
  destruct (CpuInfo_windows_probe.is_core r) eqn:Ec.
  - rewrite count_masks_popcount by (try assumption; lia). cbn [bind].
    eexists. split; [reflexivity |].
    cbn [CpuInfo.cacheSizes_ CpuInfo.cacheSharing_ CpuInfo.cpuName_ CpuInfo.cpuCores_
         CpuInfo.cpuThreads_ CpuInfo.threadsPerCore_].
    split; [exact Hs1 |]. split; [exact Hh1 |]. split; [exact H01 |].
    split; [exact Hn1 |]. split; [now rewrite Hc1 |].
    fold (CpuInfo_windows_probe.core_threads r). rewrite Z.add_0_l.
    split; [| reflexivity].
    rewrite Ht1. unfold wrap64. now rewrite Z.add_mod_idemp_r by lia.
  - exists c1. split; [reflexivity |]. split; [exact Hs1 |]. split; [exact Hh1 |].
    split; [exact H01 |]. repeat split; auto.
Qed.

Section WindowsFacts.
Context {K : Kernel32}.

Lemma walk_spec (fuel : nat) :
  (forall i, well_formed (record_at i)) ->
  forall (i : Z) (c : CpuInfo.t),
    0 <= i -> glpiex_bytes < 2 ^ 32 -> glpiex_bytes - i <= Z.of_nat fuel ->
    length (CpuInfo.cacheSizes_ c) = 4%nat -> length (CpuInfo.cacheSharing_ c) = 4%nat ->
    exists c',
      CpuInfo_windows_probe.walk fuel i c = Ok c' /\
      length (CpuInfo.cacheSizes_ c') = 4%nat /\ length (CpuInfo.cacheSharing_ c') = 4%nat /\
      (level0_unused c -> level0_unused c') /\
      CpuInfo.cpuName_ c' = CpuInfo.cpuName_ c /\
      let cores := filter CpuInfo_windows_probe.is_core (CpuInfo_windows_probe.records fuel i) in
      wrap64 (CpuInfo.cpuCores_ c') =
        wrap64 (CpuInfo.cpuCores_ c + Z.of_nat (length cores)) /\
      wrap64 (CpuInfo.cpuThreads_ c') =
        wrap64 (CpuInfo.cpuThreads_ c +
                fold_right Z.add 0 (map CpuInfo_windows_probe.core_threads cores)) /\
      (0 <= CpuInfo.cpuCores_ c < 2 ^ 64 -> 0 <= CpuInfo.cpuCores_ c' < 2 ^ 64) /\
      (0 <= CpuInfo.cpuThreads_ c < 2 ^ 64 -> 0 <= CpuInfo.cpuThreads_ c' < 2 ^ 64) /\
      CpuInfo.threadsPerCore_ c' =
        match rev cores with
        | [] => CpuInfo.threadsPerCore_ c
        | r :: _ => wrap64 (CpuInfo_windows_probe.core_threads r)
        end.
Proof.
  intros Hwf. induction fuel as [| fuel IH]; intros i c Hi Hb Hf Hs Hh.
  - cbn [CpuInfo_windows_probe.walk CpuInfo_windows_probe.records].
    destruct (i <? glpiex_bytes) eqn:E; [apply Z.ltb_lt in E; lia |].
    exists c. cbv zeta. cbn [filter length map fold_right rev]. rewrite !Z.add_0_r.
    split; [reflexivity |]. split; [exact Hs |]. split; [exact Hh |].
    split; [exact (fun x => x) |]. split; [reflexivity |]. split; [reflexivity |].
    split; [reflexivity |]. split; [exact (fun x => x) |].
    split; [exact (fun x => x) | reflexivity].
  - cbn [CpuInfo_windows_probe.walk CpuInfo_windows_probe.records].
    destruct (i <? glpiex_bytes) eqn:E.
    + apply Z.ltb_lt in E. cbv zeta.
      pose proof (Hwf i) as Hr.
      destruct (visit_spec (record_at i) c Hr Hs Hh)
        as (c1 & -> & Hs1 & Hh1 & H01 & Hn1 & Hc1 & Ht1 & Hp1).
      destruct Hr as (Hsize & _).
      assert (Hw : wrap64 (i + CpuInfo_windows.Size (record_at i)) =
                   i + CpuInfo_windows.Size (record_at i))
        by (unfold wrap64; apply Z.mod_small; lia).
      rewrite Hw.
      assert (Hi' : 0 <= i + CpuInfo_windows.Size (record_at i)) by lia.
      assert (Hf' : glpiex_bytes - (i + CpuInfo_windows.Size (record_at i)) <= Z.of_nat fuel)
        by lia.
      destruct (IH (i + CpuInfo_windows.Size (record_at i)) c1 Hi' Hb Hf' Hs1 Hh1)
        as (c' & -> & Hs' & Hh' & H0' & Hn' & Hc' & Ht' & Hrc & Hrt & Hp').
      exists c'. split; [reflexivity |]. split; [exact Hs' |]. split; [exact Hh' |].
      split; [auto |]. split; [congruence |].
      cbv zeta in Hc', Ht', Hp'. cbn [filter].
      set (rest := filter CpuInfo_windows_probe.is_core
                     (CpuInfo_windows_probe.records fuel
                        (i + CpuInfo_windows.Size (record_at i)))) in *.
      assert (Hb64 : forall x, 0 <= wrap64 x < 2 ^ 64)
        by (intros x; unfold wrap64; apply Z.mod_pos_bound; lia).
      destruct (CpuInfo_windows_probe.is_core (record_at i)) eqn:Ec.
      * split; [| split; [| split; [| split]]].
        -- rewrite Hc', Hc1. cbn [length]. unfold wrap64.
           rewrite Z.add_mod_idemp_l by lia. f_equal. lia.
        -- rewrite Ht', Ht1. cbn [map fold_right]. unfold wrap64.
           rewrite Z.add_mod_idemp_l by lia. f_equal. lia.
        -- intros _. apply Hrc. rewrite Hc1. apply Hb64.
        -- intros _. apply Hrt. rewrite Ht1. apply Hb64.
        -- rewrite Hp'. cbn [rev].
           destruct (rev rest) as [| r0 rs]; [exact Hp1 | reflexivity].
      * split; [now rewrite Hc', Hc1 |]. split; [now rewrite Ht', Ht1 |].
        split; [rewrite <- Hc1; exact Hrc |]. split; [rewrite <- Ht1; exact Hrt |].
        rewrite Hp'. destruct (rev rest); [exact Hp1 | reflexivity].
    + exists c. cbv zeta. cbn [filter length map fold_right rev]. rewrite !Z.add_0_r.
      split; [reflexivity |]. split; [exact Hs |]. split; [exact Hh |].
      split; [exact (fun x => x) |]. split; [reflexivity |]. split; [reflexivity |].
      split; [reflexivity |]. split; [exact (fun x => x) |].
      split; [exact (fun x => x) | reflexivity].
Qed.

(** X22. On Windows, when every record of the buffer is well formed, the
    loop of [init()] over the records ends, since each record moves the
    offset forward, and [init()] returns. It never writes outside the two
    arrays and leaves their entries of level 0 at zero; it counts one core
    for each record of a core it visits, and adds up, as the number of
    threads, the bits set in the masks of these records. The threads per
    core are the bits of the last core. *)
Theorem windows_init :
  (forall i, well_formed (record_at i)) -> 0 <= glpiex_bytes < 2 ^ 32 ->
  exists c,
    CpuInfo_windows_probe.init CpuInfo.zero = Ok c /\
    length (CpuInfo.cacheSizes_ c) = 4%nat /\ length (CpuInfo.cacheSharing_ c) = 4%nat /\
    level0_unused c /\
    (glpiex = true -> glpiex_filled = true ->
     let cores := filter CpuInfo_windows_probe.is_core
                    (CpuInfo_windows_probe.records (Z.to_nat glpiex_bytes) 0) in
     CpuInfo.cpuCores_ c = wrap64 (Z.of_nat (length cores)) /\
     CpuInfo.cpuThreads_ c =
       wrap64 (fold_right Z.add 0 (map CpuInfo_windows_probe.core_threads cores)) /\
     CpuInfo.threadsPerCore_ c =
       match rev cores with
       | [] => 0
       | r :: _ => wrap64 (CpuInfo_windows_probe.core_threads r)
       end) /\
    (glpiex && glpiex_filled = false ->
     CpuInfo.cpuCores_ c = 0 /\ CpuInfo.cpuThreads_ c = 0 /\ CpuInfo.threadsPerCore_ c = 0).
Proof.
  intros Hwf Hb. unfold CpuInfo_windows_probe.init.
  set (c0 := if IS_X86 then _ else CpuInfo.zero).
  assert (H0 : length (CpuInfo.cacheSizes_ c0) = 4%nat /\
               length (CpuInfo.cacheSharing_ c0) = 4%nat /\ level0_unused c0 /\
               CpuInfo.cpuCores_ c0 = 0 /\ CpuInfo.cpuThreads_ c0 = 0 /\
               CpuInfo.threadsPerCore_ c0 = 0).
  { subst c0. destruct IS_X86; repeat split. }
  destruct H0 as (Hs & Hh & Hl0 & Hc0 & Ht0 & Hp0).
  destruct (walk_spec (Z.to_nat glpiex_bytes) Hwf 0 c0 ltac:(lia) ltac:(lia) ltac:(lia) Hs Hh)
    as (c' & Hrun & Hs' & Hh' & Hl' & _ & Hc' & Ht' & Hrc & Hrt & Hp').
  cbv zeta in Hc', Ht', Hp'. rewrite Hc0 in Hc', Hrc. rewrite Ht0 in Ht', Hrt.
  rewrite Hp0 in Hp'. rewrite Z.add_0_l in Hc', Ht'.
  assert (Hid : forall x, 0 <= x < 2 ^ 64 -> wrap64 x = x)
    by (intros x Hx; unfold wrap64; now apply Z.mod_small).
  rewrite (Hid _ (Hrc ltac:(lia))) in Hc'. rewrite (Hid _ (Hrt ltac:(lia))) in Ht'.
  assert (Hnone : exists c, Ok c0 = Ok c /\
            length (CpuInfo.cacheSizes_ c) = 4%nat /\ length (CpuInfo.cacheSharing_ c) = 4%nat /\
            level0_unused c /\
            CpuInfo.cpuCores_ c = 0 /\ CpuInfo.cpuThreads_ c = 0 /\ CpuInfo.threadsPerCore_ c = 0).
  { exists c0. repeat split; auto; apply Hl0. }
  assert (Hempty : glpiex_bytes = 0 ->
            filter CpuInfo_windows_probe.is_core
              (CpuInfo_windows_probe.records (Z.to_nat glpiex_bytes) 0) = []).
  { intros ->. reflexivity. }
  destruct glpiex eqn:Eg; cbn [negb].
  - cbv zeta. destruct (glpiex_bytes =? 0) eqn:Ez.
    + apply Z.eqb_eq in Ez. destruct Hnone as (c & Hc & A1 & A2 & A3 & A4 & A5 & A6).
      exists c. split; [exact Hc |]. split; [exact A1 |]. split; [exact A2 |].
      split; [exact A3 |]. split; [| auto].
      intros _ _. cbv zeta. rewrite (Hempty Ez). auto.
    + destruct glpiex_filled eqn:Ef; cbn [negb].
      * exists c'. split; [exact Hrun |]. split; [exact Hs' |]. split; [exact Hh' |].
        split; [exact (Hl' Hl0) |]. split; [| discriminate].
        intros _ _. cbv zeta. auto.
      * destruct Hnone as (c & Hc & A1 & A2 & A3 & A4 & A5 & A6).
        exists c. split; [exact Hc |]. split; [exact A1 |]. split; [exact A2 |].
        split; [exact A3 |]. split; [discriminate | auto].
  - destruct Hnone as (c & Hc & A1 & A2 & A3 & A4 & A5 & A6).
    exists c. split; [exact Hc |]. split; [exact A1 |]. split; [exact A2 |].
    split; [exact A3 |]. split; [discriminate | auto].
Qed.

End WindowsFacts.

(** X22 on the sample buffer: two cores, four threads, two threads per
    core, and an L1 data cache of 32K shared by two threads. *)
Lemma windows_init_witness :
  (forall i, well_formed (@record_at sample_kernel32 i)) /\
  0 <= @glpiex_bytes sample_kernel32 < 2 ^ 32 /\
  @CpuInfo_windows_probe.init sample_kernel32 CpuInfo.zero =
  Ok (CpuInfo.mk "Sample CPU" 2 4 2 [0; 32768; 0; 0] [0; 2; 0; 0] "").
Proof.
  assert (Hwf : forall i, well_formed (@record_at sample_kernel32 i)).
  { intros i. unfold well_formed. simpl. destruct (i =? 48); simpl.
    - split; [lia |]. split; [lia | constructor].
    - split; [lia |]. split; [lia |]. constructor; [| constructor].
      destruct (i =? 0); lia. }
  assert (Hb : 0 <= @glpiex_bytes sample_kernel32 < 2 ^ 32) by (simpl; lia).
  split; [exact Hwf |]. split; [exact Hb |].
  destruct (@windows_init sample_kernel32 Hwf Hb) as (c & Hrun & _).
  rewrite Hrun. vm_compute in Hrun. exact (eq_sym Hrun).
Defined.
